(** * Community notes API: the notes routes (src/api/routes/notes.py)

    A shallow embedding of the route handlers of [api/routes/notes.py] and
    of the library calls they rely on ([json.dumps], [json.loads], [sorted],
    the SQLAlchemy query chain), followed by the properties of the
    specification that concern them.

    Conventions of the embedding:
    - a Python [str] is the list of its code points ([pystr]);
    - a Python [int] is a [Z]; a Python [float] is a [float]: a finite
      value, given as the rational it denotes (negation and comparison of
      finite floats are exact, and nothing else is ever done with them
      here), an infinity or NaN;
    - a [datetime] is a [Z] (a point on the time line); a [datetime] object
      is always truthy, whatever its value;
    - a nullable column is an [option];
    - a raised exception is the [Err] case of [result]. *)

From Stdlib Require Import ZArith NArith QArith Lqa List Lia Permutation Sorted Ascii String Bool.
From stdpp Require Import gmap.
Import ListNotations.

Set Warnings "-register-all".
Local Open Scope N_scope.

(** ** Python strings *)

Definition pystr := list N.

(** A string literal of the source. *)
Definition lit (s : string) : pystr := map N_of_ascii (list_ascii_of_string s).

(** Truthiness of a nullable [str] column: [None] and [''] are falsy. *)
Definition truthy_str (o : option pystr) : bool :=
  match o with
  | None => false
  | Some [] => false
  | Some (_ :: _) => true
  end.

(** ** Results and exceptions *)

Inductive error : Type :=
| HTTPException (status_code : Z) (detail : pystr)
| JSONDecodeError
| RecursionError
| ValidationError
| RequestValidationError
| DBAPIError.

Inductive result (A : Type) : Type :=
| Ok (a : A)
| Err (e : error).
Arguments Ok {A} a.
Arguments Err {A} e.

Definition rbind {A B} (r : result A) (k : A -> result B) : result B :=
  match r with
  | Ok a => k a
  | Err e => Err e
  end.

Notation "'try!' x := r 'in' k" := (rbind r (fun x => k))
  (at level 10, x name, r at level 100, k at level 200).

(** A list comprehension whose element expression may raise: elements are
    evaluated left to right and the first exception aborts the whole. *)
Fixpoint comprehension {A B} (f : A -> result B) (l : list A) : result (list B) :=
  match l with
  | [] => Ok []
  | x :: r =>
      try! y := f x in
      try! ys := comprehension f r in
      Ok (y :: ys)
  end.

(** ** Floating point numbers

    The scored attributes are columns of floats.  A finite float is the
    rational number it denotes; both zeros are the rational 0. *)

Inductive float : Type :=
| Fin (q : Q)
| Inf (negative : bool)
| Nan.

(** [-x] *)
Definition float_neg (x : float) : float :=
  match x with
  | Fin q => Fin (- q)%Q
  | Inf negative => Inf (negb negative)
  | Nan => Nan
  end.

(** Truthiness of a float: only the zeros are falsy; NaN is truthy. *)
Definition float_truthy (x : float) : bool :=
  match x with
  | Fin q => negb (Qeq_bool q 0)
  | Inf _ => true
  | Nan => true
  end.

(** [a < b] on rationals. *)
Definition Qltb (a b : Q) : bool :=
  match (a ?= b)%Q with
  | Lt => true
  | _ => false
  end.

(** [a < b] in Python: false as soon as one side is NaN. *)
Definition float_lt (a b : float) : bool :=
  match a, b with
  | Fin x, Fin y => Qltb x y
  | Fin _, Inf negative => negb negative
  | Inf negative, Fin _ => negative
  | Inf n1, Inf n2 => n1 && negb n2
  | Nan, _ => false
  | _, Nan => false
  end.

(** [a == b] in Python: NaN is equal to nothing, itself included. *)
Definition float_eq (a b : float) : bool :=
  match a, b with
  | Fin x, Fin y => Qeq_bool x y
  | Inf n1, Inf n2 => Bool.eqb n1 n2
  | _, _ => false
  end.

(** The order of an ORDER BY on a float column.  SQL orders every value:
    where NaN can be stored at all (PostgreSQL) it is equal to itself and
    greater than every other value; SQLite stores NaN as NULL, so that no
    row of such a store holds it. *)
Definition sql_float_lt (a b : float) : bool :=
  match a, b with
  | Nan, _ => false
  | _, Nan => true
  | _, _ => float_lt a b
  end.

Definition sql_float_eq (a b : float) : bool :=
  match a, b with
  | Nan, Nan => true
  | _, _ => float_eq a b
  end.

(** ** The [json] module of the Python standard library

    [json.dumps] is called on a list of [str] only, with the default
    options ([ensure_ascii=True], separators [', '] and [': ']);
    [json.loads] is called on an arbitrary stored string, so the whole
    decoder is modelled. *)

Module json.

(** Characters are written by their code: 8 backspace, 9 tab, 10 line feed,
    12 form feed, 13 carriage return, 32 space, 34 double quote, 43 plus,
    44 comma, 45 minus, 46 dot, 47 slash, 48 to 57 the digits, 58 colon,
    65 to 70 and 97 to 102 the letters A to F and a to f (69 and 101 also
    open an exponent), 91 and 93 the square brackets, 92 backslash, 98 b,
    102 f, 110 n, 114 r, 116 t, 117 u, 123 and 125 the braces, 126 tilde,
    65279 the byte-order mark.  55296 to 56319 (D800 to DBFF) are the high
    surrogates, 56320 to 57343 (DC00 to DFFF) the low ones; 65536 is
    0x10000, 1023 is 0x3ff and 1114112 is 0x110000. *)

(** *** Encoder ([json.encoder.py_encode_basestring_ascii]) *)

(** One digit of ['{0:04x}'.format(n)]. *)
Definition hexdigit (d : N) : N :=
  if d <? 10 then 48 + d else 87 + d.

(** ['{0:04x}'.format(n)], for [n < 0x10000]. *)
Definition format_04x (n : N) : pystr :=
  [hexdigit ((n / 4096) mod 16); hexdigit ((n / 256) mod 16);
   hexdigit ((n / 16) mod 16); hexdigit (n mod 16)].

(** [ESCAPE_ASCII]: the characters that are replaced are the backslash,
    the double quote and everything outside the range from space to tilde. *)
Definition needs_escape (c : N) : bool :=
  (c =? 92) || (c =? 34) || (c <? 32) || (126 <? c).

(** The [replace] callback: [ESCAPE_DCT] first, then the numeric escapes. *)
Definition replace (c : N) : pystr :=
  if c =? 92 then lit "\\"
  else if c =? 34 then [92; 34]
  else if c =? 8 then lit "\b"
  else if c =? 12 then lit "\f"
  else if c =? 10 then lit "\n"
  else if c =? 13 then lit "\r"
  else if c =? 9 then lit "\t"
  else if c <? 65536 then lit "\u" ++ format_04x c
  else
    let n := c - 65536 in
    let s1 := N.lor 55296 (N.land (N.shiftr n 10) 1023) in
    let s2 := N.lor 56320 (N.land n 1023) in
    lit "\u" ++ format_04x s1 ++ lit "\u" ++ format_04x s2.

Fixpoint escape_ascii_sub (s : pystr) : pystr :=
  match s with
  | [] => []
  | c :: r => (if needs_escape c then replace c else [c]) ++ escape_ascii_sub r
  end.

Definition encode_basestring_ascii (s : pystr) : pystr :=
  [34] ++ escape_ascii_sub s ++ [34].

(** [', '.join(items)]. *)
Fixpoint join_items (items : list pystr) : pystr :=
  match items with
  | [] => []
  | [x] => x
  | x :: r => x ++ lit ", " ++ join_items r
  end.

(** [json.dumps(lst)] for a list of [str]. *)
Definition dumps (lst : list pystr) : pystr :=
  match lst with
  | [] => lit "[]"
  | _ => [91] ++ join_items (map encode_basestring_ascii lst) ++ [93]
  end.

(** *** Decoder ([json.decoder], [json.scanner]) *)

Inductive value : Type :=
| Null
| Bool (b : bool)
| Num (lexeme : pystr)
| NaN
| Infinity (negative : bool)
| Str (s : pystr)
| Arr (items : list value)
| Obj (pairs : list (pystr * value)).

(** Outcome of a scanning function: the value and the unread input, a
    decoding error, or the recursion budget exhausted. *)
Inductive scan (A : Type) : Type :=
| Scanned (a : A) (rest : pystr)
| Invalid
| Exhausted.
Arguments Scanned {A} a rest.
Arguments Invalid {A}.
Arguments Exhausted {A}.

(** [WHITESPACE = r'[ \t\n\r]*'] *)
Definition is_ws (c : N) : bool :=
  (c =? 32) || (c =? 9) || (c =? 10) || (c =? 13).

Fixpoint skip_ws (s : pystr) : pystr :=
  match s with
  | [] => []
  | c :: r => if is_ws c then skip_ws r else s
  end.

(** [HEXDIGITS = r'[0-9A-Fa-f]'], with the digit's value. *)
Definition hexval (c : N) : option N :=
  if (48 <=? c) && (c <=? 57) then Some (c - 48)
  else if (97 <=? c) && (c <=? 102) then Some (c - 87)
  else if (65 <=? c) && (c <=? 70) then Some (c - 55)
  else None.

(** [_decode_uXXXX]: [int(esc, 16)] of four hexadecimal digits. *)
Definition decode_uXXXX (h1 h2 h3 h4 : N) : option N :=
  match hexval h1, hexval h2, hexval h3, hexval h4 with
  | Some a, Some b, Some c, Some d => Some (((a * 16 + b) * 16 + c) * 16 + d)
  | _, _, _, _ => None
  end.

(** The [BACKSLASH] table. *)
Definition backslash (e : N) : option N :=
  if e =? 34 then Some 34
  else if e =? 92 then Some 92
  else if e =? 47 then Some 47
  else if e =? 98 then Some 8
  else if e =? 102 then Some 12
  else if e =? 110 then Some 10
  else if e =? 114 then Some 13
  else if e =? 116 then Some 9
  else None.

Definition is_high_surrogate (u : N) : bool := (55296 <=? u) && (u <=? 56319).
Definition is_low_surrogate (u : N) : bool := (56320 <=? u) && (u <=? 57343).

Definition join_surrogates (uni uni2 : N) : N :=
  65536 + N.lor (N.shiftl (uni - 55296) 10) (uni2 - 56320).

Definition cons_char (c : N) (r : scan pystr) : scan pystr :=
  match r with
  | Scanned s rest => Scanned (c :: s) rest
  | Invalid => Invalid
  | Exhausted => Exhausted
  end.

(** [py_scanstring(s, end, strict=True)], entered after the opening quote. *)
Fixpoint scanstring (s : pystr) : scan pystr :=
  match s with
  | [] => Invalid
  | c :: r =>
      if c =? 34 then Scanned [] r
      else if c =? 92 then
        match r with
        | [] => Invalid
        | esc :: r1 =>
            if esc =? 117 then
              match r1 with
              | h1 :: h2 :: h3 :: h4 :: r2 =>
                  match decode_uXXXX h1 h2 h3 h4 with
                  | None => Invalid
                  | Some uni =>
                      if is_high_surrogate uni then
                        match r2 with
                        | b :: u :: r3 =>
                            if (b =? 92) && (u =? 117) then
                              match r3 with
                              | k1 :: k2 :: k3 :: k4 :: r4 =>
                                  match decode_uXXXX k1 k2 k3 k4 with
                                  | None => Invalid
                                  | Some uni2 =>
                                      if is_low_surrogate uni2
                                      then cons_char (join_surrogates uni uni2) (scanstring r4)
                                      else cons_char uni (scanstring r2)
                                  end
                              | _ => Invalid
                              end
                            else cons_char uni (scanstring r2)
                        | _ => cons_char uni (scanstring r2)
                        end
                      else cons_char uni (scanstring r2)
                  end
              | _ => Invalid
              end
            else
              match backslash esc with
              | Some ch => cons_char ch (scanstring r1)
              | None => Invalid
              end
        end
      else if c <? 32 then Invalid
      else cons_char c (scanstring r)
  end.

(** [NUMBER_RE]: an optional minus sign, then 0 or a non-zero digit
    followed by digits; then optionally a dot and at least one digit; then
    optionally e or E, an optional sign, and at least one digit.  A fraction
    or exponent that does not match completely is left unread. *)
Definition is_digit (c : N) : bool := (48 <=? c) && (c <=? 57).

Fixpoint span_digits (s : pystr) : pystr * pystr :=
  match s with
  | [] => ([], [])
  | c :: r =>
      if is_digit c
      then let (ds, rest) := span_digits r in (c :: ds, rest)
      else ([], s)
  end.

Definition match_integer (s : pystr) : option (pystr * pystr) :=
  let (sign, s1) :=
    match s with
    | c :: r => if c =? 45 then ([c], r) else ([], s)
    | [] => ([], s)
    end in
  match s1 with
  | d :: r =>
      if d =? 48 then Some (sign ++ [d], r)
      else if is_digit d
           then let (ds, rest) := span_digits r in Some (sign ++ d :: ds, rest)
           else None
  | [] => None
  end.

Definition match_frac (s : pystr) : pystr * pystr :=
  match s with
  | c :: r =>
      if c =? 46 then
        match span_digits r with
        | ([], _) => ([], s)
        | (ds, rest) => (c :: ds, rest)
        end
      else ([], s)
  | [] => ([], s)
  end.

Definition match_exp (s : pystr) : pystr * pystr :=
  match s with
  | c :: r =>
      if (c =? 101) || (c =? 69) then
        let (sign, r1) :=
          match r with
          | g :: r' => if (g =? 45) || (g =? 43) then ([g], r') else ([], r)
          | [] => ([], r)
          end in
        match span_digits r1 with
        | ([], _) => ([], s)
        | (ds, rest) => (c :: sign ++ ds, rest)
        end
      else ([], s)
  | [] => ([], s)
  end.

Definition match_number (s : pystr) : option (pystr * pystr) :=
  match match_integer s with
  | None => None
  | Some (integer, r) =>
      let (frac, r1) := match_frac r in
      let (exp, r2) := match_exp r1 in
      Some (integer ++ frac ++ exp, r2)
  end.

(** [string[idx:idx + len(p)] == p], with what follows the prefix. *)
Fixpoint strip_prefix (p s : pystr) : option pystr :=
  match p, s with
  | [], _ => Some s
  | a :: p', b :: s' => if a =? b then strip_prefix p' s' else None
  | _ :: _, [] => None
  end.

(** The constants of [_scan_once], tried in the order of the source around
    the number: null, true, false, (number), NaN, Infinity, -Infinity. *)
Definition scan_number_or_constant (s : pystr) : scan value :=
  match match_number s with
  | Some (lexeme, r) => Scanned (Num lexeme) r
  | None =>
      match strip_prefix (lit "NaN") s with
      | Some r => Scanned NaN r
      | None =>
          match strip_prefix (lit "Infinity") s with
          | Some r => Scanned (Infinity false) r
          | None =>
              match strip_prefix (lit "-Infinity") s with
              | Some r => Scanned (Infinity true) r
              | None => Invalid
              end
          end
      end
  end.

Definition scan_atom (s : pystr) : scan value :=
  match strip_prefix (lit "null") s with
  | Some r => Scanned Null r
  | None =>
      match strip_prefix (lit "true") s with
      | Some r => Scanned (Bool true) r
      | None =>
          match strip_prefix (lit "false") s with
          | Some r => Scanned (Bool false) r
          | None => scan_number_or_constant s
          end
      end
  end.

(** [_scan_once], [JSONArray] and [JSONObject].  The three call each other;
    [fuel] bounds the depth of the calls and every call that descends
    consumes at least one character, so a budget above the length of the
    input is never exhausted (see [scan_budget]).

    [array_items] is the loop of [JSONArray] entered at a value;
    [object_pairs] is the loop of [JSONObject] entered after the opening
    quote of a key. *)
Fixpoint scan_once (fuel : nat) (s : pystr) : scan value :=
  match fuel with
  | O => Exhausted
  | S fuel' =>
      match s with
      | [] => Invalid
      | c :: r =>
          if c =? 34 then
            match scanstring r with
            | Scanned str rest => Scanned (Str str) rest
            | Invalid => Invalid
            | Exhausted => Exhausted
            end
          else if c =? 123 then
            match skip_ws r with
            | c1 :: r1 =>
                if c1 =? 125 then Scanned (Obj []) r1
                else if c1 =? 34 then
                  match object_pairs fuel' r1 with
                  | Scanned ps rest => Scanned (Obj ps) rest
                  | Invalid => Invalid
                  | Exhausted => Exhausted
                  end
                else Invalid
            | [] => Invalid
            end
          else if c =? 91 then
            match skip_ws r with
            | c1 :: r1 =>
                if c1 =? 93 then Scanned (Arr []) r1
                else
                  match array_items fuel' (c1 :: r1) with
                  | Scanned vs rest => Scanned (Arr vs) rest
                  | Invalid => Invalid
                  | Exhausted => Exhausted
                  end
            | [] => Invalid
            end
          else scan_atom s
      end
  end

with array_items (fuel : nat) (s : pystr) : scan (list value) :=
  match fuel with
  | O => Exhausted
  | S fuel' =>
      match scan_once fuel' s with
      | Scanned v r =>
          match skip_ws r with
          | c :: r1 =>
              if c =? 93 then Scanned [v] r1
              else if c =? 44 then
                match array_items fuel' (skip_ws r1) with
                | Scanned vs rest => Scanned (v :: vs) rest
                | Invalid => Invalid
                | Exhausted => Exhausted
                end
              else Invalid
          | [] => Invalid
          end
      | Invalid => Invalid
      | Exhausted => Exhausted
      end
  end

with object_pairs (fuel : nat) (s : pystr) : scan (list (pystr * value)) :=
  match fuel with
  | O => Exhausted
  | S fuel' =>
      match scanstring s with
      | Scanned key r =>
          match skip_ws r with
          | c :: r1 =>
              if c =? 58 then
                match scan_once fuel' (skip_ws r1) with
                | Scanned v r2 =>
                    match skip_ws r2 with
                    | d :: r3 =>
                        if d =? 125 then Scanned [(key, v)] r3
                        else if d =? 44 then
                          match skip_ws r3 with
                          | q :: r4 =>
                              if q =? 34 then
                                match object_pairs fuel' r4 with
                                | Scanned ps rest => Scanned ((key, v) :: ps) rest
                                | Invalid => Invalid
                                | Exhausted => Exhausted
                                end
                              else Invalid
                          | [] => Invalid
                          end
                        else Invalid
                    | [] => Invalid
                    end
                | Invalid => Invalid
                | Exhausted => Exhausted
                end
              else Invalid
          | [] => Invalid
          end
      | Invalid => Invalid
      | Exhausted => Exhausted
      end
  end.

(** [json.loads(s)]: a leading byte-order mark is refused, white space is
    skipped on both sides of the one value, and anything left is an error
    (Extra data).  The budget given to [scan_once] is never exhausted
    ([loads_total]); the recursion limit of the interpreter, which input
    nested thousands of levels deep can hit, is not modelled. *)
Definition loads (s : pystr) : result value :=
  match strip_prefix [65279] s with
  | Some _ => Err JSONDecodeError
  | None =>
      match scan_once (S (2 * length s)) (skip_ws s) with
      | Scanned v r =>
          match skip_ws r with
          | [] => Ok v
          | _ :: _ => Err JSONDecodeError
          end
      | Invalid => Err JSONDecodeError
      | Exhausted => Err RecursionError
      end
  end.

End json.

(** ** The data model ([api.database], [api.models]) *)

(** Modelled from the spec: the [NoteStatus] enumeration of [api.models],
    which is not part of the sources at hand.  The spec gives it three
    members; the value of the first is quoted in the docstring of
    [create_note], the others follow the same naming. *)
Inductive NoteStatus : Type :=
| NEEDS_MORE_RATINGS
| CURRENTLY_RATED_HELPFUL
| CURRENTLY_RATED_NOT_HELPFUL.

Definition NoteStatus_value (s : NoteStatus) : pystr :=
  match s with
  | NEEDS_MORE_RATINGS => lit "needs_more_ratings"
  | CURRENTLY_RATED_HELPFUL => lit "currently_rated_helpful"
  | CURRENTLY_RATED_NOT_HELPFUL => lit "currently_rated_not_helpful"
  end.

(** [a == b] on [str]. *)
Definition str_eq (a b : pystr) : bool := bool_decide (a = b).

(** A row of the [notes] table. *)
Module Note.
Record t : Type := mk {
  id : Z;
  promise_id : Z;
  author_id : Z;
  summary : pystr;
  content : pystr;
  sources : option pystr;
  classification : pystr;
  status : pystr;
  helpfulness_score : option float;
  note_intercept : option float;
  note_factor : option float;
  helpful_count : Z;
  somewhat_helpful_count : Z;
  not_helpful_count : Z;
  created_at : Z;
  updated_at : Z;
  scored_at : option Z
}.
End Note.

Module NoteResponse.
Record t : Type := mk {
  id : Z;
  promise_id : Z;
  author_id : Z;
  summary : pystr;
  content : pystr;
  sources : list pystr;
  classification : pystr;
  status : pystr;
  helpfulness_score : option float;
  note_intercept : option float;
  note_factor : option float;
  helpful_count : Z;
  somewhat_helpful_count : Z;
  not_helpful_count : Z;
  created_at : Z;
  updated_at : Z;
  scored_at : option Z
}.
End NoteResponse.

Module ScoredNotesResponse.
Record t : Type := mk {
  promise_id : Z;
  notes : list NoteResponse.t;
  total_notes : Z;
  helpful_notes_count : Z;
  needs_more_ratings_count : Z;
  last_scored_at : option Z;
  algorithm_version : pystr
}.
End ScoredNotesResponse.

(** [request.classification] is a member of an enumeration of [api.models];
    only its [value] is used. *)
Module CreateNoteRequest.
Record t : Type := mk {
  promise_id : Z;
  author_id : Z;
  summary : pystr;
  content : pystr;
  sources : list pystr;
  classification_value : pystr
}.
End CreateNoteRequest.

(** The SQL dialect behind the session decides what a negative LIMIT or
    OFFSET means; [api.database] is not part of the sources at hand, so the
    dialect is a parameter of the store. *)
Inductive Dialect : Type :=
| SQLite
| PostgreSQL.

(** The store as one request sees it: the rows of the [notes] table in the
    order in which the engine takes them up for this request, the next
    primary key and the clock.  SQL does not fix that order: another request
    may see the same rows in another one, and a statement that relates
    several requests and must not depend on it is made for stores whose
    rows are rearrangements of each other. *)
Record Db : Type := mkDb {
  dialect : Dialect;
  rows : list Note.t;
  next_id : Z;
  clock : Z
}.

(** ** Library operations used by the handlers *)

Section Sorting.
Context {A : Type} (lt : A -> A -> bool).

(** ORDER BY.  [lt a b] says that [a] sorts strictly before [b]; the
    orders of the queries are strict weak orders.  The result is the rows
    in that order.  SQL leaves the order of the rows that the order does
    not separate to the engine, query by query; here they come in the order
    of the rows given, which is the order of [rows] of the request at hand
    and so may be any arrangement of them: every result that an engine may
    give is the result for some arrangement of the rows.  Inserting each
    row before the first one that is not smaller, from the right, builds
    the result. *)
Fixpoint insert_ordered (x : A) (l : list A) : list A :=
  match l with
  | [] => [x]
  | y :: r => if lt y x then y :: insert_ordered x r else x :: y :: r
  end.

Fixpoint order_by (l : list A) : list A :=
  match l with
  | [] => []
  | x :: r => insert_ordered x (order_by r)
  end.

(** [sorted(l, key=...)]: the list sort of CPython ([listobject.c], as in
    Python 3.11 and 3.12), which only ever asks whether one key is smaller
    than another.  It finds the run that the list starts with
    ([count_run]), reverses it when it is strictly descending, and inserts
    the elements that follow one by one at the place that a binary search
    gives ([binarysort]).  That is the whole algorithm for fewer than 64
    elements.  From 64 elements on CPython cuts the list into several such
    runs and merges them; the merged list is the same as the one built
    here whenever the comparison is a strict weak order on the elements,
    and may differ from it only when it is not (a NaN among the keys of 64
    elements or more). *)

(** The part of [count_run] that follows the first two elements: how many
    more elements continue the run. *)
Fixpoint run_ascending (prev : A) (l : list A) : nat :=
  match l with
  | [] => O
  | x :: r => if lt x prev then O else S (run_ascending x r)
  end.

Fixpoint run_descending (prev : A) (l : list A) : nat :=
  match l with
  | [] => O
  | x :: r => if lt x prev then S (run_descending x r) else O
  end.

(** [count_run]: the length of the initial run and whether it descends. *)
Definition count_run (l : list A) : nat * bool :=
  match l with
  | [] => (O, false)
  | [x] => (1%nat, false)
  | x :: y :: r =>
      if lt y x then (S (S (run_descending y r)), true)
      else (S (S (run_ascending y r)), false)
  end.

(** The loop of [binarysort] that looks for the place of [pivot] between
    the indices [l] and [r] of the sorted part [a]. *)
Fixpoint binary_search (fuel : nat) (pivot : A) (a : list A) (l r : nat) : nat :=
  match fuel with
  | O => l
  | S fuel' =>
      if (l <? r)%nat then
        let p := (l + (r - l) / 2)%nat in
        match nth_error a p with
        | Some y =>
            if lt pivot y then binary_search fuel' pivot a l p
            else binary_search fuel' pivot a (S p) r
        | None => l
        end
      else l
  end.

Definition binary_insert (a : list A) (pivot : A) : list A :=
  let k := binary_search (length a) pivot a O (length a) in
  firstn k a ++ pivot :: skipn k a.

Definition binarysort (run rest : list A) : list A :=
  fold_left binary_insert rest run.

Definition sorted (l : list A) : list A :=
  match l with
  | [] => l
  | [_] => l
  | _ :: _ :: _ =>
      let (n, descending) := count_run l in
      let run := firstn n l in
      binarysort (if descending then rev run else run) (skipn n l)
  end.
End Sorting.

(** [sum(...)] of a sequence of [int]. *)
Definition py_sum (l : list Z) : Z := fold_left Z.add l 0%Z.

(** [max(l)] of a non-empty sequence of [datetime], given as its first
    element and the rest. *)
Definition py_max (first : Z) (rest : list Z) : Z := fold_left Z.max rest first.

(** [.offset(offset).limit(limit)]: SQLite reads a negative LIMIT as no
    limit and a negative OFFSET as zero; PostgreSQL refuses both. *)
Definition offset_limit {A} (d : Dialect) (offset limit : Z) (l : list A)
  : result (list A) :=
  match d with
  | SQLite =>
      let skipped := skipn (Z.to_nat offset) l in
      Ok (if (limit <? 0)%Z then skipped else firstn (Z.to_nat limit) skipped)
  | PostgreSQL =>
      if ((offset <? 0) || (limit <? 0))%Z then Err DBAPIError
      else Ok (firstn (Z.to_nat limit) (skipn (Z.to_nat offset) l))
  end.

(** [Query(default=50, le=100)]: the value bound to [limit] before the
    handler runs, or the 422 response of the request validation. *)
Definition Query_limit (supplied : option Z) : result Z :=
  match supplied with
  | None => Ok 50%Z
  | Some v => if (v <=? 100)%Z then Ok v else Err RequestValidationError
  end.

(** ** The handlers of [api/routes/notes.py] *)

(** Modelled from the spec: [NoteResponse] (of [api.models], not part of
    the sources at hand) exposes [sources] as a list of strings; a decoded
    value of another shape does not validate. *)
Fixpoint as_str_list (items : list json.value) : result (list pystr) :=
  match items with
  | [] => Ok []
  | json.Str s :: r => try! ss := as_str_list r in Ok (s :: ss)
  | _ :: _ => Err ValidationError
  end.

Definition validate_sources (v : json.value) : result (list pystr) :=
  match v with
  | json.Arr items => as_str_list items
  | _ => Err ValidationError
  end.

(** [json.loads(note.sources) if note.sources else []] *)
Definition read_sources (stored : option pystr) : result (list pystr) :=
  if truthy_str stored then
    match stored with
    | Some s => try! v := json.loads s in validate_sources v
    | None => Ok []
    end
  else Ok [].

Definition _note_to_response (note : Note.t) : result NoteResponse.t :=
  try! srcs := read_sources (Note.sources note) in
  Ok (NoteResponse.mk
        (Note.id note) (Note.promise_id note) (Note.author_id note)
        (Note.summary note) (Note.content note)
        srcs
        (Note.classification note) (Note.status note)
        (Note.helpfulness_score note) (Note.note_intercept note)
        (Note.note_factor note)
        (Note.helpful_count note) (Note.somewhat_helpful_count note)
        (Note.not_helpful_count note)
        (Note.created_at note) (Note.updated_at note) (Note.scored_at note)).

(** Modelled from the spec: the column defaults of [api.database] (not part
    of the sources at hand): the key is assigned by the store, the tallies
    start at zero, the scored attributes are null and both timestamps are
    the time of creation. *)
Definition create_note (request : CreateNoteRequest.t) (db : Db)
  : result NoteResponse.t * Db :=
  let note :=
    Note.mk (next_id db)
      (CreateNoteRequest.promise_id request)
      (CreateNoteRequest.author_id request)
      (CreateNoteRequest.summary request)
      (CreateNoteRequest.content request)
      (Some (json.dumps (CreateNoteRequest.sources request)))
      (CreateNoteRequest.classification_value request)
      (NoteStatus_value NEEDS_MORE_RATINGS)
      None None None 0%Z 0%Z 0%Z (clock db) (clock db) None in
  (_note_to_response note,
   mkDb (dialect db) (rows db ++ [note]) (next_id db + 1)%Z (clock db)).

(** [if status: query = query.filter(Note.status == status.value)] *)
Definition filter_status (status : option NoteStatus) (l : list Note.t) : list Note.t :=
  match status with
  | Some st => List.filter (fun n => str_eq (Note.status n) (NoteStatus_value st)) l
  | None => l
  end.

(** [Note.created_at.desc()].  Notes created at the same time are tied:
    the query has no further criterion, and their order is the one of
    [rows] for the request at hand. *)
Definition created_desc (a b : Note.t) : bool :=
  (Note.created_at b <? Note.created_at a)%Z.

Definition get_notes_by_author (db : Db) (author_id : Z)
    (status : option NoteStatus) (limit : option Z) (offset : Z)
  : result (list NoteResponse.t) :=
  try! limit := Query_limit limit in
  let query := List.filter (fun n => (Note.author_id n =? author_id)%Z) (rows db) in
  let query := filter_status status query in
  let query := order_by created_desc query in
  try! notes := offset_limit (dialect db) offset limit query in
  comprehension _note_to_response notes.

Definition get_note (db : Db) (note_id : Z) : result NoteResponse.t :=
  match find (fun n => (Note.id n =? note_id)%Z) (rows db) with
  | None => Err (HTTPException 404 (lit "Note not found"))
  | Some note => _note_to_response note
  end.

(** [Note.note_intercept.desc().nullslast(), Note.created_at.desc()].
    Notes with the same intercept, or without intercept, that were created
    at the same time are tied: their order is the one of [rows] for the
    request at hand. *)
Definition intercept_desc_nullslast (a b : Note.t) : bool :=
  match Note.note_intercept a, Note.note_intercept b with
  | Some x, Some y =>
      sql_float_lt y x || (sql_float_eq x y && created_desc a b)
  | Some _, None => true
  | None, Some _ => false
  | None, None => created_desc a b
  end.

Definition get_notes_for_promise (db : Db) (promise_id : Z)
    (status : option NoteStatus) (limit : option Z) (offset : Z)
  : result (list NoteResponse.t) :=
  try! limit := Query_limit limit in
  let query := List.filter (fun n => (Note.promise_id n =? promise_id)%Z) (rows db) in
  let query := filter_status status query in
  let query := order_by intercept_desc_nullslast query in
  try! notes := offset_limit (dialect db) offset limit query in
  comprehension _note_to_response notes.

(** [n.status == NoteStatus.X.value] *)
Definition has_status (st : NoteStatus) (n : Note.t) : bool :=
  str_eq (Note.status n) (NoteStatus_value st).

(** [n.note_intercept or -999]: [None] and [0.0] are both falsy; every
    other float, NaN included, is truthy and is the value of the
    expression.  The integer -999 compares with floats as the number it
    is. *)
Definition intercept_or (n : Note.t) : float :=
  match Note.note_intercept n with
  | None => Fin (-999)
  | Some x => if float_truthy x then x else Fin (-999)
  end.

(** The key of the ranking. *)
Definition sort_key (n : Note.t) : Z * float :=
  (if has_status CURRENTLY_RATED_HELPFUL n then 0%Z else 1%Z,
   float_neg (intercept_or n)).

(** [a < b] on the key tuples: the first components that are not equal
    decide, and tuples whose components are all equal are not smaller. *)
Definition tuple_lt (a b : Z * float) : bool :=
  if (fst a =? fst b)%Z then
    if float_eq (snd a) (snd b) then false else float_lt (snd a) (snd b)
  else (fst a <? fst b)%Z.

Definition key_lt (a b : Note.t) : bool := tuple_lt (sort_key a) (sort_key b).

(** [[n.scored_at for n in notes if n.scored_at]] *)
Fixpoint scored_times (notes : list Note.t) : list Z :=
  match notes with
  | [] => []
  | n :: r =>
      match Note.scored_at n with
      | Some t => t :: scored_times r
      | None => scored_times r
      end
  end.

Definition get_scored_notes_for_promise (db : Db) (promise_id : Z)
  : result ScoredNotesResponse.t :=
  let notes := List.filter (fun n => (Note.promise_id n =? promise_id)%Z) (rows db) in
  let total_notes := Z.of_nat (length notes) in
  let helpful_count :=
    py_sum (map (fun _ => 1%Z) (List.filter (has_status CURRENTLY_RATED_HELPFUL) notes)) in
  let needs_ratings_count :=
    py_sum (map (fun _ => 1%Z) (List.filter (has_status NEEDS_MORE_RATINGS) notes)) in
  let last_scored :=
    match notes with
    | [] => None
    | _ :: _ =>
        match scored_times notes with
        | [] => None
        | t :: ts => Some (py_max t ts)
        end
    end in
  let sorted_notes := sorted key_lt notes in
  try! responses := comprehension _note_to_response sorted_notes in
  Ok (ScoredNotesResponse.mk promise_id responses total_notes helpful_count
        needs_ratings_count last_scored (lit "1.0.0")).

(** [db.delete(note); db.commit()]: the row with the key of [note] goes. *)
Definition db_delete (note : Note.t) (db : Db) : Db :=
  mkDb (dialect db)
       (List.filter (fun n => negb (Note.id n =? Note.id note)%Z) (rows db))
       (next_id db) (clock db).

Definition delete_note (db : Db) (note_id author_id : Z) : result Db :=
  match find (fun n => (Note.id n =? note_id)%Z) (rows db) with
  | None => Err (HTTPException 404 (lit "Note not found"))
  | Some note =>
      if negb (Note.author_id note =? author_id)%Z
      then Err (HTTPException 403 (lit "Only the author can delete this note"))
      else if has_status CURRENTLY_RATED_HELPFUL note
      then Err (HTTPException 400
                  (lit "Cannot delete a note that has been rated helpful by the community"))
      else Ok (db_delete note db)
  end.

(** [GROUP BY Note.classification] with [func.count(Note.id)]: one row per
    classification that occurs, with the number of its notes. *)
Fixpoint count_group (c : pystr) (groups : list (pystr * Z)) : list (pystr * Z) :=
  match groups with
  | [] => [(c, 1%Z)]
  | (c', k) :: r =>
      if str_eq c' c then (c', (k + 1)%Z) :: r else (c', k) :: count_group c r
  end.

Definition group_by_count (l : list pystr) : list (pystr * Z) :=
  fold_left (fun groups c => count_group c groups) l [].

(** [{r.classification: r.count for r in results}] *)
Definition dict_of (results : list (pystr * Z)) : gmap pystr Z :=
  fold_left (fun d r => <[fst r := snd r]> d) results ∅.

Definition get_notes_by_classification (db : Db) (promise_id : Z)
  : Z * gmap pystr Z :=
  let results :=
    group_by_count
      (map Note.classification
         (List.filter (fun n => (Note.promise_id n =? promise_id)%Z
                           && has_status CURRENTLY_RATED_HELPFUL n)
                 (rows db))) in
  (promise_id, dict_of results).

(** ** Well-formedness of strings *)

(** Every element of a [str] is a code point, below 0x110000. *)
Definition is_str (s : pystr) : bool := forallb (fun c => c <? 1114112) s.

(** A [str] may hold surrogate code points; [has_surrogate_pair] says that
    somewhere a high surrogate is immediately followed by a low one. *)
Fixpoint has_surrogate_pair (s : pystr) : bool :=
  match s with
  | [] => false
  | c :: r =>
      match r with
      | c' :: _ => json.is_high_surrogate c && json.is_low_surrogate c'
      | [] => false
      end || has_surrogate_pair r
  end.

(** ** Vocabulary of the statements *)

(** The note set of a promise, in the order the store returns it. *)
Definition notes_of_promise (db : Db) (promise_id : Z) : list Note.t :=
  List.filter (fun n => (Note.promise_id n =? promise_id)%Z) (rows db).

(** The number of notes that have a given status. *)
Definition count_status (st : NoteStatus) (notes : list Note.t) : nat :=
  count_occ (List.list_eq_dec N.eq_dec) (map Note.status notes) (NoteStatus_value st).



(** [r] is the response built from the note [n]. *)
Definition response_of (n : Note.t) (r : NoteResponse.t) : Prop :=
  _note_to_response n = Ok r.

(** The response [r] carries the stored note [n]: every field of [r] is
    the field of [n], and its sources are the stored sources, read. *)
Definition carries (n : Note.t) (r : NoteResponse.t) : Prop :=
  NoteResponse.id r = Note.id n /\
  NoteResponse.promise_id r = Note.promise_id n /\
  NoteResponse.author_id r = Note.author_id n /\
  NoteResponse.summary r = Note.summary n /\
  NoteResponse.content r = Note.content n /\
  read_sources (Note.sources n) = Ok (NoteResponse.sources r) /\
  NoteResponse.classification r = Note.classification n /\
  NoteResponse.status r = Note.status n /\
  NoteResponse.helpfulness_score r = Note.helpfulness_score n /\
  NoteResponse.note_intercept r = Note.note_intercept n /\
  NoteResponse.note_factor r = Note.note_factor n /\
  NoteResponse.helpful_count r = Note.helpful_count n /\
  NoteResponse.somewhat_helpful_count r = Note.somewhat_helpful_count n /\
  NoteResponse.not_helpful_count r = Note.not_helpful_count n /\
  NoteResponse.created_at r = Note.created_at n /\
  NoteResponse.updated_at r = Note.updated_at n /\
  NoteResponse.scored_at r = Note.scored_at n.

(** A note with the given key, owner, status, classification, intercept,
    stored sources and scoring time, and nothing else of interest. *)
Definition a_note (id promise_id author_id : Z) (status classification : pystr)
    (note_intercept : option float) (sources : option pystr) (scored_at : option Z)
  : Note.t :=
  Note.mk id promise_id author_id [] [] sources classification status
          None note_intercept None 0%Z 0%Z 0%Z 0%Z 0%Z scored_at.

(** The result of the sort is ordered: no element sorts strictly before one
    that precedes it. *)
Definition ordered {A} (lt : A -> A -> bool) (l : list A) : Prop :=
  StronglySorted (fun a b => lt b a = false) l.


(** NaN. *)
Definition is_nan (x : float) : bool :=
  match x with
  | Nan => true
  | _ => false
  end.

(** The intercept of the note is set and is NaN. *)
Definition intercept_is_nan (n : Note.t) : bool :=
  match Note.note_intercept n with
  | Some x => is_nan x
  | None => false
  end.

(** The row that [.filter(Note.id == note_id).first()] returns. *)
Definition first_with_id (db : Db) (note_id : Z) : option Note.t :=
  find (fun n => (Note.id n =? note_id)%Z) (rows db).

(** The stored value is absent: NULL or the empty string. *)
Definition sources_absent (note : Note.t) : Prop :=
  truthy_str (Note.sources note) = false.

(** The stored value is there and [json.loads] cannot decode it. *)
Definition sources_undecodable (note : Note.t) : Prop :=
  exists s, Note.sources note = Some s /\ s <> [] /\ json.loads s = Err JSONDecodeError.

(** After a lone high surrogate the decoder looks ahead: [pairs_with_next]
    says that what follows makes it leave the straight path, by joining a
    low surrogate or by failing on a malformed escape. *)
Definition pairs_with_next (r2 : pystr) : bool :=
  match r2 with
  | b :: u :: r3 =>
      (b =? 92) && (u =? 117) &&
      match r3 with
      | k1 :: k2 :: k3 :: k4 :: _ =>
          match json.decode_uXXXX k1 k2 k3 k4 with
          | Some uni2 => json.is_low_surrogate uni2
          | None => true
          end
      | _ => true
      end
  | _ => false
  end.

(** The count recorded for a classification in the rows of a grouping. *)
Fixpoint group_of (c : pystr) (groups : list (pystr * Z)) : option Z :=
  match groups with
  | [] => None
  | (c', k) :: r => if str_eq c' c then Some k else group_of c r
  end.

(** The number of times a string occurs in a list. *)
Definition occurrences (c : pystr) (l : list pystr) : nat :=
  count_occ (List.list_eq_dec N.eq_dec) l c.

(** The number of notes of a promise that are rated helpful and carry a
    given classification. *)
Definition helpful_with_classification (db : Db) (promise_id : Z) (c : pystr) : nat :=
  length (List.filter
            (fun n => (Note.promise_id n =? promise_id)%Z
                      && has_status CURRENTLY_RATED_HELPFUL n
                      && str_eq (Note.classification n) c)
            (rows db)).

(** ** Example stores, requests and notes *)

(** The three notes of the aggregation example of the spec, unscored. *)
Definition aggregation_example : Db :=
  mkDb SQLite
       [a_note 1 7 1 (NoteStatus_value NEEDS_MORE_RATINGS) (lit "promise_kept") None None None;
        a_note 2 7 2 (NoteStatus_value CURRENTLY_RATED_HELPFUL) (lit "promise_kept") None None None;
        a_note 3 7 3 (NoteStatus_value NEEDS_MORE_RATINGS) (lit "promise_broken") None None None]
       4 0.

(** The same three notes in a store of another dialect, at another time,
    next to a note of another promise. *)
Definition aggregation_example_later : Db :=
  mkDb PostgreSQL
       (a_note 9 8 1 (NoteStatus_value NEEDS_MORE_RATINGS) (lit "promise_kept") None None None
        :: rows aggregation_example)
       10 5.

(** Two notes of one tier: the first has intercept 0.0, the second -0.5. *)
Definition zero_intercept_example : Db :=
  mkDb SQLite
       [a_note 1 7 1 (NoteStatus_value NEEDS_MORE_RATINGS) (lit "promise_kept")
               (Some (Fin 0)) None None;
        a_note 2 7 2 (NoteStatus_value NEEDS_MORE_RATINGS) (lit "promise_kept")
               (Some (Fin (-1 # 2))) None None]
       3 0.

(** A store with a helpful note of author 1 and an unrated note of author 2. *)
Definition deletion_example : Db :=
  mkDb SQLite
       [a_note 1 7 1 (NoteStatus_value CURRENTLY_RATED_HELPFUL) (lit "promise_kept")
               (Some (Fin (4 # 5))) None None;
        a_note 2 7 2 (NoteStatus_value NEEDS_MORE_RATINGS) (lit "promise_broken")
               None None None]
       3 0.

(** A store without notes. *)
Definition empty_store : Db := mkDb SQLite [] 1 0.

(** A request whose only source is the two code points U+D83D and U+DE00. *)
Definition surrogate_request : CreateNoteRequest.t :=
  CreateNoteRequest.mk 7 1 [] [] [[55357; 56832]] (lit "promise_kept").

(** A request with two sources: an address, and a string with a letter
    outside ASCII, a character outside the basic plane, a line feed, a
    double quote and a backslash. *)
Definition two_sources_request : CreateNoteRequest.t :=
  CreateNoteRequest.mk 7 1 [] []
    [lit "https://example.org/a?b=1"; [233; 128512; 10; 34; 92]] (lit "promise_kept").

(** A note whose stored sources are a bare address instead of a JSON text. *)
Definition corrupt_note : Note.t :=
  a_note 1 7 1 (NoteStatus_value NEEDS_MORE_RATINGS) (lit "promise_kept") None
         (Some (lit "https://example.org/a")) None.

(** A note whose sources were never set. *)
Definition unset_note : Note.t :=
  a_note 2 7 1 (NoteStatus_value NEEDS_MORE_RATINGS) (lit "promise_kept") None None None.


(** Three notes of promise 7 that need more ratings, fetched with the
    intercepts -2.0, NaN and -1.0. *)
Definition nan_between_example : Db :=
  mkDb PostgreSQL
       [a_note 1 7 1 (NoteStatus_value NEEDS_MORE_RATINGS) (lit "promise_kept")
               (Some (Fin (-2))) None None;
        a_note 2 7 2 (NoteStatus_value NEEDS_MORE_RATINGS) (lit "promise_kept")
               (Some Nan) None None;
        a_note 3 7 3 (NoteStatus_value NEEDS_MORE_RATINGS) (lit "promise_kept")
               (Some (Fin (-1))) None None]
       4 0.

(** A store with 101 notes of promise 7, all by author 1. *)
Definition crowded_store : Db :=
  mkDb SQLite
       (map (fun i => a_note (Z.of_nat i) 7 1 (NoteStatus_value NEEDS_MORE_RATINGS)
                             (lit "promise_kept") None None None)
            (seq 1 101))
       102 0.

(** The same 101 notes in a store of the other dialect. *)
Definition crowded_store_postgresql : Db :=
  mkDb PostgreSQL (rows crowded_store) 102 0.

(** ** Vocabulary of the further properties *)

(** The rows that [get_notes_by_author] pages through: the notes of the
    author, filtered by status when asked, newest first. *)
Definition author_query (db : Db) (author_id : Z) (status : option NoteStatus)
  : list Note.t :=
  order_by created_desc
    (filter_status status
       (List.filter (fun n => (Note.author_id n =? author_id)%Z) (rows db))).

(** The rows that [get_notes_for_promise] pages through. *)
Definition promise_query (db : Db) (promise_id : Z) (status : option NoteStatus)
  : list Note.t :=
  order_by intercept_desc_nullslast
    (filter_status status
       (List.filter (fun n => (Note.promise_id n =? promise_id)%Z) (rows db))).

(** The order separates the elements of the list: no two different ones
    are tied. *)
Definition untied {A} (lt : A -> A -> bool) (l : list A) : Prop :=
  forall a b, In a l -> In b l -> lt a b = false -> lt b a = false -> a = b.

(** A note passes the optional status filter. *)
Definition passes_status (status : option NoteStatus) (st : pystr) : Prop :=
  forall wanted, status = Some wanted -> st = NoteStatus_value wanted.

(** Newest first, on responses. *)
Definition newest_first (a b : NoteResponse.t) : Prop :=
  (NoteResponse.created_at b <= NoteResponse.created_at a)%Z.

(** Greater intercept first, missing intercepts last, newest first among
    equal or missing intercepts, on responses. *)
Definition intercept_first (a b : NoteResponse.t) : Prop :=
  match NoteResponse.note_intercept a, NoteResponse.note_intercept b with
  | Some x, Some y =>
      sql_float_lt y x = true \/ (sql_float_eq y x = true /\ newest_first a b)
  | Some _, None => True
  | None, Some _ => False
  | None, None => newest_first a b
  end.

(** The keys of the stored notes are distinct and below the next key: what
    a primary key that the store assigns in sequence guarantees. *)
Definition keys_ok (db : Db) : Prop :=
  List.NoDup (map Note.id (rows db)) /\
  List.Forall (fun n => (Note.id n < next_id db)%Z) (rows db).

(** The 404 of [get_note] and [delete_note]. *)
Definition not_found : error := HTTPException 404 (lit "Note not found").

(** The sum of the counts of a dictionary of counts. *)
Definition dict_total (d : gmap pystr Z) : Z :=
  map_fold (fun _ k acc => (k + acc)%Z) 0%Z d.

(** A response in the first tier of the ranking. *)
Definition rated_helpful (r : NoteResponse.t) : Prop :=
  NoteResponse.status r = NoteStatus_value CURRENTLY_RATED_HELPFUL.

(** An intercept that is set and that Python does not take for false. *)
Definition scored_intercept (r : NoteResponse.t) (x : float) : Prop :=
  NoteResponse.note_intercept r = Some x /\ float_truthy x = true.

(** What a string becomes when it is written by [json.dumps] and read by
    [json.loads]: every high surrogate that is immediately followed by a
    low surrogate is joined with it into the code point that the pair
    encodes. *)
Fixpoint join_pairs (s : pystr) : pystr :=
  match s with
  | [] => []
  | c :: r =>
      match r with
      | c' :: r' =>
          if json.is_high_surrogate c && json.is_low_surrogate c'
          then json.join_surrogates c c' :: join_pairs r'
          else c :: join_pairs r
      | [] => [c]
      end
  end.

(** A character that every store and every transport carries unchanged:
    from the space to the tilde. *)
Definition printable_ascii (c : N) : Prop := 32 <= c /\ c <= 126.

(** ** Examples for the further properties *)

(** The value of a result that is known to be there. *)
Definition value_or {A} (default : A) (r : result A) : A :=
  match r with
  | Ok a => a
  | Err _ => default
  end.

Definition no_view : ScoredNotesResponse.t :=
  ScoredNotesResponse.mk 0 [] 0 0 0 None [].

(** The scored view of promise 7 in [aggregation_example]. *)
Definition aggregation_view : ScoredNotesResponse.t :=
  Eval vm_compute in
    value_or no_view (get_scored_notes_for_promise aggregation_example 7).

(** The notes of author 1, and the first two notes of promise 7 that need
    more ratings, in [aggregation_example]. *)
Definition aggregation_by_author : list NoteResponse.t :=
  Eval vm_compute in
    value_or [] (get_notes_by_author aggregation_example 1 None None 0).

Definition aggregation_needing_ratings : list NoteResponse.t :=
  Eval vm_compute in
    value_or []
      (get_notes_for_promise aggregation_example 7 (Some NEEDS_MORE_RATINGS) (Some 2%Z) 0).

(** Three notes of promise 7 in one tier, scored 0.3, 0.5 and not at all. *)
Definition scored_example : Db :=
  mkDb SQLite
       [a_note 1 7 1 (NoteStatus_value NEEDS_MORE_RATINGS) (lit "promise_kept")
               (Some (Fin (3 # 10))) None (Some 5%Z);
        a_note 2 7 2 (NoteStatus_value NEEDS_MORE_RATINGS) (lit "promise_kept")
               (Some (Fin (1 # 2))) None (Some 9%Z);
        a_note 3 7 3 (NoteStatus_value NEEDS_MORE_RATINGS) (lit "promise_broken")
               None None None]
       4 0.

Definition scored_view : ScoredNotesResponse.t :=
  Eval vm_compute in
    value_or no_view (get_scored_notes_for_promise scored_example 7).

(** The response and the store after [two_sources_request] is created in
    [aggregation_example], and the scored view of promise 7 then. *)
Definition no_response : NoteResponse.t :=
  NoteResponse.mk 0 0 0 [] [] [] [] [] None None None 0 0 0 0 0 None.

Definition created_response : NoteResponse.t :=
  Eval vm_compute in
    value_or no_response (fst (create_note two_sources_request aggregation_example)).

Definition created_view : ScoredNotesResponse.t :=
  Eval vm_compute in
    value_or no_view
      (get_scored_notes_for_promise
         (snd (create_note two_sources_request aggregation_example)) 7).

(** [deletion_example] after author 2 deleted note 2. *)
Definition after_deletion : Db :=
  Eval vm_compute in value_or deletion_example (delete_note deletion_example 2 2).

(** A store with an unreadable note. *)
Definition corrupt_store : Db := mkDb PostgreSQL [corrupt_note] 2 0.

(** A note that needs more ratings, with its intercept and the time of its
    creation. *)
Definition dated_note (id promise_id author_id : Z) (note_intercept : option float)
    (created_at : Z) : Note.t :=
  Note.mk id promise_id author_id [] [] None (lit "promise_kept")
          (NoteStatus_value NEEDS_MORE_RATINGS)
          None note_intercept None 0%Z 0%Z 0%Z created_at created_at None.

(** Four notes of promise 7 by author 7, created at four different times
    that are not in the order of the keys, two of them with the same
    intercept, and a note of another promise and author; and the same rows
    as the engine scans them for two later requests. *)
Definition dated_example : Db :=
  mkDb SQLite
       [dated_note 1 7 7 (Some (Fin (1 # 2))) 30;
        dated_note 2 7 7 None 10;
        dated_note 3 7 7 (Some (Fin (1 # 2))) 40;
        dated_note 4 7 7 (Some (Fin (9 # 10))) 20;
        dated_note 5 8 2 None 50]
       6 60.

Definition dated_example_rescanned : Db :=
  mkDb SQLite
       [dated_note 4 7 7 (Some (Fin (9 # 10))) 20;
        dated_note 5 8 2 None 50;
        dated_note 1 7 7 (Some (Fin (1 # 2))) 30;
        dated_note 3 7 7 (Some (Fin (1 # 2))) 40;
        dated_note 2 7 7 None 10]
       6 61.

Definition dated_example_rescanned_again : Db :=
  mkDb SQLite
       [dated_note 2 7 7 None 10;
        dated_note 3 7 7 (Some (Fin (1 # 2))) 40;
        dated_note 5 8 2 None 50;
        dated_note 4 7 7 (Some (Fin (9 # 10))) 20;
        dated_note 1 7 7 (Some (Fin (1 # 2))) 30]
       6 62.

(** Two notes of author 7 and promise 7 created at the same time, and the
    same rows as the engine takes them up for a later request. *)
Definition tied_example : Db :=
  mkDb SQLite [dated_note 1 7 7 None 10; dated_note 2 7 7 None 10] 3 20.

Definition tied_example_rescanned : Db :=
  mkDb SQLite [dated_note 2 7 7 None 10; dated_note 1 7 7 None 10] 3 21.



(** The notes of author 7 in [dated_example]. *)
Definition dated_by_author : list NoteResponse.t :=
  Eval vm_compute in
    value_or [] (get_notes_by_author dated_example 7 None None 0).

(** ** Proof tools *)

Ltac discharge_nonzero := discriminate.

Ltac forget_divisions n :=
  generalize dependent (n / 16 / 16 / 16);
  generalize dependent ((n / 16 / 16) mod 16);
  generalize dependent (n / 16 / 16);
  generalize dependent ((n / 16) mod 16);
  generalize dependent (n / 16);
  generalize dependent (n mod 16);
  intros.


(** * Properties *)

(** ** The encoder and the decoder of [json] *)

Section JsonFacts.
Import json.

Lemma hexval_hexdigit d : d < 16 -> hexval (hexdigit d) = Some d.
Proof.
  intros Hd. unfold hexdigit, hexval.
  destruct (N.ltb_spec d 10) as [Hlt | Hge].
  - replace ((48 <=? 48 + d) && (48 + d <=? 57)) with true.
    + f_equal. lia.
    + symmetry. apply andb_true_iff. split; apply N.leb_le; lia.
  - replace ((48 <=? 87 + d) && (87 + d <=? 57)) with false.
    + replace ((97 <=? 87 + d) && (87 + d <=? 102)) with true.
      * f_equal. lia.
      * symmetry. apply andb_true_iff. split; apply N.leb_le; lia.
    + symmetry. apply andb_false_iff. right. apply N.leb_gt. lia.
Qed.

Lemma hex_digits_sum n :
  n < 65536 ->
  (((n / 4096) mod 16 * 16 + (n / 256) mod 16) * 16 + (n / 16) mod 16) * 16
  + n mod 16 = n.
Proof.
  intros Hn.
  replace (n / 4096) with (n / 16 / 16 / 16) by (now rewrite !N.Div0.div_div).
  replace (n / 256) with (n / 16 / 16) by (now rewrite !N.Div0.div_div).
  pose proof (N.div_mod n 16 ltac:(discharge_nonzero)) as E0.
  pose proof (N.mod_lt n 16 ltac:(discharge_nonzero)) as B0.
  pose proof (N.div_mod (n / 16) 16 ltac:(discharge_nonzero)) as E1.
  pose proof (N.mod_lt (n / 16) 16 ltac:(discharge_nonzero)) as B1.
  pose proof (N.div_mod (n / 16 / 16) 16 ltac:(discharge_nonzero)) as E2.
  pose proof (N.mod_lt (n / 16 / 16) 16 ltac:(discharge_nonzero)) as B2.
  rewrite (N.mod_small (n / 16 / 16 / 16) 16); forget_divisions n; lia.
Qed.

Lemma decode_format_04x n h1 h2 h3 h4 :
  n < 65536 -> format_04x n = [h1; h2; h3; h4] -> decode_uXXXX h1 h2 h3 h4 = Some n.
Proof.
  intros Hn Heq. unfold format_04x in Heq.
  injection Heq as <- <- <- <-.
  unfold decode_uXXXX.
  rewrite !hexval_hexdigit by (apply N.mod_lt; discharge_nonzero).
  f_equal. now apply hex_digits_sum.
Qed.

(** The two halves of a surrogate pair occupy disjoint bits. *)
Lemma lor_disjoint a y : y < 1024 -> N.lor (a * 1024) y = a * 1024 + y.
Proof.
  intros Hy.
  assert (Hland : N.land (a * 1024) y = 0).
  { apply N.bits_inj. intros m. rewrite N.land_spec, N.bits_0.
    destruct (N.lt_ge_cases m 10) as [Hm | Hm].
    - change 1024 with (2 ^ 10). rewrite N.mul_pow2_bits_low by exact Hm. reflexivity.
    - destruct (N.eq_0_gt_0_cases y) as [-> | Hpos].
      + rewrite N.bits_0. apply andb_false_r.
      + rewrite (N.bits_above_log2 y m), andb_false_r; [reflexivity |].
        apply N.lt_le_trans with 10; [| exact Hm].
        apply N.log2_lt_pow2; [exact Hpos | exact Hy]. }
  rewrite <- N.lxor_lor by exact Hland.
  symmetry. now apply N.add_nocarry_lxor.
Qed.

Lemma surrogate_halves c :
  65536 <= c -> c < 1114112 ->
  let n := c - 65536 in
  N.lor 55296 (N.land (N.shiftr n 10) 1023) = 55296 + n / 1024 /\
  N.lor 56320 (N.land n 1023) = 56320 + n mod 1024 /\
  n / 1024 < 1024.
Proof.
  intros Hlo Hhi n.
  assert (Hn : n < 1048576) by (unfold n; lia).
  assert (Hq : n / 1024 < 1024) by (apply N.Div0.div_lt_upper_bound; lia).
  change 1023 with (N.ones 10). rewrite !N.land_ones, N.shiftr_div_pow2.
  change (2 ^ 10) with 1024.
  rewrite (N.mod_small (n / 1024)) by exact Hq.
  pose proof (N.mod_lt n 1024 ltac:(discharge_nonzero)) as Hr.
  change 55296 with (54 * 1024). change 56320 with (55 * 1024).
  rewrite !lor_disjoint by assumption. auto.
Qed.

Lemma join_surrogates_halves c :
  65536 <= c -> c < 1114112 ->
  let n := c - 65536 in
  join_surrogates (55296 + n / 1024) (56320 + n mod 1024) = c.
Proof.
  intros Hlo Hhi n. unfold join_surrogates.
  rewrite (N.add_comm 55296), (N.add_comm 56320), !N.add_sub.
  rewrite N.shiftl_mul_pow2. change (2 ^ 10) with 1024.
  pose proof (N.mod_lt n 1024 ltac:(discharge_nonzero)) as Hr.
  rewrite lor_disjoint by exact Hr.
  pose proof (N.div_mod n 1024 ltac:(discharge_nonzero)) as E.
  assert (Hn : c = 65536 + n) by (unfold n; lia).
  clearbody n.
  generalize dependent (n / 1024). generalize dependent (n mod 1024).
  intros. lia.
Qed.

Lemma scanstring_unicode_escape h1 h2 h3 h4 uni r2 :
  decode_uXXXX h1 h2 h3 h4 = Some uni ->
  is_high_surrogate uni = false \/ pairs_with_next r2 = false ->
  scanstring (92 :: 117 :: h1 :: h2 :: h3 :: h4 :: r2) = cons_char uni (scanstring r2).
Proof.
  intros Hdec Hlone.
  cbn [scanstring]. change (92 =? 34) with false. change (92 =? 92) with true.
  change (117 =? 117) with true. cbv iota. rewrite Hdec.
  destruct (is_high_surrogate uni) eqn:Hhigh; [| reflexivity].
  destruct Hlone as [Hlone | Hlone]; [discriminate |].
  destruct r2 as [| b [| u r3]]; try reflexivity.
  cbn [pairs_with_next] in Hlone.
  destruct ((b =? 92) && (u =? 117)) eqn:Hbu; [| reflexivity].
  cbn [andb] in Hlone.
  destruct r3 as [| k1 [| k2 [| k3 [| k4 r4]]]]; try discriminate.
  destruct (decode_uXXXX k1 k2 k3 k4) as [uni2 |]; [| discriminate].
  rewrite Hlone. reflexivity.
Qed.

Lemma scanstring_surrogate_pair h1 h2 h3 h4 k1 k2 k3 k4 uni uni2 r4 :
  decode_uXXXX h1 h2 h3 h4 = Some uni -> is_high_surrogate uni = true ->
  decode_uXXXX k1 k2 k3 k4 = Some uni2 -> is_low_surrogate uni2 = true ->
  scanstring (92 :: 117 :: h1 :: h2 :: h3 :: h4 :: 92 :: 117 :: k1 :: k2 :: k3 :: k4 :: r4)
  = cons_char (join_surrogates uni uni2) (scanstring r4).
Proof.
  intros Hdec Hhigh Hdec2 Hlow.
  cbn [scanstring]. change (92 =? 34) with false. change (92 =? 92) with true.
  change (117 =? 117) with true. cbv iota. rewrite Hdec, Hhigh.
  cbn [andb]. rewrite Hdec2, Hlow. reflexivity.
Qed.

Lemma scanstring_format n r2 :
  n < 65536 ->
  is_high_surrogate n = false \/ pairs_with_next r2 = false ->
  scanstring (lit "\u" ++ format_04x n ++ r2) = cons_char n (scanstring r2).
Proof.
  intros Hn Hlone.
  apply scanstring_unicode_escape; [| exact Hlone].
  now apply decode_format_04x.
Qed.

Lemma high_surrogate_bounds u :
  is_high_surrogate u = true <-> 55296 <= u /\ u <= 56319.
Proof.
  unfold is_high_surrogate. rewrite andb_true_iff, !N.leb_le. reflexivity.
Qed.

Lemma low_surrogate_bounds u :
  is_low_surrogate u = true <-> 56320 <= u /\ u <= 57343.
Proof.
  unfold is_low_surrogate. rewrite andb_true_iff, !N.leb_le. reflexivity.
Qed.

Lemma not_high_surrogate u : u < 55296 \/ 56319 < u -> is_high_surrogate u = false.
Proof.
  intros H. destruct (is_high_surrogate u) eqn:E; [| reflexivity].
  apply high_surrogate_bounds in E. lia.
Qed.

Lemma not_low_surrogate u : u < 56320 \/ 57343 < u -> is_low_surrogate u = false.
Proof.
  intros H. destruct (is_low_surrogate u) eqn:E; [| reflexivity].
  apply low_surrogate_bounds in E. lia.
Qed.

(** One character of the encoder's output is read back as that character,
    unless it is a high surrogate that pairs with what follows. *)
Lemma scanstring_escaped_char c k :
  c < 1114112 ->
  is_high_surrogate c = false \/ pairs_with_next k = false ->
  scanstring ((if needs_escape c then replace c else [c]) ++ k)
  = cons_char c (scanstring k).
Proof.
  intros Hc Hlone. unfold needs_escape, replace.
  destruct (N.eqb_spec c 92) as [-> | N92]; [reflexivity |].
  destruct (N.eqb_spec c 34) as [-> | N34]; [reflexivity |].
  destruct (N.eqb_spec c 8) as [-> | N8]; [reflexivity |].
  destruct (N.eqb_spec c 12) as [-> | N12]; [reflexivity |].
  destruct (N.eqb_spec c 10) as [-> | N10]; [reflexivity |].
  destruct (N.eqb_spec c 13) as [-> | N13]; [reflexivity |].
  destruct (N.eqb_spec c 9) as [-> | N9]; [reflexivity |].
  cbn [orb].
  destruct (N.ltb_spec c 32) as [L32 | G32]; cbn [orb].
  { replace (c <? 65536) with true by (symmetry; apply N.ltb_lt; lia).
    apply scanstring_format; [lia |]. left. apply not_high_surrogate. lia. }
  destruct (N.ltb_spec 126 c) as [G126 | L126].
  - destruct (N.ltb_spec c 65536) as [L16 | G16].
    + now apply scanstring_format.
    + destruct (surrogate_halves c G16 Hc) as (-> & -> & Hq).
      pose proof (join_surrogates_halves c G16 Hc) as Hjoin. cbv zeta in Hjoin.
      pose proof (N.mod_lt (c - 65536) 1024 ltac:(discharge_nonzero)) as Hr.
      generalize dependent ((c - 65536) / 1024).
      generalize dependent ((c - 65536) mod 1024).
      intros m Hm q Hq Hjoin.
      destruct (format_04x (55296 + q)) as [| h1 [| h2 [| h3 [| h4 [| ? ?]]]]] eqn:F1;
        try discriminate.
      destruct (format_04x (56320 + m)) as [| k1 [| k2 [| k3 [| k4 [| ? ?]]]]] eqn:F2;
        try discriminate.
      change (scanstring (92 :: 117 :: h1 :: h2 :: h3 :: h4 :: 92 :: 117
                            :: k1 :: k2 :: k3 :: k4 :: k)
              = cons_char c (scanstring k)).
      rewrite (scanstring_surrogate_pair h1 h2 h3 h4 k1 k2 k3 k4
                 (55296 + q) (56320 + m)).
      * rewrite Hjoin. reflexivity.
      * apply decode_format_04x; [lia | exact F1].
      * apply high_surrogate_bounds. lia.
      * apply decode_format_04x; [lia | exact F2].
      * apply low_surrogate_bounds. lia.
  - cbn [app]. cbn [scanstring].
    replace (c =? 34) with false by (symmetry; now apply N.eqb_neq).
    replace (c =? 92) with false by (symmetry; now apply N.eqb_neq).
    replace (c <? 32) with false by (symmetry; apply N.ltb_ge; lia).
    reflexivity.
Qed.

(** What the encoder emits for a character that is not a low surrogate never
    pairs with a high surrogate before it; neither does the closing quote. *)
Lemma pairs_with_next_escaped_char c k :
  c < 1114112 -> is_low_surrogate c = false ->
  pairs_with_next ((if needs_escape c then replace c else [c]) ++ k) = false.
Proof.
  intros Hc Hlow. unfold needs_escape, replace.
  destruct (N.eqb_spec c 92) as [-> | N92]; [reflexivity |].
  destruct (N.eqb_spec c 34) as [-> | N34]; [reflexivity |].
  destruct (N.eqb_spec c 8) as [-> | N8]; [reflexivity |].
  destruct (N.eqb_spec c 12) as [-> | N12]; [reflexivity |].
  destruct (N.eqb_spec c 10) as [-> | N10]; [reflexivity |].
  destruct (N.eqb_spec c 13) as [-> | N13]; [reflexivity |].
  destruct (N.eqb_spec c 9) as [-> | N9]; [reflexivity |].
  cbn [orb].
  assert (Hfmt : forall n, n < 65536 -> is_low_surrogate n = false ->
                 pairs_with_next (lit "\u" ++ format_04x n ++ k) = false).
  { intros n Hn Hnl.
    destruct (format_04x n) as [| h1 [| h2 [| h3 [| h4 [| ? ?]]]]] eqn:F; try discriminate.
    change (pairs_with_next (92 :: 117 :: h1 :: h2 :: h3 :: h4 :: k) = false).
    cbn [pairs_with_next]. rewrite (decode_format_04x n) by assumption.
    rewrite Hnl. reflexivity. }
  destruct (N.ltb_spec c 32) as [L32 | G32]; cbn [orb].
  { replace (c <? 65536) with true by (symmetry; apply N.ltb_lt; lia).
    apply Hfmt; [lia | exact Hlow]. }
  destruct (N.ltb_spec 126 c) as [G126 | L126].
  - destruct (N.ltb_spec c 65536) as [L16 | G16].
    + now apply Hfmt.
    + destruct (surrogate_halves c G16 Hc) as (-> & -> & Hq).
      generalize dependent ((c - 65536) / 1024). intros q Hq.
      rewrite <- !app_assoc. apply Hfmt; [lia |].
      apply not_low_surrogate. lia.
  - cbn [app pairs_with_next]. destruct k as [| u r3]; [reflexivity |].
    replace (c =? 92) with false by (symmetry; now apply N.eqb_neq).
    reflexivity.
Qed.

Lemma pairs_with_next_quote rest : pairs_with_next (34 :: rest) = false.
Proof. destruct rest; reflexivity. Qed.

Lemma is_str_cons c r : is_str (c :: r) = true <-> c < 1114112 /\ is_str r = true.
Proof.
  unfold is_str. cbn [forallb]. rewrite andb_true_iff, N.ltb_lt. reflexivity.
Qed.

(** [scanstring] undoes [escape_ascii_sub] up to the closing quote. *)
Lemma scanstring_escape_ascii s rest :
  is_str s = true -> has_surrogate_pair s = false ->
  scanstring (escape_ascii_sub s ++ 34 :: rest) = Scanned s rest.
Proof.
  induction s as [| c r IH]; intros Hstr Hpair.
  - reflexivity.
  - apply is_str_cons in Hstr as [Hc Hr].
    cbn [has_surrogate_pair] in Hpair. apply orb_false_iff in Hpair as [Hhead Htail].
    cbn [escape_ascii_sub]. rewrite <- app_assoc.
    rewrite scanstring_escaped_char; [now rewrite IH | exact Hc |].
    destruct (is_high_surrogate c) eqn:Hhigh; [right | now left].
    destruct r as [| c' r'].
    + apply pairs_with_next_quote.
    + cbn [andb] in Hhead. apply is_str_cons in Hr as [Hc' _].
      cbn [escape_ascii_sub]. rewrite <- app_assoc.
      now apply pairs_with_next_escaped_char.
Qed.

Lemma array_items_step fuel s :
  array_items (S fuel) s =
  match scan_once fuel s with
  | Scanned v r =>
      match skip_ws r with
      | c :: r1 =>
          if c =? 93 then Scanned [v] r1
          else if c =? 44 then
            match array_items fuel (skip_ws r1) with
            | Scanned vs rest => Scanned (v :: vs) rest
            | Invalid => Invalid
            | Exhausted => Exhausted
            end
          else Invalid
      | [] => Invalid
      end
  | Invalid => Invalid
  | Exhausted => Exhausted
  end.
Proof. reflexivity. Qed.

Lemma scan_once_string fuel r :
  scan_once (S fuel) (34 :: r) =
  match scanstring r with
  | Scanned str rest => Scanned (Str str) rest
  | Invalid => Invalid
  | Exhausted => Exhausted
  end.
Proof. reflexivity. Qed.

Lemma scan_once_encoded fuel s rest :
  is_str s = true -> has_surrogate_pair s = false ->
  scan_once (S fuel) (encode_basestring_ascii s ++ rest) = Scanned (Str s) rest.
Proof.
  intros Hstr Hpair. unfold encode_basestring_ascii.
  cbn [app]. rewrite scan_once_string.
  rewrite <- app_assoc. cbn [app].
  now rewrite scanstring_escape_ascii.
Qed.

(** The loop of [JSONArray] reads back the items that [dumps] joined. *)
Lemma array_items_join l : forall x fuel rest,
  Forall (fun s => is_str s = true /\ has_surrogate_pair s = false) (x :: l) ->
  (length (x :: l) < fuel)%nat ->
  array_items fuel (join_items (map encode_basestring_ascii (x :: l)) ++ 93 :: rest)
  = Scanned (map Str (x :: l)) rest.
Proof.
  induction l as [| y l IH]; intros x fuel rest Hall Hfuel;
    inversion Hall as [| ? ? [Hstr Hpair] Hall']; subst;
    destruct fuel as [| [| fuel]]; cbn [length] in Hfuel; try lia.
  - cbn [map join_items]. rewrite array_items_step.
    rewrite scan_once_encoded by assumption. reflexivity.
  - change (join_items (map encode_basestring_ascii (x :: y :: l)))
      with (encode_basestring_ascii x ++ lit ", "
            ++ join_items (map encode_basestring_ascii (y :: l))).
    rewrite array_items_step. rewrite <- !app_assoc.
    rewrite scan_once_encoded by assumption.
    change (lit ", " ++ ?k) with (44 :: 32 :: k).
    cbn [skip_ws]. change (is_ws 44) with false. cbv iota.
    change (44 =? 93) with false. change (44 =? 44) with true. cbv iota.
    cbn [skip_ws]. change (is_ws 32) with true. cbv iota.
    assert (Hskip : forall k, skip_ws (join_items (map encode_basestring_ascii (y :: l)) ++ k)
                         = join_items (map encode_basestring_ascii (y :: l)) ++ k).
    { intros k. cbn [map join_items]. destruct (map encode_basestring_ascii l); reflexivity. }
    rewrite Hskip, IH; [reflexivity | assumption | cbn [length]; lia].
Qed.

Lemma join_items_length l :
  (2 * length l <= length (join_items (map encode_basestring_ascii l)))%nat.
Proof.
  induction l as [| x [| y l] IH].
  - cbn. lia.
  - cbn [map join_items]. unfold encode_basestring_ascii.
    rewrite !length_app. cbn [length]. lia.
  - change (join_items (map encode_basestring_ascii (x :: y :: l)))
      with (encode_basestring_ascii x ++ lit ", "
            ++ join_items (map encode_basestring_ascii (y :: l))).
    rewrite !length_app. unfold encode_basestring_ascii at 1.
    rewrite !length_app. cbn [length] in *. lia.
Qed.

Lemma as_str_list_strs l : as_str_list (map Str l) = Ok l.
Proof.
  induction l as [| s l IH]; [reflexivity |].
  cbn [map as_str_list]. rewrite IH. reflexivity.
Qed.

(** [json.loads(json.dumps(l))] gives the list back, as a JSON array. *)
Lemma loads_dumps l :
  Forall (fun s => is_str s = true /\ has_surrogate_pair s = false) l ->
  loads (dumps l) = Ok (Arr (map Str l)).
Proof.
  intros Hall. destruct l as [| x l]; [reflexivity |].
  unfold dumps.
  set (body := join_items (map encode_basestring_ascii (x :: l))).
  assert (Hbody : exists b, body = 34 :: b).
  { unfold body. cbn [map join_items]. destruct (map encode_basestring_ascii l); eexists; reflexivity. }
  destruct Hbody as [b Hb].
  assert (Hitems : array_items (2 * length ([91] ++ body ++ [93])) (body ++ [93])
                   = Scanned (map Str (x :: l)) []).
  { apply array_items_join; [exact Hall |].
    pose proof (join_items_length (x :: l)) as Hlen. fold body in Hlen.
    rewrite !length_app. cbn [length] in *. lia. }
  unfold loads. change ([91] ++ body ++ [93]) with (91 :: (body ++ [93])) in *.
  change (strip_prefix [65279] (91 :: body ++ [93])) with (@None pystr).
  cbv iota. cbn [skip_ws]. change (is_ws 91) with false. cbv iota.
  cbn [scan_once]. change (91 =? 34) with false. change (91 =? 123) with false.
  change (91 =? 91) with true. cbv iota.
  rewrite Hb in *. cbn [app skip_ws]. change (is_ws 34) with false. cbv iota.
  change (34 =? 93) with false. cbv iota.
  cbn [app] in Hitems. rewrite Hitems. reflexivity.
Qed.

(** *** The recursion budget of [loads] is never exhausted *)

Lemma skip_ws_length s : (length (skip_ws s) <= length s)%nat.
Proof.
  induction s as [| c r IH]; cbn [skip_ws]; [lia |].
  destruct (is_ws c); cbn [length]; lia.
Qed.

Lemma cons_char_scanned c x a r :
  cons_char c x = Scanned a r -> exists a', x = Scanned a' r.
Proof. destruct x; cbn; intros H; inversion H; eauto. Qed.

Lemma scanstring_not_exhausted s : scanstring s <> Exhausted.
Proof.
  assert (Hcons : forall c x, x <> Exhausted -> cons_char c x <> Exhausted).
  { intros c [] H; cbn; congruence. }
  assert (Hgen : forall n s, (length s <= n)%nat -> scanstring s <> Exhausted).
  { clear s. induction n as [| n IH]; intros [| c r] Hlen; cbn [length] in Hlen;
      try lia; cbn [scanstring]; try discriminate.
    destruct (c =? 34); [discriminate |].
    destruct (c =? 92).
    - destruct r as [| esc r1]; [discriminate |].
      destruct (esc =? 117).
      + destruct r1 as [| h1 [| h2 [| h3 [| h4 r2]]]]; try discriminate.
        destruct (decode_uXXXX h1 h2 h3 h4); [| discriminate].
        cbn [length] in Hlen.
        destruct (is_high_surrogate n0); [| apply Hcons, IH; lia].
        destruct r2 as [| b [| u r3]]; try (apply Hcons, IH; cbn [length] in *; lia).
        destruct ((b =? 92) && (u =? 117)); [| apply Hcons, IH; cbn [length] in *; lia].
        destruct r3 as [| k1 [| k2 [| k3 [| k4 r4]]]]; try discriminate.
        destruct (decode_uXXXX k1 k2 k3 k4); [| discriminate].
        cbn [length] in Hlen.
        destruct (is_low_surrogate n1); apply Hcons, IH; cbn [length] in *; lia.
      + destruct (backslash esc); [| discriminate].
        apply Hcons, IH. cbn [length] in Hlen. lia.
    - destruct (c <? 32); [discriminate |]. apply Hcons, IH. lia. }
  now apply (Hgen (length s)).
Qed.

Lemma scanstring_length s a r : scanstring s = Scanned a r -> (length r < length s)%nat.
Proof.
  assert (Hgen : forall n s a r, (length s <= n)%nat ->
                 scanstring s = Scanned a r -> (length r < length s)%nat).
  { clear. induction n as [| n IH]; intros [| c r0] a r Hlen; cbn [length] in Hlen;
      try lia; cbn [scanstring]; try discriminate.
    assert (Hstep : forall ch x, (length x <= n)%nat -> (length x <= length r0)%nat ->
                    cons_char ch (scanstring x) = Scanned a r ->
                    (length r < length (c :: r0))%nat).
    { intros ch x Hx Hxr H. apply cons_char_scanned in H as [a' H].
      apply IH in H; [cbn [length] in *; lia | exact Hx]. }
    destruct (c =? 34); [intros H; inversion H; subst; cbn [length] in *; lia |].
    destruct (c =? 92).
    - destruct r0 as [| esc r1]; [discriminate |].
      destruct (esc =? 117).
      + destruct r1 as [| h1 [| h2 [| h3 [| h4 r2]]]]; try discriminate.
        destruct (decode_uXXXX h1 h2 h3 h4); [| discriminate].
        cbn [length] in Hlen.
        destruct (is_high_surrogate n0); [| apply Hstep; cbn [length] in *; lia].
        destruct r2 as [| b [| u r3]]; try (apply Hstep; cbn [length] in *; lia).
        destruct ((b =? 92) && (u =? 117)); [| apply Hstep; cbn [length] in *; lia].
        destruct r3 as [| k1 [| k2 [| k3 [| k4 r4]]]]; try discriminate.
        destruct (decode_uXXXX k1 k2 k3 k4); [| discriminate].
        cbn [length] in Hlen.
        destruct (is_low_surrogate n1); apply Hstep; cbn [length] in *; lia.
      + destruct (backslash esc); [| discriminate].
        apply Hstep; cbn [length] in *; lia.
    - destruct (c <? 32); [discriminate |]. apply Hstep; lia. }
  intros H. now apply (Hgen (length s)) in H.
Qed.

Lemma strip_prefix_length p : forall s r,
  strip_prefix p s = Some r -> length s = (length p + length r)%nat.
Proof.
  induction p as [| a p IH]; intros [| b s] r H; cbn [strip_prefix] in H;
    try (inversion H; subst; reflexivity); try discriminate.
  destruct (a =? b); [| discriminate].
  apply IH in H. cbn [length]. lia.
Qed.

Lemma span_digits_length s : forall ds r,
  span_digits s = (ds, r) -> (length r <= length s)%nat.
Proof.
  induction s as [| c s IH]; intros ds r H; cbn [span_digits] in H.
  - inversion H. cbn. lia.
  - destruct (is_digit c).
    + destruct (span_digits s) as [ds' r'] eqn:E. inversion H; subst.
      specialize (IH _ _ eq_refl). cbn [length]. lia.
    + inversion H; subst. lia.
Qed.

Lemma match_integer_length s i r :
  match_integer s = Some (i, r) -> (length r < length s)%nat.
Proof.
  unfold match_integer.
  assert (Hbody : forall sign s1, (length s1 <= length s)%nat ->
    match s1 with
    | d :: r0 =>
        if d =? 48 then Some (sign ++ [d], r0)
        else if is_digit d
             then let (ds, rest) := span_digits r0 in Some (sign ++ d :: ds, rest)
             else None
    | [] => None
    end = Some (i, r) -> (length r < length s)%nat).
  { intros sign [| d r0] Hlen H; [discriminate |]. cbn [length] in Hlen.
    destruct (d =? 48); [inversion H; subst; lia |].
    destruct (is_digit d); [| discriminate].
    destruct (span_digits r0) as [ds rest] eqn:E. inversion H; subst.
    apply span_digits_length in E. lia. }
  destruct s as [| c r0]; [discriminate |].
  destruct (c =? 45); intros H;
    [refine (Hbody [c] r0 _ H) | refine (Hbody [] (c :: r0) _ H)]; cbn [length]; lia.
Qed.

Lemma match_frac_length s f r : match_frac s = (f, r) -> (length r <= length s)%nat.
Proof.
  unfold match_frac. destruct s as [| c r0]; [intros H; inversion H; subst; lia |].
  destruct (c =? 46); [| intros H; inversion H; subst; lia].
  destruct (span_digits r0) as [[| d ds] rest] eqn:E; intros H; inversion H; subst;
    [lia |]. apply span_digits_length in E. cbn [length]. lia.
Qed.

Lemma match_exp_length s e r : match_exp s = (e, r) -> (length r <= length s)%nat.
Proof.
  unfold match_exp. destruct s as [| c r0]; [intros H; inversion H; subst; lia |].
  destruct ((c =? 101) || (c =? 69)); [| intros H; inversion H; subst; lia].
  assert (Hbody : forall sign r1, (length r1 <= length r0)%nat ->
    match span_digits r1 with
    | ([], _) => ([], c :: r0)
    | (ds, rest) => (c :: sign ++ ds, rest)
    end = (e, r) -> (length r <= length (c :: r0))%nat).
  { intros sign r1 Hlen H.
    destruct (span_digits r1) as [[| d ds] rest] eqn:E; inversion H; subst; [lia |].
    apply span_digits_length in E. cbn [length]. lia. }
  destruct r0 as [| g r']; [intros H; refine (Hbody [] [] _ H); lia |].
  destruct ((g =? 45) || (g =? 43)); intros H;
    [refine (Hbody [g] r' _ H) | refine (Hbody [] (g :: r') _ H)]; cbn [length]; lia.
Qed.

Lemma match_number_length s lexeme r :
  match_number s = Some (lexeme, r) -> (length r < length s)%nat.
Proof.
  unfold match_number.
  destruct (match_integer s) as [[i r0] |] eqn:Ei; [| discriminate].
  destruct (match_frac r0) as [f r1] eqn:Ef.
  destruct (match_exp r1) as [e r2] eqn:Ee.
  intros H; inversion H; subst.
  apply match_integer_length in Ei. apply match_frac_length in Ef.
  apply match_exp_length in Ee. lia.
Qed.

Lemma scan_atom_length s v r : scan_atom s = Scanned v r -> (length r < length s)%nat.
Proof.
  unfold scan_atom, scan_number_or_constant.
  repeat match goal with
  | |- context [strip_prefix ?p s] =>
      let E := fresh "E" in
      destruct (strip_prefix p s) eqn:E;
      [apply strip_prefix_length in E; cbn [lit list_ascii_of_string map length] in E;
       intros H; inversion H; subst; lia |]
  | |- context [match_number s] =>
      let E := fresh "E" in
      destruct (match_number s) as [[? ?] |] eqn:E;
      [apply match_number_length in E; intros H; inversion H; subst; lia |]
  end.
  discriminate.
Qed.

Lemma scan_atom_not_exhausted s : scan_atom s <> Exhausted.
Proof.
  unfold scan_atom, scan_number_or_constant.
  repeat match goal with
  | |- context [strip_prefix ?p s] => destruct (strip_prefix p s); [discriminate |]
  | |- context [match_number s] => destruct (match_number s) as [[? ?] |]; [discriminate |]
  end.
  discriminate.
Qed.

Lemma scan_once_step fuel c r :
  scan_once (S fuel) (c :: r) =
  if c =? 34 then
    match scanstring r with
    | Scanned str rest => Scanned (Str str) rest
    | Invalid => Invalid
    | Exhausted => Exhausted
    end
  else if c =? 123 then
    match skip_ws r with
    | c1 :: r1 =>
        if c1 =? 125 then Scanned (Obj []) r1
        else if c1 =? 34 then
          match object_pairs fuel r1 with
          | Scanned ps rest => Scanned (Obj ps) rest
          | Invalid => Invalid
          | Exhausted => Exhausted
          end
        else Invalid
    | [] => Invalid
    end
  else if c =? 91 then
    match skip_ws r with
    | c1 :: r1 =>
        if c1 =? 93 then Scanned (Arr []) r1
        else
          match array_items fuel (c1 :: r1) with
          | Scanned vs rest => Scanned (Arr vs) rest
          | Invalid => Invalid
          | Exhausted => Exhausted
          end
    | [] => Invalid
    end
  else scan_atom (c :: r).
Proof. reflexivity. Qed.

Lemma object_pairs_step fuel s :
  object_pairs (S fuel) s =
  match scanstring s with
  | Scanned key r =>
      match skip_ws r with
      | c :: r1 =>
          if c =? 58 then
            match scan_once fuel (skip_ws r1) with
            | Scanned v r2 =>
                match skip_ws r2 with
                | d :: r3 =>
                    if d =? 125 then Scanned [(key, v)] r3
                    else if d =? 44 then
                      match skip_ws r3 with
                      | q :: r4 =>
                          if q =? 34 then
                            match object_pairs fuel r4 with
                            | Scanned ps rest => Scanned ((key, v) :: ps) rest
                            | Invalid => Invalid
                            | Exhausted => Exhausted
                            end
                          else Invalid
                      | [] => Invalid
                      end
                    else Invalid
                | [] => Invalid
                end
            | Invalid => Invalid
            | Exhausted => Exhausted
            end
          else Invalid
      | [] => Invalid
      end
  | Invalid => Invalid
  | Exhausted => Exhausted
  end.
Proof. reflexivity. Qed.

(** Every scanning function consumes input. *)
Lemma scan_consumes fuel :
  (forall s v r, scan_once fuel s = Scanned v r -> (length r < length s)%nat) /\
  (forall s vs r, array_items fuel s = Scanned vs r -> (length r < length s)%nat) /\
  (forall s ps r, object_pairs fuel s = Scanned ps r -> (length r < length s)%nat).
Proof.
  induction fuel as [| fuel (IHv & IHa & IHo)];
    [repeat split; intros; discriminate |].
  repeat split.
  - intros [| c r0] v r; [discriminate |]. rewrite scan_once_step.
    destruct (c =? 34).
    { destruct (scanstring r0) eqn:E; try discriminate.
      intros H; inversion H; subst. apply scanstring_length in E. cbn [length]. lia. }
    destruct (c =? 123).
    { pose proof (skip_ws_length r0) as Hws.
      destruct (skip_ws r0) as [| c1 r1]; [discriminate |]. cbn [length] in *.
      destruct (c1 =? 125); [intros H; inversion H; subst; lia |].
      destruct (c1 =? 34); [| discriminate].
      destruct (object_pairs fuel r1) eqn:E; try discriminate.
      intros H; inversion H; subst. apply IHo in E. lia. }
    destruct (c =? 91).
    { pose proof (skip_ws_length r0) as Hws.
      destruct (skip_ws r0) as [| c1 r1]; [discriminate |]. cbn [length] in *.
      destruct (c1 =? 93); [intros H; inversion H; subst; lia |].
      destruct (array_items fuel (c1 :: r1)) eqn:E; try discriminate.
      intros H; inversion H; subst. apply IHa in E. cbn [length] in E. lia. }
    apply scan_atom_length.
  - intros s vs r. rewrite array_items_step.
    destruct (scan_once fuel s) as [v r0 | |] eqn:Ev; try discriminate.
    apply IHv in Ev. pose proof (skip_ws_length r0) as Hws.
    destruct (skip_ws r0) as [| c r1]; [discriminate |]. cbn [length] in *.
    destruct (c =? 93); [intros H; inversion H; subst; lia |].
    destruct (c =? 44); [| discriminate].
    destruct (array_items fuel (skip_ws r1)) eqn:E; try discriminate.
    intros H; inversion H; subst. apply IHa in E.
    pose proof (skip_ws_length r1). lia.
  - intros s ps r. rewrite object_pairs_step.
    destruct (scanstring s) as [key r0 | |] eqn:Ek; try discriminate.
    apply scanstring_length in Ek. pose proof (skip_ws_length r0) as Hws.
    destruct (skip_ws r0) as [| c r1]; [discriminate |]. cbn [length] in *.
    destruct (c =? 58); [| discriminate].
    destruct (scan_once fuel (skip_ws r1)) as [v r2 | |] eqn:Ev; try discriminate.
    apply IHv in Ev. pose proof (skip_ws_length r1) as Hws1.
    pose proof (skip_ws_length r2) as Hws2.
    destruct (skip_ws r2) as [| d r3]; [discriminate |]. cbn [length] in *.
    destruct (d =? 125); [intros H; inversion H; subst; lia |].
    destruct (d =? 44); [| discriminate].
    pose proof (skip_ws_length r3) as Hws3.
    destruct (skip_ws r3) as [| q r4]; [discriminate |]. cbn [length] in *.
    destruct (q =? 34); [| discriminate].
    destruct (object_pairs fuel r4) eqn:E; try discriminate.
    intros H; inversion H; subst. apply IHo in E. lia.
Qed.

(** A budget above twice the length of the input is never exhausted. *)
Lemma scan_budget fuel :
  (forall s, (2 * length s < fuel)%nat -> scan_once fuel s <> Exhausted) /\
  (forall s, (2 * length s + 1 < fuel)%nat -> array_items fuel s <> Exhausted) /\
  (forall s, (2 * length s + 1 < fuel)%nat -> object_pairs fuel s <> Exhausted).
Proof.
  induction fuel as [| fuel (IHv & IHa & IHo)]; [repeat split; intros; lia |].
  repeat split.
  - intros [| c r0] Hfuel; [discriminate |]. rewrite scan_once_step.
    cbn [length] in Hfuel.
    destruct (c =? 34).
    { pose proof (scanstring_not_exhausted r0). destruct (scanstring r0); congruence. }
    destruct (c =? 123).
    { pose proof (skip_ws_length r0) as Hws.
      destruct (skip_ws r0) as [| c1 r1]; [discriminate |]. cbn [length] in *.
      destruct (c1 =? 125); [discriminate |].
      destruct (c1 =? 34); [| discriminate].
      assert (object_pairs fuel r1 <> Exhausted) by (apply IHo; lia).
      destruct (object_pairs fuel r1); congruence. }
    destruct (c =? 91).
    { pose proof (skip_ws_length r0) as Hws.
      destruct (skip_ws r0) as [| c1 r1]; [discriminate |]. cbn [length] in *.
      destruct (c1 =? 93); [discriminate |].
      assert (array_items fuel (c1 :: r1) <> Exhausted) by (apply IHa; cbn [length]; lia).
      destruct (array_items fuel (c1 :: r1)); congruence. }
    apply scan_atom_not_exhausted.
  - intros s Hfuel. rewrite array_items_step.
    assert (Hv : scan_once fuel s <> Exhausted) by (apply IHv; lia).
    destruct (scan_once fuel s) as [v r0 | |] eqn:Ev; try congruence.
    apply scan_consumes in Ev. pose proof (skip_ws_length r0) as Hws.
    destruct (skip_ws r0) as [| c r1]; [discriminate |]. cbn [length] in *.
    destruct (c =? 93); [discriminate |].
    destruct (c =? 44); [| discriminate].
    pose proof (skip_ws_length r1) as Hws1.
    assert (array_items fuel (skip_ws r1) <> Exhausted) by (apply IHa; lia).
    destruct (array_items fuel (skip_ws r1)); congruence.
  - intros s Hfuel. rewrite object_pairs_step.
    pose proof (scanstring_not_exhausted s) as Hk.
    destruct (scanstring s) as [key r0 | |] eqn:Ek; try congruence.
    apply scanstring_length in Ek. pose proof (skip_ws_length r0) as Hws.
    destruct (skip_ws r0) as [| c r1]; [discriminate |]. cbn [length] in *.
    destruct (c =? 58); [| discriminate].
    pose proof (skip_ws_length r1) as Hws1.
    assert (Hv : scan_once fuel (skip_ws r1) <> Exhausted) by (apply IHv; lia).
    destruct (scan_once fuel (skip_ws r1)) as [v r2 | |] eqn:Ev; try congruence.
    apply scan_consumes in Ev. pose proof (skip_ws_length r2) as Hws2.
    destruct (skip_ws r2) as [| d r3]; [discriminate |]. cbn [length] in *.
    destruct (d =? 125); [discriminate |].
    destruct (d =? 44); [| discriminate].
    pose proof (skip_ws_length r3) as Hws3.
    destruct (skip_ws r3) as [| q r4]; [discriminate |]. cbn [length] in *.
    destruct (q =? 34); [| discriminate].
    assert (object_pairs fuel r4 <> Exhausted) by (apply IHo; lia).
    destruct (object_pairs fuel r4); congruence.
Qed.

(** [json.loads] either returns a value or raises [JSONDecodeError]. *)
Lemma loads_total s : (exists v, loads s = Ok v) \/ loads s = Err JSONDecodeError.
Proof.
  unfold loads.
  destruct (strip_prefix [65279] s); [now right |].
  assert (Hb : scan_once (S (2 * length s)) (skip_ws s) <> Exhausted).
  { apply scan_budget. pose proof (skip_ws_length s). lia. }
  destruct (scan_once (S (2 * length s)) (skip_ws s)) as [v r | |]; try congruence;
    [destruct (skip_ws r) |]; eauto.
Qed.

End JsonFacts.

(** ** ORDER BY *)

Section OrderByFacts.
Context {A : Type} (lt : A -> A -> bool).

Lemma insert_ordered_perm x l : Permutation (insert_ordered lt x l) (x :: l).
Proof.
  induction l as [| y r IH]; cbn [insert_ordered]; [reflexivity |].
  destruct (lt y x); [| reflexivity].
  rewrite IH. apply perm_swap.
Qed.

Lemma order_by_perm l : Permutation (order_by lt l) l.
Proof.
  induction l as [| x r IH]; cbn [order_by]; [reflexivity |].
  rewrite insert_ordered_perm. now constructor.
Qed.

Lemma order_by_length l : length (order_by lt l) = length l.
Proof. apply Permutation_length, order_by_perm. Qed.

(** Rows that the order does not separate keep their relative positions. *)
Lemma filter_insert_ordered (P : A -> bool) x l :
  (forall y, P x = true -> P y = true -> lt y x = false) ->
  List.filter P (insert_ordered lt x l) = List.filter P (x :: l).
Proof.
  intros Hclass. induction l as [| y r IH]; cbn [insert_ordered]; [reflexivity |].
  destruct (lt y x) eqn:Hyx; [| reflexivity].
  cbn [List.filter] in *. rewrite IH.
  destruct (P x) eqn:Px, (P y) eqn:Py; try reflexivity.
  rewrite (Hclass y eq_refl Py) in Hyx. discriminate.
Qed.

Lemma order_by_stable (P : A -> bool) l :
  (forall x y, P x = true -> P y = true -> lt y x = false) ->
  List.filter P (order_by lt l) = List.filter P l.
Proof.
  intros Hclass. induction l as [| x r IH]; cbn [order_by]; [reflexivity |].
  rewrite filter_insert_ordered by (intros; now apply Hclass).
  cbn [List.filter]. now rewrite IH.
Qed.

(** Under a strict weak order the result is ordered: no row sorts strictly
    before one that precedes it. *)
Hypothesis lt_asym : forall x y, lt x y = true -> lt y x = false.
Hypothesis lt_negtrans :
  forall x y z, lt x y = false -> lt y z = false -> lt x z = false.

Lemma insert_ordered_ordered x l : ordered lt l -> ordered lt (insert_ordered lt x l).
Proof.
  unfold ordered. induction 1 as [| y r Hr IH Hy]; cbn [insert_ordered].
  - repeat constructor.
  - destruct (lt y x) eqn:Hyx.
    + constructor; [exact IH |].
      apply (Permutation_Forall (Permutation_sym (insert_ordered_perm x r))).
      constructor; [now apply lt_asym | exact Hy].
    + constructor; [now constructor |].
      constructor; [exact Hyx |].
      eapply List.Forall_impl; [| exact Hy].
      intros z Hz. cbn beta in *. now apply lt_negtrans with y.
Qed.

Lemma order_by_ordered l : ordered lt (order_by lt l).
Proof.
  induction l as [| x r IH]; cbn [order_by]; [constructor |].
  now apply insert_ordered_ordered.
Qed.
End OrderByFacts.

(** ** The list sort *)

Lemma In_firstn {A} n (l : list A) x : In x (firstn n l) -> In x l.
Proof.
  revert l. induction n as [| n IH]; intros [| y l]; cbn [firstn In]; try tauto.
  intros [-> | H]; [now left | right; now apply IH].
Qed.

Lemma In_skipn {A} n (l : list A) x : In x (skipn n l) -> In x l.
Proof.
  revert l. induction n as [| n IH]; intros [| y l]; cbn [skipn In]; try tauto.
  intros H. right. now apply IH.
Qed.

Lemma StronglySorted_app_iff {A} (R : A -> A -> Prop) l1 l2 :
  StronglySorted R (l1 ++ l2) <->
  StronglySorted R l1 /\ StronglySorted R l2 /\
  List.Forall (fun a => List.Forall (R a) l2) l1.
Proof.
  induction l1 as [| a l1 IH]; cbn [app].
  - split; [intros H; repeat split; [constructor | exact H | constructor] | tauto].
  - split.
    + intros H. inversion H as [| ? ? Hs Ha]; subst.
      apply IH in Hs as (H1 & H2 & H12).
      apply List.Forall_app in Ha as [Ha1 Ha2].
      repeat split; [now constructor | exact H2 | now constructor].
    + intros (H1 & H2 & H12).
      inversion H1 as [| ? ? Hs Ha]; subst.
      inversion H12 as [| ? ? Ha2 H12']; subst.
      constructor; [apply IH; repeat split; assumption |].
      apply List.Forall_app. split; assumption.
Qed.

Section ListSortFacts.
Context {A : Type} (lt : A -> A -> bool).

Lemma binary_insert_perm a x : Permutation (binary_insert lt a x) (x :: a).
Proof.
  unfold binary_insert. rewrite <- Permutation_middle.
  now rewrite firstn_skipn.
Qed.

Lemma binarysort_perm rest : forall run,
  Permutation (binarysort lt run rest) (run ++ rest).
Proof.
  unfold binarysort.
  induction rest as [| x rest IH]; intros run; cbn [fold_left].
  - now rewrite app_nil_r.
  - rewrite IH, binary_insert_perm. cbn [app]. apply Permutation_middle.
Qed.

(** The initial run and what follows it make up the list. *)
Lemma sorted_unfold l :
  sorted lt l =
  binarysort lt
    (if snd (count_run lt l) then rev (firstn (fst (count_run lt l)) l)
     else firstn (fst (count_run lt l)) l)
    (skipn (fst (count_run lt l)) l).
Proof.
  unfold sorted. destruct l as [| x [| y r]]; [reflexivity | reflexivity |].
  destruct (count_run lt (x :: y :: r)) as [n d]. reflexivity.
Qed.

Lemma sorted_perm l : Permutation (sorted lt l) l.
Proof.
  rewrite sorted_unfold, binarysort_perm.
  destruct (snd (count_run lt l)); [rewrite <- Permutation_rev |];
    now rewrite firstn_skipn.
Qed.

Lemma sorted_length l : length (sorted lt l) = length l.
Proof. apply Permutation_length, sorted_perm. Qed.

(** The run that [count_run] finds, seen from its first element. *)
Lemma count_run_cases l :
  match l with
  | [] => count_run lt l = (O, false)
  | x :: r =>
      (snd (count_run lt l) = false /\
       firstn (fst (count_run lt l)) l = x :: firstn (run_ascending lt x r) r) \/
      (snd (count_run lt l) = true /\
       firstn (fst (count_run lt l)) l = x :: firstn (run_descending lt x r) r)
  end.
Proof.
  destruct l as [| x [| y r]]; [reflexivity | left; split; reflexivity |].
  cbn [count_run run_ascending run_descending].
  destruct (lt y x); [right | left]; split; reflexivity.
Qed.

(** *** The binary search *)

Lemma search_midpoint l r : (l < r)%nat -> (l <= l + (r - l) / 2 < r)%nat.
Proof.
  intros H. pose proof (Nat.div_lt (r - l) 2 ltac:(lia) ltac:(lia)). lia.
Qed.

(** The place found is not after the first index from which every element
    is greater than the pivot. *)
Lemma binary_search_upper fuel pivot a m : forall l r,
  (l <= m)%nat ->
  (forall i y, (m <= i < r)%nat -> nth_error a i = Some y -> lt pivot y = true) ->
  (binary_search lt fuel pivot a l r <= m)%nat.
Proof.
  induction fuel as [| fuel IH]; intros l r Hl Hm; cbn [binary_search]; [exact Hl |].
  destruct (Nat.ltb_spec l r) as [Hlr | Hlr]; [| exact Hl].
  pose proof (search_midpoint l r Hlr) as Hp. cbv zeta.
  destruct (nth_error a (l + (r - l) / 2)) as [y |] eqn:Ey; [| exact Hl].
  destruct (lt pivot y) eqn:Hy.
  - apply IH; [exact Hl |]. intros i z Hi. apply Hm. lia.
  - apply IH.
    + destruct (Nat.le_gt_cases m (l + (r - l) / 2)) as [Hle | Hgt]; [| lia].
      rewrite (Hm _ y (conj Hle (proj2 Hp)) Ey) in Hy. discriminate.
    + exact Hm.
Qed.

(** The place found is not before the end of an initial segment none of
    whose elements is greater than the pivot. *)
Lemma binary_search_lower fuel pivot a m : forall l r,
  (r - l <= fuel)%nat -> (m <= r)%nat -> (r <= length a)%nat ->
  (forall i y, (l <= i < m)%nat -> nth_error a i = Some y -> lt pivot y = false) ->
  (m <= binary_search lt fuel pivot a l r)%nat.
Proof.
  induction fuel as [| fuel IH]; intros l r Hfuel Hr Hlen Hm; cbn [binary_search]; [lia |].
  destruct (Nat.ltb_spec l r) as [Hlr | Hlr]; [| lia].
  pose proof (search_midpoint l r Hlr) as Hp. cbv zeta.
  destruct (nth_error a (l + (r - l) / 2)) as [y |] eqn:Ey.
  - destruct (lt pivot y) eqn:Hy.
    + apply IH; [lia | | lia | exact Hm].
      destruct (Nat.le_gt_cases m (l + (r - l) / 2)) as [Hle | Hgt]; [exact Hle |].
      rewrite (Hm _ y (conj (proj1 Hp) Hgt) Ey) in Hy. discriminate.
    + apply IH; [lia | exact Hr | exact Hlen |].
      intros i z Hi. apply Hm. lia.
  - apply nth_error_None in Ey. lia.
Qed.

Lemma nth_error_Forall_r (P : A -> Prop) a1 a2 i y :
  List.Forall P a2 -> (length a1 <= i)%nat -> nth_error (a1 ++ a2) i = Some y -> P y.
Proof.
  intros Hall Hi Hy. rewrite nth_error_app2 in Hy by exact Hi.
  rewrite List.Forall_forall in Hall. apply Hall. eapply nth_error_In, Hy.
Qed.

Lemma nth_error_Forall_l (P : A -> Prop) a1 a2 i y :
  List.Forall P a1 -> (i < length a1)%nat -> nth_error (a1 ++ a2) i = Some y -> P y.
Proof.
  intros Hall Hi Hy. rewrite nth_error_app1 in Hy by exact Hi.
  rewrite List.Forall_forall in Hall. apply Hall. eapply nth_error_In, Hy.
Qed.



Lemma binary_insert_at a1 a2 pivot :
  List.Forall (fun y => lt pivot y = false) a1 ->
  List.Forall (fun y => lt pivot y = true) a2 ->
  binary_insert lt (a1 ++ a2) pivot = a1 ++ pivot :: a2.
Proof.
  intros H1 H2. unfold binary_insert.
  set (k := binary_search lt _ _ _ _ _).
  assert (Hk : k = length a1).
  { apply Nat.le_antisymm.
    - apply binary_search_upper; [lia |].
      intros i y Hi Hy. exact (nth_error_Forall_r _ a1 a2 i y H2 (proj1 Hi) Hy).
    - apply binary_search_lower; [lia | rewrite length_app; lia | lia |].
      intros i y Hi Hy. exact (nth_error_Forall_l _ a1 a2 i y H1 (proj2 Hi) Hy). }
  rewrite Hk, firstn_app, skipn_app, Nat.sub_diag, firstn_all, skipn_all.
  cbn [firstn skipn app]. now rewrite app_nil_r.
Qed.

(** *** Two tiers

    When a property [P] decides the comparison of every element that has
    it with every element that has not, the sort puts the elements with
    [P] first, whatever the comparison does otherwise. *)
Section Tiers.
Variable P : A -> bool.
Hypothesis P_first : forall a b, P a = true -> P b = false -> lt a b = true.
Hypothesis P_last : forall a b, P a = false -> P b = true -> lt a b = false.












End Tiers.

(** *** Order and stability

    On elements that the comparison orders consistently (a strict weak
    order on the elements that satisfy [G]) the result is ordered, and the
    elements that the comparison does not separate keep their relative
    positions. *)
Section Consistent.
Variable G : A -> Prop.
Hypothesis lt_asym : forall x y, lt x y = true -> lt y x = false.
Hypothesis lt_negtrans :
  forall x y z, G x -> G y -> G z ->
    lt x y = false -> lt y z = false -> lt x z = false.

Lemma sorting_lt_trans x y z :
  G x -> G y -> G z -> lt x y = true -> lt y z = true -> lt x z = true.
Proof.
  intros Gx Gy Gz Hxy Hyz. destruct (lt x z) eqn:Hxz; [reflexivity |].
  rewrite (lt_negtrans x z y Gx Gz Gy Hxz (lt_asym _ _ Hyz)) in Hxy. discriminate.
Qed.

Lemma run_ascending_ordered r : forall prev,
  List.Forall G (prev :: r) ->
  ordered lt (prev :: firstn (run_ascending lt prev r) r).
Proof.
  unfold ordered.
  induction r as [| x r IH]; intros prev HG; cbn [run_ascending firstn].
  - repeat constructor.
  - inversion HG as [| ? ? Gp HG']; subst. inversion HG' as [| ? ? Gx Gr]; subst.
    destruct (lt x prev) eqn:Hlt; cbn [firstn]; [repeat constructor |].
    specialize (IH x HG'). constructor; [exact IH |].
    constructor; [exact Hlt |].
    inversion IH as [| ? ? _ Hx]; subst.
    apply List.Forall_forall. intros z Hz.
    assert (Gz : G z).
    { rewrite List.Forall_forall in Gr. apply Gr.
      eapply In_firstn. exact Hz. }
    rewrite List.Forall_forall in Hx.
    exact (lt_negtrans z x prev Gz Gx Gp (Hx z Hz) Hlt).
Qed.

Lemma run_descending_chain r : forall prev,
  List.Forall G (prev :: r) ->
  StronglySorted (fun a b => lt b a = true)
    (prev :: firstn (run_descending lt prev r) r).
Proof.
  induction r as [| x r IH]; intros prev HG; cbn [run_descending firstn].
  - repeat constructor.
  - inversion HG as [| ? ? Gp HG']; subst. inversion HG' as [| ? ? Gx Gr]; subst.
    destruct (lt x prev) eqn:Hlt; cbn [firstn]; [| repeat constructor].
    specialize (IH x HG'). constructor; [exact IH |].
    constructor; [exact Hlt |].
    inversion IH as [| ? ? _ Hx]; subst.
    apply List.Forall_forall. intros z Hz.
    assert (Gz : G z).
    { rewrite List.Forall_forall in Gr. apply Gr.
      eapply In_firstn. exact Hz. }
    rewrite List.Forall_forall in Hx.
    exact (sorting_lt_trans z x prev Gz Gx Gp (Hx z Hz) Hlt).
Qed.

Lemma chain_rev_ordered l :
  StronglySorted (fun a b => lt b a = true) l -> ordered lt (rev l).
Proof.
  unfold ordered. induction 1 as [| a l Hl IH Ha]; cbn [rev]; [constructor |].
  apply StronglySorted_app_iff. repeat split; [exact IH | repeat constructor |].
  apply List.Forall_rev. eapply List.Forall_impl; [| exact Ha].
  intros b Hb. constructor; [now apply lt_asym | constructor].
Qed.

(** An ordered list splits at the place of the pivot. *)
Lemma ordered_split pivot a :
  G pivot -> List.Forall G a -> ordered lt a ->
  exists a1 a2, a = a1 ++ a2 /\
    List.Forall (fun y => lt pivot y = false) a1 /\
    List.Forall (fun y => lt pivot y = true) a2.
Proof.
  unfold ordered. intros Gp HG Hord.
  induction Hord as [| y r Hr IH Hy]; [exists [], []; repeat split; constructor |].
  inversion HG as [| ? ? Gy Gr]; subst.
  destruct (lt pivot y) eqn:Hpy.
  - exists [], (y :: r). repeat split; [constructor |].
    constructor; [exact Hpy |].
    rewrite List.Forall_forall in Hy, Gr. apply List.Forall_forall. intros z Hz.
    destruct (lt pivot z) eqn:Hpz; [reflexivity |].
    rewrite (lt_negtrans pivot z y Gp (Gr z Hz) Gy Hpz (Hy z Hz)) in Hpy. discriminate.
  - destruct (IH Gr) as (a1 & a2 & -> & H1 & H2).
    exists (y :: a1), a2. repeat split; [now constructor | exact H2].
Qed.

Lemma binary_insert_ordered a pivot :
  G pivot -> List.Forall G a -> ordered lt a ->
  ordered lt (binary_insert lt a pivot) /\
  forall C : A -> bool,
    (forall x y, G x -> G y -> C x = true -> C y = true -> lt x y = false) ->
    List.filter C (binary_insert lt a pivot) = List.filter C (a ++ [pivot]).
Proof.
  intros Gp HG Hord.
  destruct (ordered_split pivot a Gp HG Hord) as (a1 & a2 & -> & H1 & H2).
  rewrite (binary_insert_at a1 a2 pivot H1 H2). split.
  - unfold ordered in *. apply StronglySorted_app_iff in Hord as (S1 & S2 & S12).
    apply StronglySorted_app_iff. repeat split; [exact S1 | |].
    + constructor; [exact S2 |].
      eapply List.Forall_impl; [| exact H2]. intros z Hz. now apply lt_asym.
    + rewrite List.Forall_forall in S12, H1. apply List.Forall_forall. intros y Hy.
      constructor; [now apply H1 | now apply S12].
  - intros C Hclass. rewrite !List.filter_app. cbn [List.filter].
    destruct (C pivot) eqn:Cp; [| now rewrite app_nil_r].
    assert (Hnone : List.filter C a2 = []).
    { apply List.Forall_app in HG as [_ HG]. clear Hord.
      induction H2 as [| z a2 Hz H2 IH]; [reflexivity |].
      inversion HG as [| ? ? Gz HG']; subst.
      cbn [List.filter]. destruct (C z) eqn:Cz; [| exact (IH HG')].
      rewrite (Hclass pivot z Gp Gz Cp Cz) in Hz. discriminate. }
    rewrite Hnone, app_nil_r. reflexivity.
Qed.

Lemma binarysort_ordered rest : forall run,
  List.Forall G run -> List.Forall G rest -> ordered lt run ->
  ordered lt (binarysort lt run rest) /\
  forall C : A -> bool,
    (forall x y, G x -> G y -> C x = true -> C y = true -> lt x y = false) ->
    List.filter C (binarysort lt run rest) = List.filter C (run ++ rest).
Proof.
  unfold binarysort.
  induction rest as [| x rest IH]; intros run Grun Grest Hord; cbn [fold_left].
  - rewrite app_nil_r. split; [exact Hord | reflexivity].
  - inversion Grest as [| ? ? Gx Grest']; subst.
    destruct (binary_insert_ordered run x Gx Grun Hord) as [Hord' Hst].
    destruct (IH (binary_insert lt run x)) as [Hfin Hst'];
      [| exact Grest' | exact Hord' |].
    { eapply Permutation_Forall;
        [symmetry; apply binary_insert_perm | now constructor]. }
    split; [exact Hfin |].
    intros C Hclass. rewrite (Hst' C Hclass), List.filter_app, (Hst C Hclass).
    rewrite <- List.filter_app, <- app_assoc. reflexivity.
Qed.

Lemma chain_filter_class (C : A -> bool) l :
  (forall x y, G x -> G y -> C x = true -> C y = true -> lt x y = false) ->
  List.Forall G l ->
  StronglySorted (fun a b => lt b a = true) l ->
  List.filter C (rev l) = List.filter C l.
Proof.
  intros Hclass HG Hl. rewrite List.filter_rev.
  assert (Hshort : (length (List.filter C l) <= 1)%nat).
  { induction Hl as [| a l Hl IH Ha]; cbn [List.filter length]; [lia |].
    inversion HG as [| ? ? Ga HG']; subst.
    destruct (C a) eqn:Ca; [| now apply IH].
    assert (Hnone : List.filter C l = []).
    { clear IH Hl. induction Ha as [| b l Hb Ha IH]; [reflexivity |].
      inversion HG' as [| ? ? Gb HG'']; subst.
      cbn [List.filter]. destruct (C b) eqn:Cb; [| apply IH; [now constructor | exact HG'']].
      rewrite (Hclass b a Gb Ga Cb Ca) in Hb. discriminate. }
    rewrite Hnone. cbn. lia. }
  destruct (List.filter C l) as [| a [| b t]]; [reflexivity | reflexivity |].
  cbn [length] in Hshort. lia.
Qed.

Lemma sorted_consistent l :
  List.Forall G l ->
  ordered lt (sorted lt l) /\
  forall C : A -> bool,
    (forall x y, G x -> G y -> C x = true -> C y = true -> lt x y = false) ->
    List.filter C (sorted lt l) = List.filter C l.
Proof.
  intros HG. rewrite sorted_unfold.
  pose proof (count_run_cases l) as Hrun.
  pose proof (firstn_skipn (fst (count_run lt l)) l) as Hparts.
  assert (Gfirst : List.Forall G (firstn (fst (count_run lt l)) l))
    by now apply Forall_take.
  assert (Grest : List.Forall G (skipn (fst (count_run lt l)) l))
    by now apply Forall_drop.
  destruct l as [| x r].
  - rewrite Hrun. cbn. split; [constructor | reflexivity].
  - destruct Hrun as [[Hd Hfirst] | [Hd Hfirst]]; rewrite Hd.
    + destruct (binarysort_ordered (skipn (fst (count_run lt (x :: r))) (x :: r))
                  (firstn (fst (count_run lt (x :: r))) (x :: r)) Gfirst Grest)
        as [Hord Hst].
      { rewrite Hfirst. now apply run_ascending_ordered. }
      split; [exact Hord |]. intros C Hclass.
      now rewrite (Hst C Hclass), Hparts.
    + pose proof (run_descending_chain r x HG) as Hchain. rewrite <- Hfirst in Hchain.
      destruct (binarysort_ordered (skipn (fst (count_run lt (x :: r))) (x :: r))
                  (rev (firstn (fst (count_run lt (x :: r))) (x :: r))))
        as [Hord Hst]; [now apply List.Forall_rev | exact Grest | |].
      { now apply chain_rev_ordered. }
      split; [exact Hord |]. intros C Hclass.
      rewrite (Hst C Hclass), List.filter_app, (chain_filter_class C _ Hclass Gfirst Hchain).
      now rewrite <- List.filter_app, Hparts.
Qed.

Lemma sorted_ordered l : List.Forall G l -> ordered lt (sorted lt l).
Proof. intros HG. apply sorted_consistent, HG. Qed.

End Consistent.

End ListSortFacts.

(** ** The order of the ranking *)

Lemma Qltb_spec a b : Qltb a b = true <-> (a < b)%Q.
Proof.
  unfold Qltb. rewrite Qlt_alt.
  destruct (a ?= b)%Q; split; congruence.
Qed.

Lemma Qltb_false a b : Qltb a b = false <-> (b <= a)%Q.
Proof.
  split; intros H.
  - apply Qnot_lt_le. intros Hlt. apply Qltb_spec in Hlt. congruence.
  - destruct (Qltb a b) eqn:E; [| reflexivity].
    apply Qltb_spec in E. exfalso. now apply (Qle_not_lt b a).
Qed.

Lemma Qltb_opp a b : Qltb (- a) (- b) = Qltb b a.
Proof.
  apply Bool.eq_true_iff_eq. rewrite !Qltb_spec. split; intros H.
  - apply Qopp_lt_compat in H. now rewrite !Qopp_opp in H.
  - now apply Qopp_lt_compat.
Qed.

Lemma float_lt_asym a b : float_lt a b = true -> float_lt b a = false.
Proof.
  destruct a as [p | [] |], b as [q | [] |]; cbn; try congruence.
  rewrite Qltb_spec, Qltb_false. apply Qlt_le_weak.
Qed.

(** Apart from NaN the floats are linearly ordered. *)
Lemma float_lt_negtrans a b c :
  is_nan a = false -> is_nan b = false -> is_nan c = false ->
  float_lt a b = false -> float_lt b c = false -> float_lt a c = false.
Proof.
  destruct a as [p | [] |], b as [q | [] |], c as [r | [] |]; cbn; try congruence.
  rewrite !Qltb_false. intros _ _ _ H1 H2. now apply Qle_trans with q.
Qed.

Lemma float_eq_not_lt a b : float_eq a b = true -> float_lt a b = false.
Proof.
  destruct a as [p | [] |], b as [q | [] |]; cbn; try congruence.
  intros H. apply Qeq_bool_iff in H. apply Qltb_false. rewrite H. apply Qle_refl.
Qed.

Lemma float_lt_neg a b : float_lt (float_neg a) (float_neg b) = float_lt b a.
Proof.
  destruct a as [p | [] |], b as [q | [] |]; cbn; try reflexivity.
  apply Qltb_opp.
Qed.

Lemma float_eq_neg a b : float_eq (float_neg a) (float_neg b) = float_eq a b.
Proof.
  destruct a as [p | [] |], b as [q | [] |]; cbn; try reflexivity.
  apply Bool.eq_true_iff_eq. rewrite !Qeq_bool_iff. split; intros H.
  - rewrite <- (Qopp_opp p), <- (Qopp_opp q). now rewrite H.
  - now rewrite H.
Qed.

Lemma is_nan_neg a : is_nan (float_neg a) = is_nan a.
Proof. now destruct a. Qed.

(** The comparison of the keys: the tiers decide, and within a tier the
    note with the greater value of [n.note_intercept or -999] is the
    smaller. *)
Lemma key_lt_alt a b :
  key_lt a b =
  if Bool.eqb (has_status CURRENTLY_RATED_HELPFUL a) (has_status CURRENTLY_RATED_HELPFUL b)
  then float_lt (intercept_or b) (intercept_or a)
  else has_status CURRENTLY_RATED_HELPFUL a.
Proof.
  unfold key_lt, tuple_lt, sort_key. cbn [fst snd].
  rewrite float_lt_neg, float_eq_neg.
  destruct (has_status CURRENTLY_RATED_HELPFUL a), (has_status CURRENTLY_RATED_HELPFUL b);
    cbn; try reflexivity;
    destruct (float_eq (intercept_or a) (intercept_or b)) eqn:E; try reflexivity;
    symmetry; apply float_eq_not_lt;
    (destruct (intercept_or a) as [p | [] |], (intercept_or b) as [q | [] |];
     cbn in *; try congruence; apply Qeq_bool_iff in E; apply Qeq_bool_iff; now symmetry).
Qed.

Lemma key_lt_asym x y : key_lt x y = true -> key_lt y x = false.
Proof.
  rewrite !key_lt_alt.
  destruct (has_status CURRENTLY_RATED_HELPFUL x), (has_status CURRENTLY_RATED_HELPFUL y);
    cbn; try congruence; apply float_lt_asym.
Qed.

Lemma intercept_or_not_nan n : intercept_is_nan n = false -> is_nan (intercept_or n) = false.
Proof.
  unfold intercept_is_nan, intercept_or.
  destruct (Note.note_intercept n) as [x |]; [| reflexivity].
  destruct (float_truthy x); [auto | reflexivity].
Qed.

(** On notes whose intercept is not NaN the comparison is a strict weak
    order. *)
Lemma key_lt_negtrans x y z :
  intercept_is_nan x = false -> intercept_is_nan y = false -> intercept_is_nan z = false ->
  key_lt x y = false -> key_lt y z = false -> key_lt x z = false.
Proof.
  intros Gx Gy Gz. apply intercept_or_not_nan in Gx, Gy, Gz.
  rewrite !key_lt_alt.
  destruct (has_status CURRENTLY_RATED_HELPFUL x), (has_status CURRENTLY_RATED_HELPFUL y),
    (has_status CURRENTLY_RATED_HELPFUL z); cbn; try congruence;
    intros H1 H2; exact (float_lt_negtrans _ _ _ Gz Gy Gx H2 H1).
Qed.

(** The ranking of notes without NaN is ordered by its key. *)
Lemma ranking_ordered l :
  List.Forall (fun n => intercept_is_nan n = false) l ->
  ordered key_lt (sorted key_lt l).
Proof.
  apply sorted_ordered; [exact key_lt_asym | exact key_lt_negtrans].
Qed.

Lemma filter_none {A} (P : A -> bool) l :
  List.Forall (fun b => P b = false) l ->
  List.filter P l = [] /\ List.filter (fun a => negb (P a)) l = l.
Proof.
  induction 1 as [| b r Hb Hr [IH1 IH2]]; [split; reflexivity |].
  cbn [List.filter]. rewrite Hb. cbn [negb]. rewrite IH1, IH2. split; reflexivity.
Qed.

(** Within the ranking of notes without NaN a note never follows one whose
    key is greater: of two notes of one tier, the later has not the
    greater value of [n.note_intercept or -999]. *)
Lemma ranking_within_tier l l1 a l2 b l3 :
  List.Forall (fun n => intercept_is_nan n = false) l ->
  sorted key_lt l = l1 ++ a :: l2 ++ b :: l3 ->
  has_status CURRENTLY_RATED_HELPFUL a = has_status CURRENTLY_RATED_HELPFUL b ->
  float_lt (intercept_or a) (intercept_or b) = false.
Proof.
  intros HG Heq Htier.
  pose proof (ranking_ordered l HG) as Hord. unfold ordered in Hord. rewrite Heq in Hord.
  apply StronglySorted_app_iff in Hord as (_ & Hord & _).
  inversion Hord as [| ? ? _ Hall]; subst.
  apply List.Forall_app in Hall as [_ Hall].
  inversion Hall as [| ? ? Hab _]; subst.
  rewrite key_lt_alt, Htier, Bool.eqb_reflx in Hab. exact Hab.
Qed.


(** ** The list comprehension *)

Lemma comprehension_ok {A B} (f : A -> result B) l rs :
  comprehension f l = Ok rs -> Forall2 (fun x r => f x = Ok r) l rs.
Proof.
  revert rs. induction l as [| x l IH]; intros rs H; cbn [comprehension] in H.
  - inversion H. constructor.
  - destruct (f x) as [y |] eqn:Fx; cbn [rbind] in H; [| discriminate].
    destruct (comprehension f l) as [ys |]; cbn [rbind] in H; [| discriminate].
    inversion H; subst. constructor; [exact Fx | now apply IH].
Qed.

Lemma comprehension_err {A B} (f : A -> result B) l e :
  comprehension f l = Err e -> exists x, In x l /\ f x = Err e.
Proof.
  induction l as [| x l IH]; intros H; cbn [comprehension] in H; [discriminate |].
  destruct (f x) as [y |] eqn:Fx; cbn [rbind] in H.
  - destruct (comprehension f l) as [ys |]; cbn [rbind] in H; [discriminate |].
    destruct (IH H) as (x' & Hin & Hx'). exists x'. split; [now right | exact Hx'].
  - inversion H; subst. exists x. split; [now left | exact Fx].
Qed.

(** ** The scored view *)

(** What [get_scored_notes_for_promise] returns, field by field; it fails
    only when the response of some note of the promise cannot be built. *)
Lemma get_scored_notes_cases db promise_id :
  let notes := notes_of_promise db promise_id in
  match get_scored_notes_for_promise db promise_id with
  | Ok resp =>
      Forall2 response_of (sorted key_lt notes) (ScoredNotesResponse.notes resp) /\
      ScoredNotesResponse.total_notes resp = Z.of_nat (length notes) /\
      ScoredNotesResponse.helpful_notes_count resp =
        py_sum (map (fun _ => 1%Z) (List.filter (has_status CURRENTLY_RATED_HELPFUL) notes)) /\
      ScoredNotesResponse.needs_more_ratings_count resp =
        py_sum (map (fun _ => 1%Z) (List.filter (has_status NEEDS_MORE_RATINGS) notes)) /\
      ScoredNotesResponse.last_scored_at resp =
        match scored_times notes with
        | [] => None
        | t :: ts => Some (py_max t ts)
        end
  | Err e => exists n, In n notes /\ _note_to_response n = Err e
  end.
Proof.
  intros notes. unfold get_scored_notes_for_promise. fold (notes_of_promise db promise_id).
  fold notes.
  destruct (comprehension _note_to_response (sorted key_lt notes)) as [rs | e] eqn:E;
    cbn [rbind].
  - apply comprehension_ok in E. cbn. repeat split; try assumption.
    destruct notes; reflexivity.
  - apply comprehension_err in E as (n & Hin & Hn). exists n. split; [| exact Hn].
    apply (Permutation_in _ (sorted_perm key_lt notes)). exact Hin.
Qed.

Lemma fold_add_ones {A} (l : list A) a :
  fold_left Z.add (map (fun _ => 1%Z) l) a = (a + Z.of_nat (length l))%Z.
Proof.
  revert a. induction l as [| x l IH]; intros a; cbn [map fold_left length].
  - lia.
  - rewrite IH. lia.
Qed.

Lemma py_sum_ones {A} (l : list A) :
  py_sum (map (fun _ => 1%Z) l) = Z.of_nat (length l).
Proof. unfold py_sum. now rewrite fold_add_ones. Qed.

Lemma has_status_spec st n :
  has_status st n = true <-> Note.status n = NoteStatus_value st.
Proof. unfold has_status, str_eq. apply bool_decide_eq_true. Qed.

Lemma count_has_status st notes :
  length (List.filter (has_status st) notes) = count_status st notes.
Proof.
  unfold count_status. induction notes as [| n r IH]; [reflexivity |].
  cbn [List.filter map count_occ].
  destruct (List.list_eq_dec N.eq_dec (Note.status n) (NoteStatus_value st)) as [E | N].
  - apply has_status_spec in E. rewrite E. cbn [length]. now rewrite IH.
  - destruct (has_status st n) eqn:H; [| exact IH].
    apply has_status_spec in H. contradiction.
Qed.

Lemma fold_max_ge l a : (a <= fold_left Z.max l a)%Z.
Proof.
  revert a. induction l as [| x l IH]; intros a; cbn [fold_left]; [lia |].
  specialize (IH (Z.max a x)). lia.
Qed.

Lemma fold_max_upper l a t : In t l -> (t <= fold_left Z.max l a)%Z.
Proof.
  revert a. induction l as [| x l IH]; intros a Hin; [destruct Hin |].
  cbn [fold_left]. destruct Hin as [-> | Hin].
  - pose proof (fold_max_ge l (Z.max a t)). lia.
  - now apply IH.
Qed.

Lemma fold_max_in l a : fold_left Z.max l a = a \/ In (fold_left Z.max l a) l.
Proof.
  revert a. induction l as [| x l IH]; intros a; cbn [fold_left]; [now left |].
  destruct (IH (Z.max a x)) as [E | Hin]; [| right; now right].
  rewrite E. destruct (Z.max_spec a x) as [[_ ->] | [_ ->]]; [right; now left | now left].
Qed.

(** [max] returns an element of the list that no element exceeds. *)
Lemma py_max_spec x l :
  In (py_max x l) (x :: l) /\ forall t, In t (x :: l) -> (t <= py_max x l)%Z.
Proof.
  unfold py_max. split.
  - destruct (fold_max_in l x) as [-> | Hin]; [now left | now right].
  - intros t [<- | Hin]; [apply fold_max_ge | now apply fold_max_upper].
Qed.

Lemma scored_times_in notes t :
  In t (scored_times notes) <-> exists n, In n notes /\ Note.scored_at n = Some t.
Proof.
  induction notes as [| n r IH]; cbn [scored_times].
  - split; [intros [] | intros (? & [] & _)].
  - destruct (Note.scored_at n) as [t' |] eqn:E.
    + cbn [In]. rewrite IH. split.
      * intros [<- | (m & Hin & Hm)]; [exists n; split; [now left | exact E] |].
        exists m. split; [now right | exact Hm].
      * intros (m & [<- | Hin] & Hm); [left; congruence |].
        right. exists m. now split.
    + rewrite IH. split.
      * intros (m & Hin & Hm). exists m. split; [now right | exact Hm].
      * intros (m & [<- | Hin] & Hm); [congruence |]. exists m. now split.
Qed.

(** C5. For every promise, the scored view reports [total_notes] as the
    number of its notes whatever their status, [helpful_notes_count] as the
    number of those with status CURRENTLY_RATED_HELPFUL,
    [needs_more_ratings_count] as the number of those with status
    NEEDS_MORE_RATINGS, and [last_scored_at] as the greatest [scored_at]
    that is set, or nothing when none is set; the view fails only when the
    response of one of the notes cannot be built.  Two notes needing more
    ratings and a helpful one give 3, 1 and 2. *)
Theorem scored_notes_statistics :
  (forall db promise_id,
     let notes := notes_of_promise db promise_id in
     match get_scored_notes_for_promise db promise_id with
     | Ok resp =>
         ScoredNotesResponse.total_notes resp = Z.of_nat (length notes) /\
         ScoredNotesResponse.helpful_notes_count resp
           = Z.of_nat (count_status CURRENTLY_RATED_HELPFUL notes) /\
         ScoredNotesResponse.needs_more_ratings_count resp
           = Z.of_nat (count_status NEEDS_MORE_RATINGS notes) /\
         match ScoredNotesResponse.last_scored_at resp with
         | Some t =>
             (exists n, In n notes /\ Note.scored_at n = Some t) /\
             (forall n t', In n notes -> Note.scored_at n = Some t' -> (t' <= t)%Z)
         | None => forall n, In n notes -> Note.scored_at n = None
         end
     | Err e => exists n, In n notes /\ _note_to_response n = Err e
     end) /\
  (exists resp,
     get_scored_notes_for_promise aggregation_example 7 = Ok resp /\
     ScoredNotesResponse.total_notes resp = 3%Z /\
     ScoredNotesResponse.helpful_notes_count resp = 1%Z /\
     ScoredNotesResponse.needs_more_ratings_count resp = 2%Z /\
     ScoredNotesResponse.last_scored_at resp = None).
Proof.
  split.
  - intros db promise_id notes.
    pose proof (get_scored_notes_cases db promise_id) as H. cbv zeta in H. fold notes in H.
    destruct (get_scored_notes_for_promise db promise_id) as [resp | e]; [| exact H].
    destruct H as (_ & Ht & Hh & Hn & Hl).
    rewrite Ht, Hh, Hn, Hl, !py_sum_ones, !count_has_status.
    repeat split.
    destruct (scored_times notes) as [| t ts] eqn:Etimes.
    + intros n Hn'. destruct (Note.scored_at n) as [t |] eqn:E; [| reflexivity].
      assert (Hin : In t (scored_times notes)) by (apply scored_times_in; now exists n).
      rewrite Etimes in Hin. destruct Hin.
    + destruct (py_max_spec t ts) as [Hin Hub]. rewrite <- Etimes in Hin, Hub. split.
      * now apply scored_times_in.
      * intros n t' Hn' Ht'. apply Hub. apply scored_times_in. now exists n.
  - eexists. split; [vm_compute; reflexivity |]. repeat split.
Qed.

Lemma response_of_carries n r : response_of n r -> carries n r.
Proof.
  unfold response_of, _note_to_response, carries.
  destruct (read_sources (Note.sources n)) as [srcs |]; cbn [rbind]; [| discriminate].
  intros H; inversion H; subst. cbn. repeat split.
Qed.

Lemma Forall2_map_eq {A B C} (f : A -> C) (g : B -> C) (P : A -> B -> Prop) l l' :
  (forall a b, P a b -> g b = f a) -> Forall2 P l l' -> map g l' = map f l.
Proof.
  intros Hfg. induction 1 as [| a b l l' Hab _ IH]; [reflexivity |].
  cbn [map]. now rewrite IH, (Hfg a b Hab).
Qed.

(** C10. The notes of a scored view are the stored notes of the promise,
    each exactly once, in some order: there is an arrangement of the whole
    stored note set of the promise such that the responses carry its notes
    one by one, field by field; the keys of the responses are the keys of
    the stored notes, rearranged; nothing is dropped, repeated or paged,
    and the number of responses is [total_notes], the number of stored
    notes of the promise. *)
Theorem scored_notes_complete db promise_id :
  let notes := notes_of_promise db promise_id in
  match get_scored_notes_for_promise db promise_id with
  | Ok resp =>
      (exists ranked,
         Permutation ranked notes /\
         Forall2 response_of ranked (ScoredNotesResponse.notes resp) /\
         Forall2 carries ranked (ScoredNotesResponse.notes resp)) /\
      Permutation (map NoteResponse.id (ScoredNotesResponse.notes resp))
                  (map Note.id notes) /\
      Z.of_nat (length (ScoredNotesResponse.notes resp))
        = ScoredNotesResponse.total_notes resp /\
      ScoredNotesResponse.total_notes resp = Z.of_nat (length notes)
  | Err e => exists n, In n notes /\ _note_to_response n = Err e
  end.
Proof.
  intros notes.
  pose proof (get_scored_notes_cases db promise_id) as H. cbv zeta in H. fold notes in H.
  destruct (get_scored_notes_for_promise db promise_id) as [resp | e]; [| exact H].
  destruct H as (Hall & Ht & _).
  assert (Hcar : Forall2 carries (sorted key_lt notes) (ScoredNotesResponse.notes resp)).
  { eapply Forall2_impl; [exact Hall |]. intros n r. apply response_of_carries. }
  repeat split.
  - exists (sorted key_lt notes). repeat split; [apply sorted_perm | exact Hall | exact Hcar].
  - rewrite (Forall2_map_eq Note.id NoteResponse.id carries _ _
               (fun a b Hab => proj1 Hab) Hcar).
    apply Permutation_map, sorted_perm.
  - rewrite Ht. f_equal.
    rewrite <- (Forall2_length _ _ _ Hall). apply sorted_length.
  - exact Ht.
Qed.









(** C1. What the ranking does with an intercept of 0.0: the test
    [n.note_intercept or -999] takes it for a missing one, so the note with
    intercept 0.0 comes after the note of the same tier with intercept -0.5,
    although 0.0 is the higher intercept. *)
Theorem ranking_zero_intercept_sorts_as_missing :
  exists resp,
    get_scored_notes_for_promise zero_intercept_example 7 = Ok resp /\
    map NoteResponse.id (ScoredNotesResponse.notes resp) = [2%Z; 1%Z] /\
    map NoteResponse.note_intercept (ScoredNotesResponse.notes resp)
      = [Some (Fin (-1 # 2)); Some (Fin 0)].
Proof. eexists. split; [vm_compute; reflexivity |]. split; reflexivity. Qed.

(** ** Deletion *)

(** C4. A request whose [author_id] is not the author of the note is
    refused with 403, whatever the status of the note, and a request for a
    note that does not exist is answered 404, whoever asks. *)
Theorem delete_ownership_and_existence db note_id author_id :
  (forall note,
     first_with_id db note_id = Some note ->
     Note.author_id note <> author_id ->
     delete_note db note_id author_id
       = Err (HTTPException 403 (lit "Only the author can delete this note"))) /\
  (first_with_id db note_id = None ->
   delete_note db note_id author_id = Err (HTTPException 404 (lit "Note not found"))).
Proof.
  unfold first_with_id, delete_note. split.
  - intros note -> Hne.
    destruct (Z.eqb_spec (Note.author_id note) author_id) as [E | _]; [contradiction |].
    reflexivity.
  - intros ->. reflexivity.
Qed.

Lemma delete_ownership_and_existence_witness :
  delete_note deletion_example 2 1
    = Err (HTTPException 403 (lit "Only the author can delete this note")) /\
  delete_note deletion_example 5 1 = Err (HTTPException 404 (lit "Note not found")).
Proof.
  split.
  - apply (proj1 (delete_ownership_and_existence deletion_example 2 1)
             (a_note 2 7 2 (NoteStatus_value NEEDS_MORE_RATINGS) (lit "promise_broken")
                     None None None)).
    + reflexivity.
    + cbn. lia.
  - apply (proj2 (delete_ownership_and_existence deletion_example 5 1)). reflexivity.
Defined.

(** C2, as stated, fails: the author of another note who asks to delete a
    helpful note is refused for not being the author (403), not for the
    status of the note (400). *)
Lemma delete_helpful_by_stranger_is_403 :
  first_with_id deletion_example 1
    = Some (a_note 1 7 1 (NoteStatus_value CURRENTLY_RATED_HELPFUL) (lit "promise_kept")
                   (Some (Fin (4 # 5))) None None) /\
  delete_note deletion_example 1 2
    = Err (HTTPException 403 (lit "Only the author can delete this note")) /\
  delete_note deletion_example 1 2
    <> Err (HTTPException 400
              (lit "Cannot delete a note that has been rated helpful by the community")).
Proof. repeat split. discriminate. Qed.

(** C2, amended. Deleting an existing note whose status is
    CURRENTLY_RATED_HELPFUL always fails and leaves the note in place: with
    400 when the requester is its author, with 403 when not. *)
Theorem delete_helpful_refused db note_id author_id note :
  first_with_id db note_id = Some note ->
  has_status CURRENTLY_RATED_HELPFUL note = true ->
  delete_note db note_id author_id =
    if (Note.author_id note =? author_id)%Z
    then Err (HTTPException 400
                (lit "Cannot delete a note that has been rated helpful by the community"))
    else Err (HTTPException 403 (lit "Only the author can delete this note")).
Proof.
  unfold first_with_id, delete_note. intros -> ->.
  destruct (Note.author_id note =? author_id)%Z; reflexivity.
Qed.

Lemma delete_helpful_refused_witness :
  delete_note deletion_example 1 1
    = Err (HTTPException 400
             (lit "Cannot delete a note that has been rated helpful by the community")).
Proof.
  apply (delete_helpful_refused deletion_example 1 1
           (a_note 1 7 1 (NoteStatus_value CURRENTLY_RATED_HELPFUL) (lit "promise_kept")
                   (Some (Fin (4 # 5))) None None)); reflexivity.
Defined.

(** ** Stored sources *)

Lemma read_sources_dumps l :
  Forall (fun s => is_str s = true /\ has_surrogate_pair s = false) l ->
  read_sources (Some (json.dumps l)) = Ok l.
Proof.
  intros Hall. unfold read_sources.
  assert (Htruthy : truthy_str (Some (json.dumps l)) = true).
  { destruct l; reflexivity. }
  rewrite Htruthy, (loads_dumps l Hall). cbn [rbind validate_sources].
  apply as_str_list_strs.
Qed.

(** C7, as stated, fails: a source made of a high surrogate followed by a
    low surrogate is written as two escapes, which the decoder reads back as
    the single code point U+1F600. *)
Lemma surrogate_pair_not_round_tripped :
  is_str [55357; 56832] = true /\
  exists resp,
    fst (create_note surrogate_request empty_store) = Ok resp /\
    NoteResponse.sources resp = [[128512]] /\
    NoteResponse.sources resp <> CreateNoteRequest.sources surrogate_request.
Proof.
  split; [reflexivity |]. eexists. split; [vm_compute; reflexivity |].
  split; [reflexivity | discriminate].
Qed.

(** C7, amended. For every sequence of source strings in which no high
    surrogate is immediately followed by a low surrogate (the empty sequence
    included), the sources that [create_note] stores are read back, in the
    response of the creation and from the stored row, as the sequence that
    was submitted. *)
Theorem sources_round_trip request db :
  Forall (fun s => is_str s = true /\ has_surrogate_pair s = false)
         (CreateNoteRequest.sources request) ->
  exists note resp,
    create_note request db
      = (Ok resp, mkDb (dialect db) (rows db ++ [note]) (next_id db + 1)%Z (clock db)) /\
    Note.sources note = Some (json.dumps (CreateNoteRequest.sources request)) /\
    _note_to_response note = Ok resp /\
    NoteResponse.sources resp = CreateNoteRequest.sources request.
Proof.
  intros Hall. unfold create_note.
  set (note := Note.mk _ _ _ _ _ _ _ _ _ _ _ _ _ _ _ _ _).
  assert (Hresp : exists resp, _note_to_response note = Ok resp /\
                  NoteResponse.sources resp = CreateNoteRequest.sources request).
  { unfold _note_to_response. subst note. cbn [Note.sources].
    rewrite (read_sources_dumps _ Hall). cbn [rbind]. eexists. split; reflexivity. }
  destruct Hresp as (resp & Hresp & Hsrc).
  exists note, resp. rewrite Hresp. repeat split; assumption.
Qed.

Lemma sources_round_trip_witness :
  exists note resp,
    create_note two_sources_request empty_store
      = (Ok resp, mkDb SQLite ([] ++ [note]) (1 + 1)%Z 0) /\
    Note.sources note = Some (json.dumps (CreateNoteRequest.sources two_sources_request)) /\
    _note_to_response note = Ok resp /\
    NoteResponse.sources resp = CreateNoteRequest.sources two_sources_request.
Proof.
  apply (sources_round_trip two_sources_request empty_store).
  repeat constructor.
Defined.

(** C3, as stated, fails: a stored value that is not JSON makes the
    conversion raise; no response with empty sources is produced. *)
Lemma corrupt_sources_fail_the_record :
  sources_undecodable corrupt_note /\
  _note_to_response corrupt_note = Err JSONDecodeError /\
  forall r, _note_to_response corrupt_note <> Ok r.
Proof.
  split; [| split].
  - eexists. split; [reflexivity |]. split; [discriminate | vm_compute; reflexivity].
  - vm_compute. reflexivity.
  - intros r. vm_compute. discriminate.
Qed.

(** C3, amended. When the stored sources of a note are absent (NULL or the
    empty string) its response has the empty list of sources; when they are
    an undecodable text the conversion fails with the decoding error, which
    is not swallowed. *)
Theorem read_absent_or_undecodable_sources note :
  (sources_absent note ->
   exists r, _note_to_response note = Ok r /\ NoteResponse.sources r = []) /\
  (sources_undecodable note -> _note_to_response note = Err JSONDecodeError).
Proof.
  unfold sources_absent, sources_undecodable, _note_to_response, read_sources. split.
  - intros Habs. destruct (Note.sources note) as [[| c s] |]; try discriminate;
      cbn [truthy_str rbind]; eexists; split; reflexivity.
  - intros (s & -> & Hne & Hloads).
    destruct s as [| c s]; [contradiction |]. cbn [truthy_str].
    rewrite Hloads. reflexivity.
Qed.

Lemma read_absent_or_undecodable_sources_witness :
  (exists r, _note_to_response unset_note = Ok r /\ NoteResponse.sources r = []) /\
  _note_to_response corrupt_note = Err JSONDecodeError.
Proof.
  split.
  - apply (proj1 (read_absent_or_undecodable_sources unset_note)). reflexivity.
  - apply (proj2 (read_absent_or_undecodable_sources corrupt_note)).
    exists (lit "https://example.org/a").
    split; [reflexivity |]. split; [discriminate | vm_compute; reflexivity].
Defined.

(** ** Classification statistics *)

Lemma str_eq_spec a b : str_eq a b = true <-> a = b.
Proof. unfold str_eq. apply bool_decide_eq_true. Qed.

Lemma str_eq_refl a : str_eq a a = true.
Proof. now apply str_eq_spec. Qed.

Lemma str_eq_neq a b : a <> b -> str_eq a b = false.
Proof.
  intros H. destruct (str_eq a b) eqn:E; [| reflexivity].
  apply str_eq_spec in E. contradiction.
Qed.

Lemma group_of_count_group c c' groups :
  group_of c (count_group c' groups) =
  if str_eq c' c then Some (default 0%Z (group_of c groups) + 1)%Z
  else group_of c groups.
Proof.
  induction groups as [| [d k] r IH]; cbn [count_group group_of].
  - destruct (str_eq c' c); reflexivity.
  - destruct (str_eq d c') eqn:Edc'; cbn [group_of].
    + apply str_eq_spec in Edc'. subst d.
      destruct (str_eq c' c); reflexivity.
    + rewrite IH. destruct (str_eq d c) eqn:Edc; [| reflexivity].
      apply str_eq_spec in Edc. subst d.
      destruct (str_eq c' c) eqn:Ec; [| reflexivity].
      apply str_eq_spec in Ec. subst c'. rewrite str_eq_refl in Edc'. discriminate.
Qed.

Lemma group_of_none c groups : group_of c groups = None <-> ~ In c (map fst groups).
Proof.
  induction groups as [| [d k] r IH]; cbn [group_of map In fst].
  - tauto.
  - destruct (str_eq d c) eqn:E.
    + apply str_eq_spec in E. split; [discriminate | tauto].
    + rewrite IH. split; [intros H [Hd | Hin]; [| tauto] | tauto].
      subst d. rewrite str_eq_refl in E. discriminate.
Qed.

Lemma count_group_keys c groups :
  List.NoDup (map fst groups) -> List.NoDup (map fst (count_group c groups)).
Proof.
  induction groups as [| [d k] r IH]; cbn [count_group map fst]; intros Hnd.
  - repeat constructor. intros [].
  - destruct (str_eq d c) eqn:E; cbn [map fst]; [exact Hnd |].
    inversion Hnd as [| ? ? Hd Hr]; subst. constructor; [| now apply IH].
    intros Hin.
    assert (Hg : group_of d (count_group c r) <> None).
    { intros Hg. apply group_of_none in Hg. contradiction. }
    rewrite group_of_count_group in Hg.
    destruct (str_eq c d) eqn:Ecd.
    + apply str_eq_spec in Ecd. subst c. rewrite str_eq_refl in E. discriminate.
    + apply Hg. now apply group_of_none.
Qed.

Lemma occurrences_cons c x l :
  occurrences c (x :: l) = ((if str_eq x c then 1 else 0) + occurrences c l)%nat.
Proof.
  unfold occurrences. cbn [count_occ].
  destruct (List.list_eq_dec N.eq_dec x c) as [E | N].
  - subst. now rewrite str_eq_refl.
  - now rewrite (str_eq_neq _ _ N).
Qed.

Lemma fold_count_group l : forall groups c,
  group_of c (fold_left (fun g x => count_group x g) l groups) =
  match occurrences c l with
  | O => group_of c groups
  | S _ => Some (default 0%Z (group_of c groups) + Z.of_nat (occurrences c l))%Z
  end.
Proof.
  induction l as [| x l IH]; intros groups c; [reflexivity |].
  cbn [fold_left]. rewrite IH, occurrences_cons, group_of_count_group.
  destruct (str_eq x c); cbn [Init.Nat.add].
  - destruct (occurrences c l); unfold default; cbn [from_option id]; f_equal; lia.
  - reflexivity.
Qed.

Lemma fold_count_group_keys l : forall groups,
  List.NoDup (map fst groups) ->
  List.NoDup (map fst (fold_left (fun g x => count_group x g) l groups)).
Proof.
  induction l as [| x l IH]; intros groups Hnd; [exact Hnd |].
  cbn [fold_left]. apply IH. now apply count_group_keys.
Qed.

Lemma fold_insert_lookup results : forall (d : gmap pystr Z) c,
  List.NoDup (map fst results) ->
  fold_left (fun d r => <[fst r := snd r]> d) results d !! c =
  match group_of c results with
  | Some k => Some k
  | None => d !! c
  end.
Proof.
  induction results as [| [c' k] r IH]; intros d c Hnd; [reflexivity |].
  cbn [fold_left group_of fst snd map] in *.
  inversion Hnd as [| ? ? Hc' Hr]; subst.
  rewrite IH by exact Hr.
  destruct (str_eq c' c) eqn:E.
  - apply str_eq_spec in E. subst c'.
    apply group_of_none in Hc'. rewrite Hc'. apply lookup_insert_eq.
  - destruct (group_of c r); [reflexivity |].
    apply lookup_insert_ne. intros ->. rewrite str_eq_refl in E. discriminate.
Qed.

(** The dictionary of [get_notes_by_classification], key by key. *)
Lemma classification_counts_lookup (l : list pystr) c :
  dict_of (group_by_count l) !! c =
  match occurrences c l with
  | O => None
  | S _ => Some (Z.of_nat (occurrences c l))
  end.
Proof.
  unfold dict_of, group_by_count.
  rewrite fold_insert_lookup by (apply fold_count_group_keys; constructor).
  rewrite fold_count_group. cbn [group_of default].
  destruct (occurrences c l); [apply lookup_empty | f_equal].
Qed.

Lemma occurrences_map {A} (f : A -> pystr) c l :
  occurrences c (map f l) = length (List.filter (fun x => str_eq (f x) c) l).
Proof.
  induction l as [| x l IH]; [reflexivity |].
  cbn [map List.filter]. rewrite occurrences_cons, IH.
  destruct (str_eq (f x) c); reflexivity.
Qed.

Lemma filter_filter {A} (P Q : A -> bool) l :
  List.filter Q (List.filter P l) = List.filter (fun x => P x && Q x) l.
Proof.
  induction l as [| x l IH]; [reflexivity |].
  cbn [List.filter]. destruct (P x); cbn [andb List.filter]; [| exact IH].
  destruct (Q x); now rewrite IH.
Qed.

(** C6. The classification statistics map every classification to the
    number of notes of the promise that carry it and are rated helpful; a
    classification without such a note has no entry.  A helpful
    promise_kept note and a non-helpful promise_broken note give the single
    entry promise_kept: 1. *)
Theorem classification_stats_helpful_only :
  (forall db promise_id c,
     snd (get_notes_by_classification db promise_id) !! c =
     match helpful_with_classification db promise_id c with
     | O => None
     | S k => Some (Z.of_nat (S k))
     end) /\
  get_notes_by_classification deletion_example 7
    = (7%Z, {[ lit "promise_kept" := 1%Z ]}).
Proof.
  assert (Hgen : forall db promise_id c,
     snd (get_notes_by_classification db promise_id) !! c =
     match helpful_with_classification db promise_id c with
     | O => None
     | S k => Some (Z.of_nat (S k))
     end).
  { intros db promise_id c. unfold get_notes_by_classification. cbn [snd].
    rewrite classification_counts_lookup, occurrences_map, filter_filter.
    fold (helpful_with_classification db promise_id c).
    destruct (helpful_with_classification db promise_id c); reflexivity. }
  split; [exact Hgen |]. vm_compute. reflexivity.
Qed.

(** ** Pagination *)

Lemma comprehension_length {A B} (f : A -> result B) l rs :
  comprehension f l = Ok rs -> length rs = length l.
Proof.
  intros H. apply comprehension_ok in H. symmetry. exact (Forall2_length _ _ _ H).
Qed.

Lemma Query_limit_ok supplied n :
  Query_limit supplied = Ok n ->
  (n <= 100)%Z /\ (supplied = None -> n = 50%Z) /\ (forall v, supplied = Some v -> n = v).
Proof.
  unfold Query_limit. destruct supplied as [v |].
  - destruct (Z.leb_spec v 100) as [Hle | Hgt]; intros Hq; inversion Hq; subst.
    repeat split; [assumption | discriminate | congruence].
  - intros Hq; inversion Hq; subst. repeat split; [lia | discriminate].
Qed.

(** A page holds at most [limit] rows, when the limit is not negative or
    the dialect refuses negative limits. *)
Lemma offset_limit_length {A} d offset limit (l page : list A) :
  d = PostgreSQL \/ (0 <= limit)%Z ->
  offset_limit d offset limit l = Ok page ->
  (Z.of_nat (length page) <= limit)%Z.
Proof.
  intros Hd. unfold offset_limit.
  assert (Hfirst : forall k : list A, (0 <= limit)%Z ->
            (Z.of_nat (length (firstn (Z.to_nat limit) k)) <= limit)%Z).
  { intros k Hl. pose proof (firstn_le_length (Z.to_nat limit) k). lia. }
  destruct d.
  - destruct Hd as [Hd | Hl]; [discriminate |].
    destruct (Z.ltb_spec limit 0) as [Hneg | Hpos]; [lia |].
    intros Hp; inversion Hp; subst. now apply Hfirst.
  - destruct (Z.ltb_spec offset 0) as [Hoff | Hoff]; cbn [orb]; [discriminate |].
    destruct (Z.ltb_spec limit 0) as [Hneg | Hpos]; [discriminate |].
    intros Hp; inversion Hp; subst. now apply Hfirst.
Qed.

(** The common tail of the two list handlers. *)
Lemma page_length db offset limit n (query : list Note.t) resp :
  Query_limit limit = Ok n ->
  dialect db = PostgreSQL \/ (forall v, limit = Some v -> (0 <= v)%Z) ->
  (try! notes := offset_limit (dialect db) offset n query in
   comprehension _note_to_response notes) = Ok resp ->
  (Z.of_nat (length resp) <= n)%Z.
Proof.
  intros Hq Hd H.
  destruct (offset_limit (dialect db) offset n query) as [page |] eqn:E;
    cbn [rbind] in H; [| discriminate].
  apply comprehension_length in H. rewrite H.
  apply offset_limit_length in E; [exact E |].
  destruct Hd as [Hd | Hv]; [now left | right].
  destruct (Query_limit_ok _ _ Hq) as (_ & Hnone & Hsome).
  destruct limit as [v |]; [| rewrite Hnone by reflexivity; lia].
  rewrite (Hsome v eq_refl). now apply Hv.
Qed.

(** C8. What the list handlers do with a negative limit.  [le=100] is the
    whole validation of the parameter, so that -1 is accepted as it is and
    handed to [.limit()].  On SQLite a negative LIMIT is no limit at all:
    both handlers return all 101 notes of [crowded_store] in one call.  On
    PostgreSQL the same call is not refused by the validation either: it
    reaches the engine, which raises. *)
Theorem negative_limit_escapes_the_bound :
  Query_limit (Some (-1)%Z) = Ok (-1)%Z /\
  (exists resp, get_notes_by_author crowded_store 1 None (Some (-1)%Z) 0 = Ok resp /\
                length resp = 101%nat) /\
  (exists resp, get_notes_for_promise crowded_store 7 None (Some (-1)%Z) 0 = Ok resp /\
                length resp = 101%nat) /\
  get_notes_by_author crowded_store_postgresql 1 None (Some (-1)%Z) 0 = Err DBAPIError /\
  get_notes_for_promise crowded_store_postgresql 7 None (Some (-1)%Z) 0 = Err DBAPIError.
Proof.
  split; [reflexivity |].
  split; [eexists; (split; [vm_compute; reflexivity | reflexivity]) |].
  split; [eexists; (split; [vm_compute; reflexivity | reflexivity]) |].
  split; reflexivity.
Qed.

(** X25. Whatever the store holds, a negative limit is never refused by
    the validation of the request: on SQLite both list handlers return
    every matching note after the offset, and on PostgreSQL both fail in
    the engine. *)
Theorem negative_limit_reaches_the_query db key status v offset :
  (v < 0)%Z ->
  get_notes_by_author db key status (Some v) offset
  = match dialect db with
    | SQLite =>
        comprehension _note_to_response
          (skipn (Z.to_nat offset) (author_query db key status))
    | PostgreSQL => Err DBAPIError
    end /\
  get_notes_for_promise db key status (Some v) offset
  = match dialect db with
    | SQLite =>
        comprehension _note_to_response
          (skipn (Z.to_nat offset) (promise_query db key status))
    | PostgreSQL => Err DBAPIError
    end.
Proof.
  intros Hv.
  unfold get_notes_by_author, get_notes_for_promise, Query_limit.
  fold (author_query db key status). fold (promise_query db key status).
  destruct (Z.leb_spec v 100) as [_ | ?]; [| lia]. cbn [rbind].
  unfold offset_limit.
  destruct (Z.ltb_spec v 0) as [_ | ?]; [| lia].
  rewrite orb_true_r. destruct (dialect db); split; reflexivity.
Qed.

(** X24. For both list handlers a limit above 100 is refused by the
    validation of the request, and the default page size is 50; a call
    with a limit that is not negative, and any call on a store that refuses
    a negative LIMIT, returns at most [limit] records, hence at most 100. *)
Theorem page_size_bounded db key status limit offset :
  (forall v, limit = Some v -> (100 < v)%Z ->
     get_notes_by_author db key status limit offset = Err RequestValidationError /\
     get_notes_for_promise db key status limit offset = Err RequestValidationError) /\
  (dialect db = PostgreSQL \/ (forall v, limit = Some v -> (0 <= v)%Z) ->
   forall resp,
     get_notes_by_author db key status limit offset = Ok resp \/
     get_notes_for_promise db key status limit offset = Ok resp ->
     exists n,
       Query_limit limit = Ok n /\ (limit = None -> n = 50%Z) /\
       (Z.of_nat (length resp) <= n)%Z /\ (length resp <= 100)%nat).
Proof.
  split.
  - intros v -> Hv. unfold get_notes_by_author, get_notes_for_promise, Query_limit.
    destruct (Z.leb_spec v 100) as [Hle | Hgt]; [lia |]. split; reflexivity.
  - intros Hd resp H.
    unfold get_notes_by_author, get_notes_for_promise in H.
    destruct (Query_limit limit) as [n |] eqn:Hq; cbn [rbind] in H;
      [| destruct H; discriminate].
    exists n. destruct (Query_limit_ok _ _ Hq) as (Hle & Hnone & _).
    assert (Hlen : (Z.of_nat (length resp) <= n)%Z).
    { destruct H as [H | H]; eapply page_length; eauto. }
    repeat split; [exact Hnone | exact Hlen | lia].
Qed.

Lemma page_size_bounded_witness :
  (get_notes_by_author crowded_store 1 None (Some 500%Z) 0 = Err RequestValidationError /\
   get_notes_for_promise crowded_store 1 None (Some 500%Z) 0 = Err RequestValidationError) /\
  (forall resp,
     get_notes_by_author crowded_store 1 None None 0 = Ok resp \/
     get_notes_for_promise crowded_store 1 None None 0 = Ok resp ->
     exists n,
       Query_limit None = Ok n /\ (@None Z = None -> n = 50%Z) /\
       (Z.of_nat (length resp) <= n)%Z /\ (length resp <= 100)%nat).
Proof.
  split.
  - apply (proj1 (page_size_bounded crowded_store 1 None (Some 500%Z) 0) 500%Z);
      [reflexivity | lia].
  - apply (proj2 (page_size_bounded crowded_store 1 None None 0)).
    right. intros v Hv. discriminate Hv.
Defined.

(** * Further properties of the handlers *)

(** ** What a response keeps of its note *)

Lemma response_of_fields n r :
  response_of n r ->
  NoteResponse.id r = Note.id n /\
  NoteResponse.promise_id r = Note.promise_id n /\
  NoteResponse.author_id r = Note.author_id n /\
  NoteResponse.status r = Note.status n /\
  NoteResponse.classification r = Note.classification n /\
  NoteResponse.note_intercept r = Note.note_intercept n /\
  NoteResponse.created_at r = Note.created_at n /\
  NoteResponse.scored_at r = Note.scored_at n.
Proof.
  unfold response_of, _note_to_response.
  destruct (read_sources (Note.sources n)); cbn [rbind]; [| discriminate].
  intros H; inversion H; subst. cbn. repeat split.
Qed.

(** ** The list handlers *)

Lemma get_notes_by_author_cases db author_id status limit offset resp :
  get_notes_by_author db author_id status limit offset = Ok resp ->
  exists n page,
    Query_limit limit = Ok n /\
    offset_limit (dialect db) offset n (author_query db author_id status) = Ok page /\
    Forall2 response_of page resp.
Proof.
  unfold get_notes_by_author. fold (author_query db author_id status).
  destruct (Query_limit limit) as [n |]; cbn [rbind]; [| discriminate].
  destruct (offset_limit (dialect db) offset n (author_query db author_id status))
    as [page |] eqn:E; cbn [rbind]; [| discriminate].
  intros H. apply comprehension_ok in H. exists n, page. repeat split; assumption.
Qed.

Lemma get_notes_for_promise_cases db promise_id status limit offset resp :
  get_notes_for_promise db promise_id status limit offset = Ok resp ->
  exists n page,
    Query_limit limit = Ok n /\
    offset_limit (dialect db) offset n (promise_query db promise_id status) = Ok page /\
    Forall2 response_of page resp.
Proof.
  unfold get_notes_for_promise. fold (promise_query db promise_id status).
  destruct (Query_limit limit) as [n |]; cbn [rbind]; [| discriminate].
  destruct (offset_limit (dialect db) offset n (promise_query db promise_id status))
    as [page |] eqn:E; cbn [rbind]; [| discriminate].
  intros H. apply comprehension_ok in H. exists n, page. repeat split; assumption.
Qed.



(** A page only holds rows of the query. *)
Lemma offset_limit_In {A} d offset limit (l page : list A) x :
  offset_limit d offset limit l = Ok page -> In x page -> In x l.
Proof.
  unfold offset_limit. destruct d.
  - intros H; inversion H; subst. destruct (limit <? 0)%Z.
    + apply In_skipn.
    + intros Hin. apply In_firstn in Hin. now apply In_skipn in Hin.
  - destruct ((offset <? 0) || (limit <? 0))%Z; [discriminate |].
    intros H; inversion H; subst.
    intros Hin. apply In_firstn in Hin. now apply In_skipn in Hin.
Qed.

Lemma filter_status_In status l n :
  In n (filter_status status l) <-> In n l /\ passes_status status (Note.status n).
Proof.
  unfold filter_status, passes_status. destruct status as [st |].
  - rewrite List.filter_In. unfold str_eq. rewrite bool_decide_eq_true.
    split; intros [Hin Hst]; (split; [exact Hin |]).
    + intros wanted Hw. inversion Hw; subst. exact Hst.
    + now apply Hst.
  - split; [intros H; split; [exact H | discriminate] | tauto].
Qed.

Lemma author_query_In db author_id status n :
  In n (author_query db author_id status) <->
  In n (rows db) /\ Note.author_id n = author_id /\
  passes_status status (Note.status n).
Proof.
  unfold author_query.
  split.
  - intros H. apply (Permutation_in _ (order_by_perm _ _)) in H.
    apply filter_status_In in H as [H Hst]. apply List.filter_In in H as [H Ha].
    apply Z.eqb_eq in Ha. auto.
  - intros (H & Ha & Hst).
    apply (Permutation_in _ (Permutation_sym (order_by_perm _ _))).
    apply filter_status_In. split; [| exact Hst].
    apply List.filter_In. split; [exact H | now apply Z.eqb_eq].
Qed.

Lemma promise_query_In db promise_id status n :
  In n (promise_query db promise_id status) <->
  In n (rows db) /\ Note.promise_id n = promise_id /\
  passes_status status (Note.status n).
Proof.
  unfold promise_query.
  split.
  - intros H. apply (Permutation_in _ (order_by_perm _ _)) in H.
    apply filter_status_In in H as [H Hst]. apply List.filter_In in H as [H Ha].
    apply Z.eqb_eq in Ha. auto.
  - intros (H & Ha & Hst).
    apply (Permutation_in _ (Permutation_sym (order_by_perm _ _))).
    apply filter_status_In. split; [| exact Hst].
    apply List.filter_In. split; [exact H | now apply Z.eqb_eq].
Qed.

Lemma Forall2_In_r {A B} (P : A -> B -> Prop) l l' y :
  Forall2 P l l' -> In y l' -> exists x, In x l /\ P x y.
Proof.
  induction 1 as [| x y' l l' Hxy Hall IH]; intros Hin; [destruct Hin |].
  destruct Hin as [-> | Hin]; [exists x; split; [now left | exact Hxy] |].
  destruct (IH Hin) as (x' & Hx' & HP). exists x'. split; [now right | exact HP].
Qed.

(** X1. Whatever the limit, the offset and the dialect, every note that
    [get_notes_by_author] returns is the response of a stored note of the
    requested author, and has the requested status when a status is given. *)
Theorem by_author_returns_only_matching db author_id status limit offset resp r :
  get_notes_by_author db author_id status limit offset = Ok resp ->
  In r resp ->
  (exists n, In n (rows db) /\ response_of n r) /\
  NoteResponse.author_id r = author_id /\
  passes_status status (NoteResponse.status r).
Proof.
  intros H Hin.
  apply get_notes_by_author_cases in H as (n & page & _ & Hpage & Hall).
  destruct (Forall2_In_r _ _ _ _ Hall Hin) as (note & Hnote & Hresp).
  apply (offset_limit_In _ _ _ _ _ _ Hpage) in Hnote.
  apply author_query_In in Hnote as (Hrow & Ha & Hst).
  destruct (response_of_fields _ _ Hresp) as (_ & _ & Ea & Es & _).
  rewrite Ea, Es. repeat split; try assumption. now exists note.
Qed.

(** X2. The same for [get_notes_for_promise] and the requested promise. *)
Theorem for_promise_returns_only_matching db promise_id status limit offset resp r :
  get_notes_for_promise db promise_id status limit offset = Ok resp ->
  In r resp ->
  (exists n, In n (rows db) /\ response_of n r) /\
  NoteResponse.promise_id r = promise_id /\
  passes_status status (NoteResponse.status r).
Proof.
  intros H Hin.
  apply get_notes_for_promise_cases in H as (n & page & _ & Hpage & Hall).
  destruct (Forall2_In_r _ _ _ _ Hall Hin) as (note & Hnote & Hresp).
  apply (offset_limit_In _ _ _ _ _ _ Hpage) in Hnote.
  apply promise_query_In in Hnote as (Hrow & Ha & Hst).
  destruct (response_of_fields _ _ Hresp) as (_ & Ep & _ & Es & _).
  rewrite Ep, Es. repeat split; try assumption. now exists note.
Qed.

(** ** The order of the pages *)

Lemma created_desc_asym x y : created_desc x y = true -> created_desc y x = false.
Proof. unfold created_desc. rewrite Z.ltb_lt, Z.ltb_ge. lia. Qed.

Lemma created_desc_negtrans x y z :
  created_desc x y = false -> created_desc y z = false -> created_desc x z = false.
Proof. unfold created_desc. rewrite !Z.ltb_ge. lia. Qed.

(** The order of an ORDER BY on floats is linear. *)
Lemma sql_float_cases x y :
  (sql_float_lt x y = true /\ sql_float_eq x y = false /\
   sql_float_eq y x = false /\ sql_float_lt y x = false) \/
  (sql_float_lt x y = false /\ sql_float_eq x y = true /\
   sql_float_eq y x = true /\ sql_float_lt y x = false) \/
  (sql_float_lt x y = false /\ sql_float_eq x y = false /\
   sql_float_eq y x = false /\ sql_float_lt y x = true).
Proof.
  destruct x as [p | [] |], y as [q | [] |]; cbn; try tauto.
  destruct (Qltb p q) eqn:E1; [apply Qltb_spec in E1 | apply Qltb_false in E1];
    (destruct (Qltb q p) eqn:E2; [apply Qltb_spec in E2 | apply Qltb_false in E2]);
    (destruct (Qeq_bool p q) eqn:E3; [apply Qeq_bool_iff in E3 | apply Qeq_bool_neq in E3]);
    (destruct (Qeq_bool q p) eqn:E4; [apply Qeq_bool_iff in E4 | apply Qeq_bool_neq in E4]);
    try tauto; exfalso; lra.
Qed.

Lemma sql_float_lt_trans x y z :
  sql_float_lt x y = true -> sql_float_lt y z = true -> sql_float_lt x z = true.
Proof.
  destruct x as [p | [] |], y as [q | [] |], z as [r | [] |]; cbn; try congruence.
  rewrite !Qltb_spec. intros. lra.
Qed.

Lemma sql_float_eq_trans x y z :
  sql_float_eq x y = true -> sql_float_eq y z = true -> sql_float_eq x z = true.
Proof.
  destruct x as [p | [] |], y as [q | [] |], z as [r | [] |]; cbn; try congruence.
  rewrite !Qeq_bool_iff. intros. lra.
Qed.

Lemma sql_float_eq_lt x y z :
  sql_float_eq x y = true -> sql_float_lt y z = true -> sql_float_lt x z = true.
Proof.
  destruct x as [p | [] |], y as [q | [] |], z as [r | [] |]; cbn; try congruence.
  rewrite !Qltb_spec, Qeq_bool_iff. intros. lra.
Qed.

Lemma sql_float_lt_eq x y z :
  sql_float_lt x y = true -> sql_float_eq y z = true -> sql_float_lt x z = true.
Proof.
  destruct x as [p | [] |], y as [q | [] |], z as [r | [] |]; cbn; try congruence.
  rewrite !Qltb_spec, Qeq_bool_iff. intros. lra.
Qed.

(** When [intercept_desc_nullslast] does not put [b] before [a]. *)
Lemma nullslast_false a b :
  intercept_desc_nullslast b a = false <->
  match Note.note_intercept a, Note.note_intercept b with
  | Some x, Some y =>
      sql_float_lt y x = true \/
      (sql_float_eq y x = true /\ (Note.created_at b <= Note.created_at a)%Z)
  | Some _, None => True
  | None, Some _ => False
  | None, None => (Note.created_at b <= Note.created_at a)%Z
  end.
Proof.
  unfold intercept_desc_nullslast, created_desc.
  destruct (Note.note_intercept a) as [x |], (Note.note_intercept b) as [y |].
  - rewrite orb_false_iff, andb_false_iff, Z.ltb_ge.
    destruct (sql_float_cases x y) as [(-> & _ & -> & ->) | [(-> & _ & -> & ->) | (-> & _ & -> & ->)]];
      intuition congruence.
  - split; [tauto | reflexivity].
  - split; [discriminate | tauto].
  - apply Z.ltb_ge.
Qed.

Lemma nullslast_true a b :
  intercept_desc_nullslast a b = true <->
  match Note.note_intercept a, Note.note_intercept b with
  | Some x, Some y =>
      sql_float_lt y x = true \/
      (sql_float_eq x y = true /\ (Note.created_at b < Note.created_at a)%Z)
  | Some _, None => True
  | None, Some _ => False
  | None, None => (Note.created_at b < Note.created_at a)%Z
  end.
Proof.
  unfold intercept_desc_nullslast, created_desc.
  destruct (Note.note_intercept a) as [x |], (Note.note_intercept b) as [y |].
  - rewrite orb_true_iff, andb_true_iff, Z.ltb_lt. reflexivity.
  - tauto.
  - split; [discriminate | tauto].
  - apply Z.ltb_lt.
Qed.

Lemma nullslast_asym x y :
  intercept_desc_nullslast x y = true -> intercept_desc_nullslast y x = false.
Proof.
  rewrite nullslast_true, nullslast_false.
  destruct (Note.note_intercept x) as [u |], (Note.note_intercept y) as [v |];
    try tauto; try lia.
  pose proof (sql_float_cases u v) as Hc. intuition (try congruence; try lia).
Qed.

Lemma nullslast_negtrans x y z :
  intercept_desc_nullslast x y = false -> intercept_desc_nullslast y z = false ->
  intercept_desc_nullslast x z = false.
Proof.
  rewrite !nullslast_false.
  destruct (Note.note_intercept x) as [u |], (Note.note_intercept y) as [v |],
    (Note.note_intercept z) as [w |]; try tauto; try lia.
  intros [H1 | [E1 C1]] [H2 | [E2 C2]].
  - left. exact (sql_float_lt_trans _ _ _ H1 H2).
  - left. exact (sql_float_lt_eq _ _ _ H1 E2).
  - left. exact (sql_float_eq_lt _ _ _ E1 H2).
  - right. split; [exact (sql_float_eq_trans _ _ _ E1 E2) | lia].
Qed.

Lemma StronglySorted_skipn {A} (R : A -> A -> Prop) n l :
  StronglySorted R l -> StronglySorted R (skipn n l).
Proof.
  revert l. induction n as [| n IH]; intros l H; [exact H |].
  destruct l as [| x l]; [exact H |]. cbn [skipn]. apply IH. now inversion H.
Qed.

Lemma StronglySorted_firstn {A} (R : A -> A -> Prop) n l :
  StronglySorted R l -> StronglySorted R (firstn n l).
Proof.
  revert l. induction n as [| n IH]; intros l H; [constructor |].
  destruct l as [| x l]; [constructor |]. cbn [firstn].
  inversion H as [| ? ? Hl Hx]; subst. constructor; [now apply IH |].
  apply List.Forall_forall. intros y Hy. apply In_firstn in Hy.
  revert y Hy. now apply List.Forall_forall.
Qed.

Lemma offset_limit_sorted {A} (R : A -> A -> Prop) d offset limit (l page : list A) :
  offset_limit d offset limit l = Ok page ->
  StronglySorted R l -> StronglySorted R page.
Proof.
  unfold offset_limit. intros H Hs. destruct d.
  - inversion H; subst. destruct (limit <? 0)%Z.
    + now apply StronglySorted_skipn.
    + now apply StronglySorted_firstn, StronglySorted_skipn.
  - destruct ((offset <? 0) || (limit <? 0))%Z; [discriminate |].
    inversion H; subst. now apply StronglySorted_firstn, StronglySorted_skipn.
Qed.

Lemma StronglySorted_Forall2 {A B} (P : A -> B -> Prop)
    (R : A -> A -> Prop) (R' : B -> B -> Prop) l l' :
  (forall a a' b b', P a a' -> P b b' -> R a b -> R' a' b') ->
  Forall2 P l l' -> StronglySorted R l -> StronglySorted R' l'.
Proof.
  intros HR. induction 1 as [| x y l l' Hxy Hall IH]; intros Hs; [constructor |].
  inversion Hs as [| ? ? Hl Hx]; subst. constructor; [now apply IH |].
  apply List.Forall_forall. intros y' Hy'.
  destruct (Forall2_In_r _ _ _ _ Hall Hy') as (x' & Hx' & HP).
  apply (HR x y x' y' Hxy HP).
  revert x' Hx' HP. intros x' Hx' _. revert x' Hx'. now apply List.Forall_forall.
Qed.

(** X3. The notes that [get_notes_by_author] returns are in the order of
    their creation, newest first: no note is older than one that follows
    it, whatever page is asked for. *)
Theorem by_author_newest_first db author_id status limit offset resp :
  get_notes_by_author db author_id status limit offset = Ok resp ->
  StronglySorted newest_first resp.
Proof.
  intros H. apply get_notes_by_author_cases in H as (n & page & _ & Hpage & Hall).
  apply (StronglySorted_Forall2 response_of
           (fun a b => created_desc b a = false) newest_first page resp);
    [| exact Hall |].
  - intros a a' b b' Ha Hb Hab.
    destruct (response_of_fields _ _ Ha) as (_ & _ & _ & _ & _ & _ & Eca & _).
    destruct (response_of_fields _ _ Hb) as (_ & _ & _ & _ & _ & _ & Ecb & _).
    unfold newest_first. rewrite Eca, Ecb.
    unfold created_desc in Hab. now apply Z.ltb_ge in Hab.
  - apply (offset_limit_sorted _ _ _ _ _ _ Hpage).
    apply order_by_ordered; [exact created_desc_asym | exact created_desc_negtrans].
Qed.

(** X4. The notes that [get_notes_for_promise] returns come with the
    greater intercept first and the notes without intercept last; notes
    with equal intercepts, and notes without intercept, come newest first. *)
Theorem for_promise_intercept_first db promise_id status limit offset resp :
  get_notes_for_promise db promise_id status limit offset = Ok resp ->
  StronglySorted intercept_first resp.
Proof.
  intros H. apply get_notes_for_promise_cases in H as (n & page & _ & Hpage & Hall).
  apply (StronglySorted_Forall2 response_of
           (fun a b => intercept_desc_nullslast b a = false) intercept_first page resp);
    [| exact Hall |].
  - intros a a' b b' Ha Hb Hab.
    destruct (response_of_fields _ _ Ha) as (_ & _ & _ & _ & _ & Eia & Eca & _).
    destruct (response_of_fields _ _ Hb) as (_ & _ & _ & _ & _ & Eib & Ecb & _).
    unfold intercept_first, newest_first. rewrite Eia, Eib, Eca, Ecb.
    now apply nullslast_false.
  - apply (offset_limit_sorted _ _ _ _ _ _ Hpage).
    apply order_by_ordered; [exact nullslast_asym | exact nullslast_negtrans].
Qed.

(** ** The size and the sequence of the pages *)

Lemma offset_limit_nonneg {A} d offset limit (l : list A) :
  (0 <= offset)%Z -> (0 <= limit)%Z ->
  offset_limit d offset limit l
  = Ok (firstn (Z.to_nat limit) (skipn (Z.to_nat offset) l)).
Proof.
  intros Ho Hl. unfold offset_limit.
  destruct (Z.ltb_spec offset 0) as [? | _]; [lia |].
  destruct (Z.ltb_spec limit 0) as [? | _]; [lia |].
  destruct d; reflexivity.
Qed.

Lemma page_exact_length {A} d offset limit (l page : list A) :
  (0 <= offset)%Z -> (0 <= limit)%Z ->
  offset_limit d offset limit l = Ok page ->
  Z.of_nat (length page) = Z.min limit (Z.max 0 (Z.of_nat (length l) - offset)).
Proof.
  intros Ho Hl H. rewrite offset_limit_nonneg in H by assumption.
  inversion H; subst. rewrite length_firstn, length_skipn. lia.
Qed.

(** X5. With an offset and a limit that are not negative, a page of either
    list handler holds exactly as many notes as the limit allows and the
    matching notes after the offset provide: the smaller of the limit and
    of the number of matching notes less the offset. *)
Theorem page_size_exact db key status limit offset n :
  Query_limit limit = Ok n -> (0 <= offset)%Z -> (0 <= n)%Z ->
  (forall resp,
     get_notes_by_author db key status limit offset = Ok resp ->
     Z.of_nat (length resp)
     = Z.min n (Z.max 0 (Z.of_nat (length (author_query db key status)) - offset))) /\
  (forall resp,
     get_notes_for_promise db key status limit offset = Ok resp ->
     Z.of_nat (length resp)
     = Z.min n (Z.max 0 (Z.of_nat (length (promise_query db key status)) - offset))).
Proof.
  intros Hq Ho Hn. split; intros resp H.
  - apply get_notes_by_author_cases in H as (n' & page & Hq' & Hpage & Hall).
    rewrite Hq in Hq'. inversion Hq'; subst n'.
    rewrite <- (Forall2_length _ _ _ Hall). now apply page_exact_length with (dialect db).
  - apply get_notes_for_promise_cases in H as (n' & page & Hq' & Hpage & Hall).
    rewrite Hq in Hq'. inversion Hq'; subst n'.
    rewrite <- (Forall2_length _ _ _ Hall). now apply page_exact_length with (dialect db).
Qed.

Lemma comprehension_of_Forall2 {A B} (f : A -> result B) l rs :
  Forall2 (fun x r => f x = Ok r) l rs -> comprehension f l = Ok rs.
Proof.
  induction 1 as [| x r l rs Hx Hall IH]; [reflexivity |].
  cbn [comprehension]. rewrite Hx, IH. reflexivity.
Qed.

Lemma firstn_skipn_next {A} n m o (l : list A) :
  firstn (n + m) (skipn o l) = firstn n (skipn o l) ++ firstn m (skipn (o + n) l).
Proof.
  rewrite (Nat.add_comm o n), <- skipn_skipn.
  generalize (skipn o l). clear l. intros l.
  revert l. induction n as [| n IH]; intros l; [reflexivity |].
  destruct l as [| x l]; cbn [Nat.add firstn skipn app].
  - now rewrite firstn_nil.
  - f_equal. apply IH.
Qed.

(** Two pages that follow each other make up the page of their joint size. *)
Lemma next_page {A} d offset n m (l p1 p2 : list A) :
  (0 <= offset)%Z -> (0 <= n)%Z -> (0 <= m)%Z ->
  offset_limit d offset n l = Ok p1 ->
  offset_limit d (offset + n) m l = Ok p2 ->
  offset_limit d offset (n + m) l = Ok (p1 ++ p2).
Proof.
  intros Ho Hn Hm H1 H2.
  rewrite offset_limit_nonneg in H1, H2 |- * by lia.
  inversion H1; inversion H2; subst. f_equal.
  rewrite !Z2Nat.inj_add by lia. apply firstn_skipn_next.
Qed.

Lemma filter_Permutation {A} (P : A -> bool) l l' :
  Permutation l l' -> Permutation (List.filter P l) (List.filter P l').
Proof.
  induction 1 as [| x l l' _ IH | x y l | l l' l'' _ IH1 _ IH2]; cbn [List.filter].
  - constructor.
  - destruct (P x); [now constructor | exact IH].
  - destruct (P x), (P y); try reflexivity. apply perm_swap.
  - now rewrite IH1.
Qed.

Lemma filter_status_Permutation status l l' :
  Permutation l l' -> Permutation (filter_status status l) (filter_status status l').
Proof.
  unfold filter_status. destruct status; [apply filter_Permutation | auto].
Qed.

(** Rows that the order separates come in one order only, in whatever
    order the engine scans them. *)
Lemma ordered_untied_unique {A} (lt : A -> A -> bool) l1 : forall l2,
  (forall x y, lt x y = true -> lt y x = false) ->
  untied lt l1 -> Permutation l1 l2 -> ordered lt l1 -> ordered lt l2 -> l1 = l2.
Proof.
  unfold ordered. intros l2 Hasym.
  assert (Hirr : forall x, lt x x = false).
  { intros x. destruct (lt x x) eqn:E; [| reflexivity]. now rewrite (Hasym x x E) in E. }
  revert l2. induction l1 as [| a t1 IH]; intros l2 Hun Hperm H1 H2.
  - now apply Permutation_nil in Hperm.
  - destruct l2 as [| b t2]; [now apply Permutation_sym, Permutation_nil in Hperm |].
    inversion H1 as [| ? ? S1 F1]; subst. inversion H2 as [| ? ? S2 F2]; subst.
    assert (Hina : In a (b :: t2)) by (eapply Permutation_in; [exact Hperm | now left]).
    assert (Hinb : In b (a :: t1))
      by (eapply Permutation_in; [symmetry; exact Hperm | now left]).
    assert (Hab : lt a b = false).
    { destruct Hina as [-> | Hin]; [apply Hirr |].
      rewrite List.Forall_forall in F2. now apply F2. }
    assert (Hba : lt b a = false).
    { destruct Hinb as [-> | Hin]; [apply Hirr |].
      rewrite List.Forall_forall in F1. now apply F1. }
    assert (E : a = b) by (apply Hun; [now left | exact Hinb | exact Hab | exact Hba]).
    subst b. f_equal. apply IH; [| now apply Permutation_cons_inv in Hperm | exact S1 | exact S2].
    intros x y Hx Hy. apply Hun; now right.
Qed.

Lemma order_by_untied_unique {A} (lt : A -> A -> bool) l1 l2 :
  (forall x y, lt x y = true -> lt y x = false) ->
  (forall x y z, lt x y = false -> lt y z = false -> lt x z = false) ->
  untied lt (order_by lt l1) -> Permutation l1 l2 ->
  order_by lt l1 = order_by lt l2.
Proof.
  intros Hasym Hneg Hun Hperm.
  apply (ordered_untied_unique lt); [exact Hasym | exact Hun | | |];
    [| now apply order_by_ordered | now apply order_by_ordered].
  rewrite !order_by_perm. exact Hperm.
Qed.

Lemma author_query_scan db1 db2 key status :
  Permutation (rows db1) (rows db2) ->
  untied created_desc (author_query db1 key status) ->
  author_query db2 key status = author_query db1 key status.
Proof.
  intros Hperm Hun. symmetry. unfold author_query in *.
  apply order_by_untied_unique;
    [exact created_desc_asym | exact created_desc_negtrans | exact Hun |].
  now apply filter_status_Permutation, filter_Permutation.
Qed.

Lemma promise_query_scan db1 db2 key status :
  Permutation (rows db1) (rows db2) ->
  untied intercept_desc_nullslast (promise_query db1 key status) ->
  promise_query db2 key status = promise_query db1 key status.
Proof.
  intros Hperm Hun. symmetry. unfold promise_query in *.
  apply order_by_untied_unique;
    [exact nullslast_asym | exact nullslast_negtrans | exact Hun |].
  now apply filter_status_Permutation, filter_Permutation.
Qed.

(** X6. Pages follow each other without gap or overlap as long as the
    order of the query leaves no two matching notes tied.  Each of the
    three calls is a query of its own, for which the engine may scan the
    same rows in another order ([db1], [db2] and [db3] hold the same rows).
    Then, in either list handler, the page of [n] notes at an offset,
    followed by the page of [m] notes at that offset plus [n], is the page
    of [n + m] notes at the offset (all three within the bound of 100).
    The order of tied rows is left to the engine, call by call, and
    nothing is stated about them. *)
Theorem consecutive_pages db1 db2 db3 key status offset n m :
  Permutation (rows db1) (rows db2) -> Permutation (rows db1) (rows db3) ->
  (0 <= offset)%Z -> (0 <= n)%Z -> (0 <= m)%Z -> (n + m <= 100)%Z ->
  (untied created_desc (author_query db1 key status) ->
   forall p1 p2,
     get_notes_by_author db1 key status (Some n) offset = Ok p1 ->
     get_notes_by_author db2 key status (Some m) (offset + n) = Ok p2 ->
     get_notes_by_author db3 key status (Some (n + m)%Z) offset = Ok (p1 ++ p2)) /\
  (untied intercept_desc_nullslast (promise_query db1 key status) ->
   forall p1 p2,
     get_notes_for_promise db1 key status (Some n) offset = Ok p1 ->
     get_notes_for_promise db2 key status (Some m) (offset + n) = Ok p2 ->
     get_notes_for_promise db3 key status (Some (n + m)%Z) offset = Ok (p1 ++ p2)).
Proof.
  intros Hp2 Hp3 Ho Hn Hm Hnm.
  assert (Hq : Query_limit (Some (n + m)%Z) = Ok (n + m)%Z).
  { unfold Query_limit. destruct (Z.leb_spec (n + m) 100) as [_ | ?]; [reflexivity | lia]. }
  assert (Hsome : forall v k, Query_limit (Some v) = Ok k -> k = v).
  { intros v k H. now apply (Query_limit_ok _ _ H). }
  split; intros Hun p1 p2 H1 H2.
  - apply get_notes_by_author_cases in H1 as (n1 & page1 & Hq1 & Hp1 & Hall1).
    apply get_notes_by_author_cases in H2 as (n2 & page2 & Hq2 & Hp2' & Hall2).
    apply Hsome in Hq1, Hq2. subst n1 n2.
    rewrite (author_query_scan db1 db2 key status Hp2 Hun) in Hp2'.
    unfold get_notes_by_author. fold (author_query db3 key status).
    rewrite (author_query_scan db1 db3 key status Hp3 Hun).
    rewrite Hq. cbn [rbind].
    rewrite offset_limit_nonneg in Hp1, Hp2' by lia.
    rewrite offset_limit_nonneg by lia.
    rewrite <- (offset_limit_nonneg (dialect db1)) in Hp1, Hp2' by lia.
    rewrite <- (offset_limit_nonneg (dialect db1)) by lia.
    rewrite (next_page _ _ _ _ _ _ _ Ho Hn Hm Hp1 Hp2'). cbn [rbind].
    apply comprehension_of_Forall2. now apply Forall2_app.
  - apply get_notes_for_promise_cases in H1 as (n1 & page1 & Hq1 & Hp1 & Hall1).
    apply get_notes_for_promise_cases in H2 as (n2 & page2 & Hq2 & Hp2' & Hall2).
    apply Hsome in Hq1, Hq2. subst n1 n2.
    rewrite (promise_query_scan db1 db2 key status Hp2 Hun) in Hp2'.
    unfold get_notes_for_promise. fold (promise_query db3 key status).
    rewrite (promise_query_scan db1 db3 key status Hp3 Hun).
    rewrite Hq. cbn [rbind].
    rewrite offset_limit_nonneg in Hp1, Hp2' by lia.
    rewrite offset_limit_nonneg by lia.
    rewrite <- (offset_limit_nonneg (dialect db1)) in Hp1, Hp2' by lia.
    rewrite <- (offset_limit_nonneg (dialect db1)) by lia.
    rewrite (next_page _ _ _ _ _ _ _ Ho Hn Hm Hp1 Hp2'). cbn [rbind].
    apply comprehension_of_Forall2. now apply Forall2_app.
Qed.

(** X26. With tied notes the pages of two calls need not fit together:
    two notes of one author created at the same time, taken up by the
    engine in one order for the first call and in the other order for the
    second, give the same note on the first page and on the second, and
    the other note on neither. *)
Theorem tied_pages_may_overlap :
  Permutation (rows tied_example) (rows tied_example_rescanned) /\
  (exists p1 p2,
     get_notes_by_author tied_example 7 None (Some 1%Z) 0 = Ok p1 /\
     get_notes_by_author tied_example_rescanned 7 None (Some 1%Z) 1 = Ok p2 /\
     map NoteResponse.id p1 = [1]%Z /\
     map NoteResponse.id p2 = [1]%Z) /\
  (exists p1 p2,
     get_notes_for_promise tied_example 7 None (Some 1%Z) 0 = Ok p1 /\
     get_notes_for_promise tied_example_rescanned 7 None (Some 1%Z) 1 = Ok p2 /\
     map NoteResponse.id p1 = [1]%Z /\
     map NoteResponse.id p2 = [1]%Z).
Proof.
  split; [apply perm_swap |].
  split; do 2 eexists;
    (split; [vm_compute; reflexivity |]); (split; [vm_compute; reflexivity |]);
    split; reflexivity.
Qed.

(** X7. A list call fails in three ways only: the limit is above 100, the
    store refuses a negative limit or offset, or the response of a stored
    note that matches the query cannot be built; in the last case the
    error is the one of that note. *)
Theorem list_failures db key status limit offset e :
  (get_notes_by_author db key status limit offset = Err e ->
   e = RequestValidationError \/
   (e = DBAPIError /\ dialect db = PostgreSQL) \/
   exists n, In n (author_query db key status) /\ _note_to_response n = Err e) /\
  (get_notes_for_promise db key status limit offset = Err e ->
   e = RequestValidationError \/
   (e = DBAPIError /\ dialect db = PostgreSQL) \/
   exists n, In n (promise_query db key status) /\ _note_to_response n = Err e).
Proof.
  assert (Hgen : forall (query : list Note.t),
    (try! n := Query_limit limit in
     try! notes := offset_limit (dialect db) offset n query in
     comprehension _note_to_response notes) = Err e ->
    e = RequestValidationError \/
    (e = DBAPIError /\ dialect db = PostgreSQL) \/
    exists n, In n query /\ _note_to_response n = Err e).
  { intros query H.
    destruct (Query_limit limit) as [n |] eqn:Hq; cbn [rbind] in H.
    - destruct (offset_limit (dialect db) offset n query) as [page |] eqn:Hp;
        cbn [rbind] in H.
      + right. right. apply comprehension_err in H as (x & Hin & Hx).
        exists x. split; [| exact Hx]. now apply (offset_limit_In _ _ _ _ _ _ Hp).
      + right. left. inversion H; subst. unfold offset_limit in Hp.
        destruct (dialect db); [discriminate |].
        destruct ((offset <? 0) || (n <? 0))%Z; inversion Hp. now split.
    - left. unfold Query_limit in Hq. destruct limit as [v |]; [| discriminate].
      destruct (v <=? 100)%Z; inversion Hq; subst. now inversion H. }
  split; intros H; [apply (Hgen (author_query db key status)) |
                    apply (Hgen (promise_query db key status))]; exact H.
Qed.

(** ** Reading one note *)

Lemma first_with_id_some db note_id n :
  first_with_id db note_id = Some n -> In n (rows db) /\ Note.id n = note_id.
Proof.
  unfold first_with_id. intros H. apply find_some in H as [Hin Hid].
  split; [exact Hin | now apply Z.eqb_eq].
Qed.

Lemma first_with_id_none db note_id :
  first_with_id db note_id = None <-> forall n, In n (rows db) -> Note.id n <> note_id.
Proof.
  unfold first_with_id. split.
  - intros H n Hin Hid. apply (find_none _ _ H) in Hin.
    apply Z.eqb_neq in Hin. contradiction.
  - intros H. destruct (find _ (rows db)) as [n |] eqn:E; [| reflexivity].
    apply find_some in E as [Hin Hid]. apply Z.eqb_eq in Hid.
    exfalso. now apply (H n).
Qed.

(** X8. [get_note] answers with a note that has the requested id and is
    the response of a stored note; it answers 404 exactly when no stored
    note has the id, and otherwise fails only with the error of building
    the response of the note that has it. *)
Theorem get_note_outcome db note_id :
  match get_note db note_id with
  | Ok r =>
      NoteResponse.id r = note_id /\
      exists n, In n (rows db) /\ response_of n r
  | Err e =>
      (e = not_found /\ forall n, In n (rows db) -> Note.id n <> note_id) \/
      (exists n, In n (rows db) /\ Note.id n = note_id /\ _note_to_response n = Err e)
  end.
Proof.
  unfold get_note. fold (first_with_id db note_id).
  destruct (first_with_id db note_id) as [n |] eqn:E.
  - apply first_with_id_some in E as [Hin Hid].
    destruct (_note_to_response n) as [r | e] eqn:Hr.
    + destruct (response_of_fields n r Hr) as (Ei & _). rewrite Ei.
      split; [exact Hid | now exists n].
    + right. now exists n.
  - left. split; [reflexivity | now apply first_with_id_none].
Qed.

(** ** Deleting *)

Lemma find_filter_other (i j : Z) (l : list Note.t) :
  j <> i ->
  find (fun n => (Note.id n =? j)%Z)
       (List.filter (fun n => negb (Note.id n =? i)%Z) l)
  = find (fun n => (Note.id n =? j)%Z) l.
Proof.
  intros Hne. induction l as [| x l IH]; [reflexivity |].
  cbn [List.filter find].
  destruct (Z.eqb_spec (Note.id x) i) as [Ei | Ni]; cbn [negb find].
  - destruct (Z.eqb_spec (Note.id x) j) as [Ej | Nj]; [congruence | exact IH].
  - destruct (Note.id x =? j)%Z; [reflexivity | exact IH].
Qed.

Lemma find_filter_same (i : Z) (l : list Note.t) :
  find (fun n => (Note.id n =? i)%Z)
       (List.filter (fun n => negb (Note.id n =? i)%Z) l) = None.
Proof.
  induction l as [| x l IH]; [reflexivity |].
  cbn [List.filter]. destruct (Note.id x =? i)%Z eqn:E; cbn [negb find]; [exact IH |].
  now rewrite E.
Qed.

(** When [delete_note] succeeds, and what it leaves. *)
Lemma delete_note_cases db note_id author_id db' :
  delete_note db note_id author_id = Ok db' <->
  exists note,
    first_with_id db note_id = Some note /\
    Note.author_id note = author_id /\
    has_status CURRENTLY_RATED_HELPFUL note = false /\
    db' = mkDb (dialect db)
               (List.filter (fun n => negb (Note.id n =? note_id)%Z) (rows db))
               (next_id db) (clock db).
Proof.
  unfold delete_note. fold (first_with_id db note_id).
  destruct (first_with_id db note_id) as [note |] eqn:E.
  - destruct (first_with_id_some _ _ _ E) as [_ Hid].
    destruct (Z.eqb_spec (Note.author_id note) author_id) as [Ha | Ha]; cbn [negb].
    + destruct (has_status CURRENTLY_RATED_HELPFUL note) eqn:Hs.
      * split; [discriminate | intros (n' & Hn' & _ & Hs' & _)].
        inversion Hn'; subst n'. congruence.
      * unfold db_delete. rewrite Hid. split.
        -- intros H; inversion H; subst. exists note. repeat split; assumption.
        -- intros (n' & _ & _ & _ & ->). reflexivity.
    + split; [discriminate | intros (n' & Hn' & Ha' & _)].
      inversion Hn'; subst n'. contradiction.
  - split; [discriminate | intros (n' & Hn' & _)]. discriminate.
Qed.

(** X9. [delete_note] succeeds exactly when a note has the id, the
    requester is the author of the first such note and that note is not
    rated helpful; the store it leaves is the old one without the rows that
    carry the id. *)
Theorem delete_note_succeeds_iff db note_id author_id db' :
  delete_note db note_id author_id = Ok db' <->
  exists note,
    first_with_id db note_id = Some note /\
    Note.author_id note = author_id /\
    has_status CURRENTLY_RATED_HELPFUL note = false /\
    db' = mkDb (dialect db)
               (List.filter (fun n => negb (Note.id n =? note_id)%Z) (rows db))
               (next_id db) (clock db).
Proof.
  split.
  - intros H. now apply delete_note_cases in H.
  - intros H. now apply delete_note_cases.
Qed.

(** X10. After a deletion that succeeded the note is gone: reading it and
    deleting it again both answer 404, while reading any other note
    answers what it answered before. *)
Theorem deleted_note_is_gone db note_id author_id db' :
  delete_note db note_id author_id = Ok db' ->
  get_note db' note_id = Err not_found /\
  (forall requester, delete_note db' note_id requester = Err not_found) /\
  (forall other, other <> note_id -> get_note db' other = get_note db other).
Proof.
  intros H. apply delete_note_cases in H as (note & _ & _ & _ & ->).
  unfold get_note, delete_note. cbn [rows].
  rewrite find_filter_same. repeat split.
  intros other Hne. now rewrite find_filter_other.
Qed.

Lemma filter_NoDup_map {A B} (f : A -> B) (P : A -> bool) l :
  List.NoDup (map f l) -> List.NoDup (map f (List.filter P l)).
Proof.
  induction l as [| x l IH]; intros H; [exact H |].
  cbn [map] in H. inversion H as [| ? ? Hx Hl]; subst.
  cbn [List.filter]. destruct (P x); [| now apply IH].
  cbn [map]. constructor; [| now apply IH].
  intros Hin. apply Hx. apply in_map_iff in Hin as (y & Hy & Hin).
  apply List.filter_In in Hin as [Hin _]. apply in_map_iff. now exists y.
Qed.

Lemma filter_one_out (i : Z) (l : list Note.t) :
  List.NoDup (map Note.id l) -> In i (map Note.id l) ->
  S (length (List.filter (fun n => negb (Note.id n =? i)%Z) l)) = length l.
Proof.
  induction l as [| x l IH]; intros Hnd Hin; [destruct Hin |].
  cbn [map] in Hnd, Hin. inversion Hnd as [| ? ? Hx Hl]; subst.
  cbn [List.filter length].
  destruct (Z.eqb_spec (Note.id x) i) as [E | N]; cbn [negb length].
  - f_equal. subst i. clear IH Hin Hnd Hl.
    induction l as [| y l IH]; [reflexivity |].
    cbn [List.filter map In] in *.
    destruct (Z.eqb_spec (Note.id y) (Note.id x)) as [E | N]; cbn [negb length].
    + exfalso. apply Hx. now left.
    + f_equal. apply IH. tauto.
  - f_equal. apply IH; [exact Hl |]. destruct Hin as [Hin | Hin]; [contradiction | exact Hin].
Qed.

(** X11. In a store whose keys are distinct a deletion that succeeds
    removes exactly one note, and the keys stay distinct and below the
    next key. *)
Theorem delete_note_removes_one db note_id author_id db' :
  keys_ok db ->
  delete_note db note_id author_id = Ok db' ->
  S (length (rows db')) = length (rows db) /\ keys_ok db'.
Proof.
  intros [Hnd Hlt] H.
  apply delete_note_cases in H as (note & Hfind & _ & _ & ->).
  apply first_with_id_some in Hfind as [Hin Hid]. cbn [rows]. split.
  - apply filter_one_out; [exact Hnd |]. apply in_map_iff. now exists note.
  - split; cbn [rows next_id].
    + now apply filter_NoDup_map.
    + apply List.Forall_forall. intros n Hn. apply List.filter_In in Hn as [Hn _].
      revert n Hn. now apply List.Forall_forall.
Qed.

(** ** Creating *)

Lemma find_app_one {A} (f : A -> bool) l x :
  find f (l ++ [x]) =
  match find f l with
  | Some y => Some y
  | None => if f x then Some x else None
  end.
Proof.
  induction l as [| y l IH]; cbn [app find]; [reflexivity |].
  destruct (f y); [reflexivity | exact IH].
Qed.

(** The row that [create_note] adds. *)
Lemma create_note_store request db :
  exists note,
    snd (create_note request db)
    = mkDb (dialect db) (rows db ++ [note]) (next_id db + 1)%Z (clock db) /\
    fst (create_note request db) = _note_to_response note /\
    Note.id note = next_id db /\
    Note.promise_id note = CreateNoteRequest.promise_id request /\
    Note.author_id note = CreateNoteRequest.author_id request /\
    Note.status note = NoteStatus_value NEEDS_MORE_RATINGS /\
    Note.classification note = CreateNoteRequest.classification_value request /\
    Note.sources note = Some (json.dumps (CreateNoteRequest.sources request)).
Proof. unfold create_note. eexists. cbn [fst snd]. repeat split. Qed.

(** X12. [create_note] adds one note and touches no other: every id but
    the one it assigns reads as before, and distinct keys stay distinct and
    below the next key. *)
Theorem create_note_keeps_the_rest request db :
  let db' := snd (create_note request db) in
  length (rows db') = S (length (rows db)) /\
  (forall other, other <> next_id db -> get_note db' other = get_note db other) /\
  (keys_ok db -> keys_ok db').
Proof.
  intros db'. subst db'.
  destruct (create_note_store request db) as (note & -> & _ & Hid & _).
  cbn [rows next_id]. split; [| split].
  - rewrite length_app. cbn [length]. lia.
  - intros other Hne. unfold get_note. cbn [rows]. rewrite find_app_one.
    destruct (find _ (rows db)); [reflexivity |].
    rewrite Hid. destruct (Z.eqb_spec (next_id db) other); [congruence | reflexivity].
  - intros [Hnd Hlt]. split; cbn [rows next_id].
    + rewrite map_app. cbn [map].
      apply List.NoDup_app; [exact Hnd | repeat constructor; intros [] |].
      intros i Hi [<- | []]. apply in_map_iff in Hi as (n & En & Hn).
      rewrite List.Forall_forall in Hlt. specialize (Hlt n Hn). lia.
    + apply List.Forall_app. split.
      * eapply List.Forall_impl; [| exact Hlt]. intros n Hn. cbn beta in *. lia.
      * constructor; [lia | constructor].
Qed.

(** X13. In a store whose keys are below the next key, the note that
    [create_note] returns can be read back at once: [get_note] on its id
    answers the same response. *)
Theorem created_note_is_readable request db resp :
  keys_ok db ->
  fst (create_note request db) = Ok resp ->
  NoteResponse.id resp = next_id db /\
  get_note (snd (create_note request db)) (NoteResponse.id resp) = Ok resp.
Proof.
  intros [_ Hlt] Hresp.
  destruct (create_note_store request db) as (note & -> & Hfst & Hid & _).
  rewrite Hfst in Hresp.
  destruct (response_of_fields note resp Hresp) as (Ei & _).
  rewrite Ei, Hid. split; [reflexivity |].
  unfold get_note. cbn [rows]. rewrite find_app_one.
  destruct (find _ (rows db)) as [n |] eqn:E.
  - apply find_some in E as [Hin Hn]. apply Z.eqb_eq in Hn.
    rewrite List.Forall_forall in Hlt. specialize (Hlt n Hin). lia.
  - rewrite Hid, Z.eqb_refl. exact Hresp.
Qed.

(** ** The scored view, further *)

(** X14. For a promise without notes the scored view is the empty ranking
    with all counters at zero and no scoring time. *)
Theorem scored_view_of_no_notes db promise_id :
  notes_of_promise db promise_id = [] ->
  get_scored_notes_for_promise db promise_id
  = Ok (ScoredNotesResponse.mk promise_id [] 0 0 0 None (lit "1.0.0")).
Proof.
  intros H. unfold get_scored_notes_for_promise.
  fold (notes_of_promise db promise_id). rewrite H. reflexivity.
Qed.

Lemma filter_three_way {A} (P Q : A -> bool) l :
  (forall x, P x = true -> Q x = false) ->
  length l = (length (List.filter P l) + length (List.filter Q l)
              + length (List.filter (fun x => negb (P x) && negb (Q x)) l))%nat.
Proof.
  intros Hdisj. induction l as [| x l IH]; [reflexivity |].
  cbn [List.filter length]. specialize (Hdisj x).
  destruct (P x) eqn:Px, (Q x) eqn:Qx; cbn [negb andb length];
    [specialize (Hdisj eq_refl); discriminate | lia | lia | lia].
Qed.

(** X15. In every scored view the notes split three ways: [total_notes] is
    [helpful_notes_count] plus [needs_more_ratings_count] plus the number
    of notes of the promise that have neither status. *)
Theorem scored_counts_partition db promise_id resp :
  get_scored_notes_for_promise db promise_id = Ok resp ->
  ScoredNotesResponse.total_notes resp =
  (ScoredNotesResponse.helpful_notes_count resp
   + ScoredNotesResponse.needs_more_ratings_count resp
   + Z.of_nat (length (List.filter
                         (fun n => negb (has_status CURRENTLY_RATED_HELPFUL n)
                                   && negb (has_status NEEDS_MORE_RATINGS n))
                         (notes_of_promise db promise_id))))%Z.
Proof.
  intros H. pose proof (get_scored_notes_cases db promise_id) as Hc.
  cbv zeta in Hc. rewrite H in Hc. destruct Hc as (_ & -> & -> & -> & _).
  rewrite !py_sum_ones.
  rewrite (filter_three_way (has_status CURRENTLY_RATED_HELPFUL)
             (has_status NEEDS_MORE_RATINGS) (notes_of_promise db promise_id)); [lia |].
  intros n Hn. apply has_status_spec in Hn.
  destruct (has_status NEEDS_MORE_RATINGS n) eqn:E; [| reflexivity].
  apply has_status_spec in E. rewrite Hn in E. discriminate.
Qed.



Lemma Forall2_split_at {A B} (P : A -> B -> Prop) l before r after :
  Forall2 P l (before ++ r :: after) ->
  exists l1 a l2, l = l1 ++ a :: l2 /\ P a r /\ Forall2 P l2 after.
Proof.
  intros H. apply Forall2_app_inv_r in H as (l1 & rest & _ & Hrest & ->).
  inversion Hrest as [| a ? l2 ? Ha Hl2]; subst.
  exists l1, a, l2. repeat split; assumption.
Qed.

Lemma intercept_or_scored n x :
  Note.note_intercept n = Some x -> float_truthy x = true -> intercept_or n = x.
Proof.
  intros E Hx. unfold intercept_or. now rewrite E, Hx.
Qed.

Lemma intercept_or_unscored n :
  (forall x, ~ (Note.note_intercept n = Some x /\ float_truthy x = true)) ->
  intercept_or n = Fin (-999).
Proof.
  intros H. unfold intercept_or. destruct (Note.note_intercept n) as [x |]; [| reflexivity].
  destruct (float_truthy x) eqn:Ex; [| reflexivity].
  exfalso. apply (H x). now split.
Qed.

(** X17. As long as no note of the promise has NaN for its intercept:
    within a tier of the ranking, of two notes whose intercepts are set
    and not zero the first has not the smaller intercept; and a note whose
    intercept is missing or zero comes before such a note only when the
    intercept of the latter is not greater than -999.  (Without NaN, [x]
    not being smaller than [y] is [y] being smaller than or equal to [x].) *)
Theorem scored_view_intercept_order db promise_id resp before r1 between r2 after y :
  List.Forall (fun n => intercept_is_nan n = false) (notes_of_promise db promise_id) ->
  get_scored_notes_for_promise db promise_id = Ok resp ->
  ScoredNotesResponse.notes resp = before ++ r1 :: between ++ r2 :: after ->
  (rated_helpful r1 <-> rated_helpful r2) ->
  scored_intercept r2 y ->
  is_nan y = false /\
  (forall x, scored_intercept r1 x -> is_nan x = false /\ float_lt x y = false) /\
  ((forall x, ~ scored_intercept r1 x) -> float_lt (Fin (-999)) y = false).
Proof.
  intros HG H Hnotes Htier [Hy Hy0].
  pose proof (get_scored_notes_cases db promise_id) as Hc.
  cbv zeta in Hc. rewrite H in Hc. destruct Hc as (Hall & _).
  rewrite Hnotes in Hall.
  apply Forall2_split_at in Hall as (l1 & a & rest & Hsorted & Ha & Hrest).
  apply Forall2_split_at in Hrest as (l2 & b & l3 & -> & Hb & _).
  destruct (response_of_fields _ _ Ha) as (_ & _ & _ & Esa & _ & Eia & _).
  destruct (response_of_fields _ _ Hb) as (_ & _ & _ & Esb & _ & Eib & _).
  assert (Hsame : has_status CURRENTLY_RATED_HELPFUL a
                  = has_status CURRENTLY_RATED_HELPFUL b).
  { unfold rated_helpful in Htier. rewrite Esa, Esb in Htier.
    destruct (has_status CURRENTLY_RATED_HELPFUL a) eqn:E1,
             (has_status CURRENTLY_RATED_HELPFUL b) eqn:E2; try reflexivity.
    - apply has_status_spec in E1. apply Htier in E1.
      apply has_status_spec in E1. congruence.
    - apply has_status_spec in E2. apply Htier in E2.
      apply has_status_spec in E2. congruence. }
  pose proof (ranking_within_tier _ _ _ _ _ _ HG Hsorted Hsame) as Hle.
  assert (Hin : forall n, In n (l1 ++ a :: l2 ++ b :: l3) -> intercept_is_nan n = false).
  { intros n Hn. rewrite <- Hsorted in Hn.
    apply (Permutation_in _ (sorted_perm key_lt _)) in Hn.
    rewrite List.Forall_forall in HG. now apply HG. }
  assert (Ga : intercept_is_nan a = false).
  { apply Hin. apply in_or_app. right. now left. }
  assert (Gb : intercept_is_nan b = false).
  { apply Hin. apply in_or_app. right. right. apply in_or_app. right. now left. }
  rewrite Eib in Hy. rewrite (intercept_or_scored b y Hy Hy0) in Hle.
  split; [| split].
  - unfold intercept_is_nan in Gb. now rewrite Hy in Gb.
  - intros x [Hx Hx0]. rewrite Eia in Hx.
    rewrite (intercept_or_scored a x Hx Hx0) in Hle. split; [| exact Hle].
    unfold intercept_is_nan in Ga. now rewrite Hx in Ga.
  - intros Hnone. rewrite intercept_or_unscored in Hle; [exact Hle |].
    intros x Hx. apply (Hnone x). unfold scored_intercept. now rewrite Eia.
Qed.

(** X27. With a NaN among the intercepts the notes of a tier need not be
    in the order of their intercepts: fetched with -2.0, NaN and -1.0,
    three notes of one tier are returned as they were fetched, the note
    with -2.0 before the note with -1.0. *)
Theorem nan_intercept_breaks_intercept_order :
  exists resp,
    get_scored_notes_for_promise nan_between_example 7 = Ok resp /\
    map NoteResponse.id (ScoredNotesResponse.notes resp) = [1; 2; 3]%Z /\
    map NoteResponse.note_intercept (ScoredNotesResponse.notes resp)
      = [Some (Fin (-2)); Some Nan; Some (Fin (-1))].
Proof. eexists. split; [vm_compute; reflexivity |]. split; reflexivity. Qed.

(** ** The classification statistics, further *)

Lemma dict_total_insert (d : gmap pystr Z) c k :
  d !! c = None -> dict_total (<[c := k]> d) = (k + dict_total d)%Z.
Proof.
  intros Hc. unfold dict_total. apply map_fold_insert_L; [| exact Hc].
  intros. lia.
Qed.

Lemma dict_total_fold results : forall (d : gmap pystr Z),
  List.NoDup (map fst results) ->
  (forall c, In c (map fst results) -> d !! c = None) ->
  dict_total (fold_left (fun d r => <[fst r := snd r]> d) results d)
  = (fold_right Z.add 0%Z (map snd results) + dict_total d)%Z.
Proof.
  induction results as [| [c k] r IH]; intros d Hnd Hfresh; [reflexivity |].
  cbn [fold_left map fst snd fold_right] in *.
  inversion Hnd as [| ? ? Hc Hr]; subst.
  rewrite IH; [| exact Hr |].
  - rewrite dict_total_insert by (apply Hfresh; now left). lia.
  - intros c' Hc'. rewrite lookup_insert_ne by (intros ->; contradiction).
    apply Hfresh. now right.
Qed.

Lemma count_group_total c groups :
  fold_right Z.add 0%Z (map snd (count_group c groups))
  = (fold_right Z.add 0%Z (map snd groups) + 1)%Z.
Proof.
  induction groups as [| [d k] r IH]; cbn [count_group map snd fold_right]; [lia |].
  destruct (str_eq d c); cbn [map snd fold_right]; [lia | rewrite IH; lia].
Qed.

Lemma group_by_count_total l : forall groups,
  fold_right Z.add 0%Z (map snd (fold_left (fun g x => count_group x g) l groups))
  = (fold_right Z.add 0%Z (map snd groups) + Z.of_nat (length l))%Z.
Proof.
  induction l as [| x l IH]; intros groups; cbn [fold_left length]; [lia |].
  rewrite IH, count_group_total. lia.
Qed.

(** X18. The counts of the classification statistics add up to the number
    of helpful notes of the promise: whenever the scored view of the
    promise is served, their sum is its [helpful_notes_count]. *)
Theorem classification_counts_add_up db promise_id resp :
  get_scored_notes_for_promise db promise_id = Ok resp ->
  dict_total (snd (get_notes_by_classification db promise_id))
  = ScoredNotesResponse.helpful_notes_count resp.
Proof.
  intros H. pose proof (get_scored_notes_cases db promise_id) as Hc.
  cbv zeta in Hc. rewrite H in Hc. destruct Hc as (_ & _ & -> & _).
  rewrite py_sum_ones. unfold get_notes_by_classification, dict_of, group_by_count.
  cbn [snd].
  rewrite dict_total_fold;
    [| apply fold_count_group_keys; constructor | intros; apply lookup_empty].
  rewrite group_by_count_total. cbn [map fold_right].
  unfold dict_total. rewrite map_fold_empty.
  rewrite length_map. unfold notes_of_promise. rewrite filter_filter. lia.
Qed.

(** ** The stored sources, further *)

Section JsonFurther.
Import json.

Lemma escape_of_surrogate c :
  126 < c -> c < 65536 ->
  (if needs_escape c then replace c else [c]) = lit "\u" ++ format_04x c.
Proof.
  intros Hlo Hhi. unfold needs_escape, replace.
  destruct (N.eqb_spec c 92) as [? | _]; [lia |].
  destruct (N.eqb_spec c 34) as [? | _]; [lia |].
  destruct (N.eqb_spec c 8) as [? | _]; [lia |].
  destruct (N.eqb_spec c 12) as [? | _]; [lia |].
  destruct (N.eqb_spec c 10) as [? | _]; [lia |].
  destruct (N.eqb_spec c 13) as [? | _]; [lia |].
  destruct (N.eqb_spec c 9) as [? | _]; [lia |].
  destruct (N.ltb_spec c 32) as [? | _]; [lia |].
  destruct (N.ltb_spec 126 c) as [_ | ?]; [| lia].
  destruct (N.ltb_spec c 65536) as [_ | ?]; [| lia].
  reflexivity.
Qed.

(** A high surrogate followed by a low one is read back as one character. *)
Lemma scanstring_escaped_pair c c' k :
  is_high_surrogate c = true -> is_low_surrogate c' = true ->
  scanstring ((if needs_escape c then replace c else [c])
              ++ (if needs_escape c' then replace c' else [c']) ++ k)
  = cons_char (join_surrogates c c') (scanstring k).
Proof.
  intros Hh Hl.
  pose proof (proj1 (high_surrogate_bounds c) Hh) as [Hc1 Hc2].
  pose proof (proj1 (low_surrogate_bounds c') Hl) as [Hc1' Hc2'].
  rewrite !escape_of_surrogate by lia.
  destruct (format_04x c) as [| h1 [| h2 [| h3 [| h4 [| ? ?]]]]] eqn:F1; try discriminate.
  destruct (format_04x c') as [| k1 [| k2 [| k3 [| k4 [| ? ?]]]]] eqn:F2; try discriminate.
  change (scanstring (92 :: 117 :: h1 :: h2 :: h3 :: h4 :: 92 :: 117
                        :: k1 :: k2 :: k3 :: k4 :: k)
          = cons_char (join_surrogates c c') (scanstring k)).
  apply scanstring_surrogate_pair; try assumption.
  - apply decode_format_04x; [lia | exact F1].
  - apply decode_format_04x; [lia | exact F2].
Qed.

(** [scanstring] reads what [escape_ascii_sub] wrote as the string with its
    surrogate pairs joined. *)
Lemma scanstring_escape_joins s rest :
  is_str s = true ->
  scanstring (escape_ascii_sub s ++ 34 :: rest) = Scanned (join_pairs s) rest.
Proof.
  assert (Hgen : forall n s, (length s <= n)%nat -> is_str s = true ->
            scanstring (escape_ascii_sub s ++ 34 :: rest) = Scanned (join_pairs s) rest).
  { clear s. induction n as [| n IH]; intros [| c r] Hlen Hstr; cbn [length] in Hlen;
      try lia; try reflexivity.
    apply is_str_cons in Hstr as [Hc Hr].
    destruct r as [| c' r'].
    - cbn [escape_ascii_sub join_pairs]. rewrite <- !app_assoc. cbn [app].
      rewrite scanstring_escaped_char;
        [reflexivity | exact Hc | right; apply pairs_with_next_quote].
    - pose proof Hr as Hr0. apply is_str_cons in Hr as [Hc' Hr'].
      cbn [join_pairs].
      destruct (is_high_surrogate c && is_low_surrogate c') eqn:Hpair.
      + apply andb_true_iff in Hpair as [Hh Hl].
        cbn [escape_ascii_sub]. rewrite <- !app_assoc.
        rewrite scanstring_escaped_pair by assumption.
        rewrite IH; [reflexivity | cbn [length] in Hlen; lia | exact Hr'].
      + change (escape_ascii_sub (c :: c' :: r'))
          with ((if needs_escape c then replace c else [c]) ++ escape_ascii_sub (c' :: r')).
        rewrite <- app_assoc.
        rewrite scanstring_escaped_char; [| exact Hc |].
        * rewrite IH; [reflexivity | lia | exact Hr0].
        * destruct (is_high_surrogate c); [right | now left].
          cbn [andb] in Hpair. cbn [escape_ascii_sub]. rewrite <- app_assoc.
          now apply pairs_with_next_escaped_char. }
  now apply (Hgen (length s)).
Qed.

Lemma scan_once_encoded_joins fuel s rest :
  is_str s = true ->
  scan_once (S fuel) (encode_basestring_ascii s ++ rest) = Scanned (Str (join_pairs s)) rest.
Proof.
  intros Hstr. unfold encode_basestring_ascii.
  cbn [app]. rewrite scan_once_string.
  rewrite <- app_assoc. cbn [app].
  now rewrite scanstring_escape_joins.
Qed.

Lemma array_items_join_joins l : forall x fuel rest,
  Forall (fun s => is_str s = true) (x :: l) ->
  (length (x :: l) < fuel)%nat ->
  array_items fuel (join_items (map encode_basestring_ascii (x :: l)) ++ 93 :: rest)
  = Scanned (map (fun s => Str (join_pairs s)) (x :: l)) rest.
Proof.
  induction l as [| y l IH]; intros x fuel rest Hall Hfuel;
    inversion Hall as [| ? ? Hstr Hall']; subst;
    destruct fuel as [| [| fuel]]; cbn [length] in Hfuel; try lia.
  - cbn [map join_items]. rewrite array_items_step.
    rewrite scan_once_encoded_joins by assumption. reflexivity.
  - change (join_items (map encode_basestring_ascii (x :: y :: l)))
      with (encode_basestring_ascii x ++ lit ", "
            ++ join_items (map encode_basestring_ascii (y :: l))).
    rewrite array_items_step. rewrite <- !app_assoc.
    rewrite scan_once_encoded_joins by assumption.
    change (lit ", " ++ ?k) with (44 :: 32 :: k).
    cbn [skip_ws]. change (is_ws 44) with false. cbv iota.
    change (44 =? 93) with false. change (44 =? 44) with true. cbv iota.
    cbn [skip_ws]. change (is_ws 32) with true. cbv iota.
    assert (Hskip : forall k, skip_ws (join_items (map encode_basestring_ascii (y :: l)) ++ k)
                         = join_items (map encode_basestring_ascii (y :: l)) ++ k).
    { intros k. cbn [map join_items]. destruct (map encode_basestring_ascii l); reflexivity. }
    rewrite Hskip, IH; [reflexivity | assumption | cbn [length]; lia].
Qed.

Lemma loads_dumps_joins l :
  Forall (fun s => is_str s = true) l ->
  loads (dumps l) = Ok (Arr (map (fun s => Str (join_pairs s)) l)).
Proof.
  intros Hall. destruct l as [| x l]; [reflexivity |].
  unfold dumps.
  set (body := join_items (map encode_basestring_ascii (x :: l))).
  assert (Hbody : exists b, body = 34 :: b).
  { unfold body. cbn [map join_items]. destruct (map encode_basestring_ascii l); eexists; reflexivity. }
  destruct Hbody as [b Hb].
  assert (Hitems : array_items (2 * length ([91] ++ body ++ [93])) (body ++ [93])
                   = Scanned (map (fun s => Str (join_pairs s)) (x :: l)) []).
  { apply array_items_join_joins; [exact Hall |].
    pose proof (join_items_length (x :: l)) as Hlen. fold body in Hlen.
    rewrite !length_app. cbn [length] in *. lia. }
  unfold loads. change ([91] ++ body ++ [93]) with (91 :: (body ++ [93])) in *.
  change (strip_prefix [65279] (91 :: body ++ [93])) with (@None pystr).
  cbv iota. cbn [skip_ws]. change (is_ws 91) with false. cbv iota.
  cbn [scan_once]. change (91 =? 34) with false. change (91 =? 123) with false.
  change (91 =? 91) with true. cbv iota.
  rewrite Hb in *. cbn [app skip_ws]. change (is_ws 34) with false. cbv iota.
  change (34 =? 93) with false. cbv iota.
  cbn [app] in Hitems. rewrite Hitems. reflexivity.
Qed.

Lemma as_str_list_joined l :
  as_str_list (map (fun s => Str (join_pairs s)) l) = Ok (map join_pairs l).
Proof.
  induction l as [| s l IH]; [reflexivity |].
  cbn [map as_str_list]. rewrite IH. reflexivity.
Qed.

End JsonFurther.

(** X19. [create_note] never fails on the sources it is given: for every
    sequence of strings it answers with a note whose sources are the
    submitted strings, each with its adjacent surrogate pairs joined. *)
Theorem create_note_answers request db :
  Forall (fun s => is_str s = true) (CreateNoteRequest.sources request) ->
  exists resp,
    fst (create_note request db) = Ok resp /\
    NoteResponse.sources resp = map join_pairs (CreateNoteRequest.sources request) /\
    NoteResponse.status resp = NoteStatus_value NEEDS_MORE_RATINGS /\
    NoteResponse.classification resp = CreateNoteRequest.classification_value request.
Proof.
  intros Hall. unfold create_note. cbn [fst]. unfold _note_to_response, read_sources.
  cbn [Note.sources].
  assert (Htruthy : truthy_str (Some (json.dumps (CreateNoteRequest.sources request))) = true).
  { destruct (CreateNoteRequest.sources request); reflexivity. }
  rewrite Htruthy, (loads_dumps_joins _ Hall). cbn [rbind validate_sources].
  rewrite as_str_list_joined. cbn [rbind]. eexists. repeat split.
Qed.

Section JsonPrintable.
Import json.

Lemma hexdigit_printable d : d < 16 -> printable_ascii (hexdigit d).
Proof.
  intros Hd. unfold hexdigit, printable_ascii.
  destruct (N.ltb_spec d 10); lia.
Qed.

Lemma format_04x_printable n : Forall printable_ascii (format_04x n).
Proof.
  unfold format_04x.
  repeat constructor; apply hexdigit_printable; apply N.mod_lt; discriminate.
Qed.

Lemma lit_printable s :
  List.forallb (fun c => (32 <=? c) && (c <=? 126)) (lit s) = true ->
  Forall printable_ascii (lit s).
Proof.
  intros H. apply List.Forall_forall. intros c Hc.
  rewrite List.forallb_forall in H. specialize (H c Hc).
  apply andb_true_iff in H as [H1 H2]. apply N.leb_le in H1, H2. now split.
Qed.

Lemma replace_printable c : Forall printable_ascii (replace c).
Proof.
  unfold replace.
  repeat match goal with
  | |- context [if ?b then _ else _] => destruct b
  end;
  repeat (apply List.Forall_app; split);
  try apply format_04x_printable;
  try (apply lit_printable; reflexivity).
  repeat constructor; unfold printable_ascii; lia.
Qed.

Lemma escape_ascii_sub_printable s : Forall printable_ascii (escape_ascii_sub s).
Proof.
  induction s as [| c r IH]; [constructor |].
  cbn [escape_ascii_sub]. apply List.Forall_app. split; [| exact IH].
  destruct (needs_escape c) eqn:E; [apply replace_printable |].
  unfold needs_escape in E. repeat (apply orb_false_iff in E as [E ?]).
  repeat constructor; unfold printable_ascii.
  - match goal with H : (c <? 32) = false |- _ => apply N.ltb_ge in H; exact H end.
  - match goal with H : (126 <? c) = false |- _ => apply N.ltb_ge in H; exact H end.
Qed.

Lemma join_items_printable l :
  Forall printable_ascii (join_items (map encode_basestring_ascii l)).
Proof.
  assert (Henc : forall s, Forall printable_ascii (encode_basestring_ascii s)).
  { intros s. unfold encode_basestring_ascii.
    repeat (apply List.Forall_app; split); try apply escape_ascii_sub_printable;
      repeat constructor; unfold printable_ascii; lia. }
  induction l as [| x [| y l] IH]; [constructor | apply Henc |].
  change (join_items (map encode_basestring_ascii (x :: y :: l)))
    with (encode_basestring_ascii x ++ lit ", "
          ++ join_items (map encode_basestring_ascii (y :: l))).
  apply List.Forall_app; split; [apply Henc |].
  apply List.Forall_app; split; [| exact IH].
  apply lit_printable. reflexivity.
Qed.

Lemma dumps_printable l : Forall printable_ascii (dumps l) /\ dumps l <> [].
Proof.
  unfold dumps. destruct l as [| x l].
  - split; [apply lit_printable; reflexivity | discriminate].
  - split; [| discriminate].
    repeat (apply List.Forall_app; split); try apply join_items_printable;
      repeat constructor; unfold printable_ascii; lia.
Qed.

End JsonPrintable.

(** X20. Whatever the submitted sources, the text that [create_note] stores
    for them is not empty and consists of printable ASCII characters only:
    every other character is written as an escape. *)
Theorem stored_sources_are_ascii request db :
  exists note text,
    rows (snd (create_note request db)) = rows db ++ [note] /\
    Note.sources note = Some text /\
    text <> [] /\ Forall printable_ascii text.
Proof.
  destruct (create_note_store request db) as (note & -> & _ & _ & _ & _ & _ & _ & Hs).
  exists note, (json.dumps (CreateNoteRequest.sources request)).
  destruct (dumps_printable (CreateNoteRequest.sources request)) as [Hp Hne].
  cbn [rows]. repeat split; assumption.
Qed.

(** ** How creation and deletion show in the views *)

Lemma notes_of_promise_created request db promise_id :
  exists note,
    Note.status note = NoteStatus_value NEEDS_MORE_RATINGS /\
    notes_of_promise (snd (create_note request db)) promise_id
    = notes_of_promise db promise_id
      ++ (if (CreateNoteRequest.promise_id request =? promise_id)%Z then [note] else []).
Proof.
  destruct (create_note_store request db) as (note & -> & _ & _ & Hp & _ & Hs & _).
  exists note. split; [exact Hs |].
  unfold notes_of_promise. cbn [rows]. rewrite List.filter_app. cbn [List.filter].
  now rewrite Hp.
Qed.

Lemma has_status_other st st' n :
  Note.status n = NoteStatus_value st -> st <> st' -> has_status st' n = false.
Proof.
  intros Hs Hne. destruct (has_status st' n) eqn:E; [| reflexivity].
  apply has_status_spec in E. rewrite Hs in E.
  destruct st, st'; try contradiction; discriminate.
Qed.

(** X21. A note that has just been created counts in the scored view of
    its promise as one more note and one more note that needs ratings; the
    count of helpful notes does not move. *)
Theorem created_note_in_scored_view request db before after :
  get_scored_notes_for_promise db (CreateNoteRequest.promise_id request) = Ok before ->
  get_scored_notes_for_promise (snd (create_note request db))
    (CreateNoteRequest.promise_id request) = Ok after ->
  ScoredNotesResponse.total_notes after
    = (ScoredNotesResponse.total_notes before + 1)%Z /\
  ScoredNotesResponse.needs_more_ratings_count after
    = (ScoredNotesResponse.needs_more_ratings_count before + 1)%Z /\
  ScoredNotesResponse.helpful_notes_count after
    = ScoredNotesResponse.helpful_notes_count before.
Proof.
  intros Hb Ha.
  pose proof (get_scored_notes_cases db (CreateNoteRequest.promise_id request)) as Hcb.
  pose proof (get_scored_notes_cases (snd (create_note request db))
                (CreateNoteRequest.promise_id request)) as Hca.
  cbv zeta in Hcb, Hca. rewrite Hb in Hcb. rewrite Ha in Hca.
  destruct Hcb as (_ & -> & -> & -> & _). destruct Hca as (_ & -> & -> & -> & _).
  destruct (notes_of_promise_created request db (CreateNoteRequest.promise_id request))
    as (note & Hs & ->).
  rewrite Z.eqb_refl, !List.filter_app, !py_sum_ones, !length_app. cbn [List.filter].
  rewrite (proj2 (has_status_spec NEEDS_MORE_RATINGS note) Hs).
  rewrite (has_status_other NEEDS_MORE_RATINGS CURRENTLY_RATED_HELPFUL note Hs)
    by discriminate.
  cbn [length]. repeat split; lia.
Qed.


Lemma same_key_same_note (l : list Note.t) a b :
  List.NoDup (map Note.id l) -> In a l -> In b l -> Note.id a = Note.id b -> a = b.
Proof.
  induction l as [| x l IH]; intros Hnd Ha Hb Hid; [destruct Ha |].
  cbn [map] in Hnd. inversion Hnd as [| ? ? Hx Hl]; subst.
  destruct Ha as [-> | Ha], Hb as [-> | Hb]; try reflexivity.
  - exfalso. apply Hx. rewrite Hid. now apply in_map.
  - exfalso. apply Hx. rewrite <- Hid. now apply in_map.
  - now apply IH.
Qed.

(** X23. In a store whose keys are distinct a deletion that succeeds
    changes no classification statistics, of any promise: the counts of
    helpful notes cannot be lowered by deleting. *)
Theorem delete_note_keeps_helpful_counts db note_id author_id db' promise_id :
  keys_ok db ->
  delete_note db note_id author_id = Ok db' ->
  get_notes_by_classification db' promise_id
  = get_notes_by_classification db promise_id.
Proof.
  intros [Hnd _] H.
  apply delete_note_cases in H as (note & Hfind & _ & Hs & ->).
  apply first_with_id_some in Hfind as [Hin Hid].
  unfold get_notes_by_classification. cbn [rows]. rewrite filter_filter.
  do 4 f_equal. apply List.filter_ext_in. intros n Hn.
  destruct (Z.eqb_spec (Note.id n) note_id) as [E | _]; cbn [negb andb]; [| reflexivity].
  assert (n = note) by (apply (same_key_same_note (rows db)); congruence).
  subst n. rewrite Hs. now rewrite andb_false_r.
Qed.

(** ** The further properties at work *)

Lemma by_author_returns_only_matching_witness :
  (exists n, In n (rows aggregation_example) /\
             response_of n (nth 0 aggregation_by_author no_response)) /\
  NoteResponse.author_id (nth 0 aggregation_by_author no_response) = 1%Z /\
  passes_status None (NoteResponse.status (nth 0 aggregation_by_author no_response)).
Proof.
  apply (by_author_returns_only_matching aggregation_example 1 None None 0
           aggregation_by_author (nth 0 aggregation_by_author no_response)).
  - vm_compute. reflexivity.
  - left. reflexivity.
Defined.

Lemma for_promise_returns_only_matching_witness :
  (exists n, In n (rows aggregation_example) /\
             response_of n (nth 1 aggregation_needing_ratings no_response)) /\
  NoteResponse.promise_id (nth 1 aggregation_needing_ratings no_response) = 7%Z /\
  passes_status (Some NEEDS_MORE_RATINGS)
    (NoteResponse.status (nth 1 aggregation_needing_ratings no_response)).
Proof.
  apply (for_promise_returns_only_matching aggregation_example 7
           (Some NEEDS_MORE_RATINGS) (Some 2%Z) 0 aggregation_needing_ratings
           (nth 1 aggregation_needing_ratings no_response)).
  - vm_compute. reflexivity.
  - right. left. reflexivity.
Defined.

Lemma by_author_newest_first_witness :
  map NoteResponse.id dated_by_author = [3; 1; 4; 2]%Z /\
  map NoteResponse.created_at dated_by_author = [40; 30; 20; 10]%Z /\
  StronglySorted newest_first dated_by_author.
Proof.
  split; [reflexivity |]. split; [reflexivity |].
  apply (by_author_newest_first dated_example 7 None None 0).
  vm_compute. reflexivity.
Defined.

Lemma for_promise_intercept_first_witness :
  StronglySorted intercept_first
    (value_or [] (get_notes_for_promise scored_example 7 None None 0)).
Proof.
  apply (for_promise_intercept_first scored_example 7 None None 0).
  vm_compute. reflexivity.
Defined.

Lemma page_size_exact_witness :
  (forall resp,
     get_notes_by_author aggregation_example 7 None (Some 2%Z) 1 = Ok resp ->
     Z.of_nat (length resp)
     = Z.min 2 (Z.max 0 (Z.of_nat (length (author_query aggregation_example 7 None)) - 1))) /\
  (forall resp,
     get_notes_for_promise aggregation_example 7 None (Some 2%Z) 1 = Ok resp ->
     Z.of_nat (length resp)
     = Z.min 2 (Z.max 0 (Z.of_nat (length (promise_query aggregation_example 7 None)) - 1))).
Proof.
  apply (page_size_exact aggregation_example 7 None (Some 2%Z) 1 2);
    [reflexivity | lia | lia].
Defined.

Lemma dated_example_rescanned_rows :
  Permutation (rows dated_example) (rows dated_example_rescanned) /\
  Permutation (rows dated_example) (rows dated_example_rescanned_again).
Proof.
  cbn [rows dated_example dated_example_rescanned dated_example_rescanned_again].
  set (n1 := dated_note 1 7 7 (Some (Fin (1 # 2))) 30).
  set (n2 := dated_note 2 7 7 None 10).
  set (n3 := dated_note 3 7 7 (Some (Fin (1 # 2))) 40).
  set (n4 := dated_note 4 7 7 (Some (Fin (9 # 10))) 20).
  set (n5 := dated_note 5 8 2 None 50).
  split.
  - apply (Permutation_trans (l' := [n4; n5; n1; n2; n3])).
    + apply (Permutation_app_comm [n1; n2; n3] [n4; n5]).
    + do 3 apply perm_skip. apply perm_swap.
  - apply (Permutation_trans (l' := [n2; n3; n4; n5; n1])).
    + apply (Permutation_app_comm [n1] [n2; n3; n4; n5]).
    + do 2 apply perm_skip. apply perm_swap.
Defined.

Lemma dated_example_untied :
  untied created_desc (author_query dated_example 7 None) /\
  untied intercept_desc_nullslast (promise_query dated_example 7 None).
Proof.
  split; intros a b Ha Hb H1 H2; vm_compute in Ha, Hb;
    repeat (destruct Ha as [<- | Ha]; [| try contradiction]);
    repeat (destruct Hb as [<- | Hb]; [| try contradiction]);
    try reflexivity; vm_compute in H1, H2; discriminate.
Defined.

Lemma consecutive_pages_witness :
  (forall p1 p2,
     get_notes_by_author dated_example 7 None (Some 1%Z) 1 = Ok p1 ->
     get_notes_by_author dated_example_rescanned 7 None (Some 2%Z) (1 + 1) = Ok p2 ->
     get_notes_by_author dated_example_rescanned_again 7 None (Some (1 + 2)%Z) 1
     = Ok (p1 ++ p2)) /\
  (forall p1 p2,
     get_notes_for_promise dated_example 7 None (Some 1%Z) 1 = Ok p1 ->
     get_notes_for_promise dated_example_rescanned 7 None (Some 2%Z) (1 + 1) = Ok p2 ->
     get_notes_for_promise dated_example_rescanned_again 7 None (Some (1 + 2)%Z) 1
     = Ok (p1 ++ p2)).
Proof.
  destruct (consecutive_pages dated_example dated_example_rescanned
              dated_example_rescanned_again 7 None 1 1 2
              (proj1 dated_example_rescanned_rows) (proj2 dated_example_rescanned_rows)
              ltac:(lia) ltac:(lia) ltac:(lia) ltac:(lia)) as [Hauthor Hpromise].
  split.
  - exact (Hauthor (proj1 dated_example_untied)).
  - exact (Hpromise (proj2 dated_example_untied)).
Defined.

Lemma list_failures_witness :
  JSONDecodeError = RequestValidationError \/
  (JSONDecodeError = DBAPIError /\ dialect corrupt_store = PostgreSQL) \/
  exists n, In n (author_query corrupt_store 1 None) /\
            _note_to_response n = Err JSONDecodeError.
Proof.
  apply (proj1 (list_failures corrupt_store 1 None None 0 JSONDecodeError)).
  vm_compute. reflexivity.
Defined.

Lemma delete_note_succeeds_iff_witness :
  exists note,
    first_with_id deletion_example 2 = Some note /\
    Note.author_id note = 2%Z /\
    has_status CURRENTLY_RATED_HELPFUL note = false /\
    after_deletion
    = mkDb (dialect deletion_example)
           (List.filter (fun n => negb (Note.id n =? 2)%Z) (rows deletion_example))
           (next_id deletion_example) (clock deletion_example).
Proof.
  apply (proj1 (delete_note_succeeds_iff deletion_example 2 2 after_deletion)).
  vm_compute. reflexivity.
Defined.

Lemma deleted_note_is_gone_witness :
  get_note after_deletion 2 = Err not_found /\
  (forall requester, delete_note after_deletion 2 requester = Err not_found) /\
  (forall other, other <> 2%Z -> get_note after_deletion other = get_note deletion_example other).
Proof.
  apply (deleted_note_is_gone deletion_example 2 2 after_deletion).
  vm_compute. reflexivity.
Defined.

Lemma deletion_example_keys_ok : keys_ok deletion_example.
Proof.
  split.
  - cbn. repeat constructor; cbn; intuition lia.
  - cbn. repeat constructor; cbn; lia.
Defined.

Lemma aggregation_example_keys_ok : keys_ok aggregation_example.
Proof.
  split.
  - cbn. repeat constructor; cbn; intuition lia.
  - cbn. repeat constructor; cbn; lia.
Defined.

Lemma delete_note_removes_one_witness :
  S (length (rows after_deletion)) = length (rows deletion_example) /\
  keys_ok after_deletion.
Proof.
  apply (delete_note_removes_one deletion_example 2 2 after_deletion).
  - exact deletion_example_keys_ok.
  - vm_compute. reflexivity.
Defined.

Lemma create_note_keeps_the_rest_witness :
  keys_ok (snd (create_note two_sources_request aggregation_example)).
Proof.
  apply (create_note_keeps_the_rest two_sources_request aggregation_example).
  exact aggregation_example_keys_ok.
Defined.

Lemma created_note_is_readable_witness :
  NoteResponse.id created_response = next_id aggregation_example /\
  get_note (snd (create_note two_sources_request aggregation_example))
           (NoteResponse.id created_response) = Ok created_response.
Proof.
  apply (created_note_is_readable two_sources_request aggregation_example created_response).
  - exact aggregation_example_keys_ok.
  - vm_compute. reflexivity.
Defined.

Lemma scored_view_of_no_notes_witness :
  get_scored_notes_for_promise aggregation_example 8
  = Ok (ScoredNotesResponse.mk 8 [] 0 0 0 None (lit "1.0.0")).
Proof.
  apply (scored_view_of_no_notes aggregation_example 8). reflexivity.
Defined.

Lemma scored_counts_partition_witness :
  ScoredNotesResponse.total_notes aggregation_view =
  (ScoredNotesResponse.helpful_notes_count aggregation_view
   + ScoredNotesResponse.needs_more_ratings_count aggregation_view
   + Z.of_nat (length (List.filter
                         (fun n => negb (has_status CURRENTLY_RATED_HELPFUL n)
                                   && negb (has_status NEEDS_MORE_RATINGS n))
                         (notes_of_promise aggregation_example 7))))%Z.
Proof.
  apply (scored_counts_partition aggregation_example 7 aggregation_view).
  vm_compute. reflexivity.
Defined.


Lemma classification_counts_add_up_witness :
  dict_total (snd (get_notes_by_classification aggregation_example 7))
  = ScoredNotesResponse.helpful_notes_count aggregation_view.
Proof.
  apply (classification_counts_add_up aggregation_example 7 aggregation_view).
  vm_compute. reflexivity.
Defined.

Lemma create_note_answers_witness :
  exists resp,
    fst (create_note surrogate_request empty_store) = Ok resp /\
    NoteResponse.sources resp = map join_pairs (CreateNoteRequest.sources surrogate_request) /\
    NoteResponse.status resp = NoteStatus_value NEEDS_MORE_RATINGS /\
    NoteResponse.classification resp
    = CreateNoteRequest.classification_value surrogate_request.
Proof.
  apply (create_note_answers surrogate_request empty_store).
  repeat constructor.
Defined.

Lemma created_note_in_scored_view_witness :
  ScoredNotesResponse.total_notes created_view
    = (ScoredNotesResponse.total_notes aggregation_view + 1)%Z /\
  ScoredNotesResponse.needs_more_ratings_count created_view
    = (ScoredNotesResponse.needs_more_ratings_count aggregation_view + 1)%Z /\
  ScoredNotesResponse.helpful_notes_count created_view
    = ScoredNotesResponse.helpful_notes_count aggregation_view.
Proof.
  apply (created_note_in_scored_view two_sources_request aggregation_example
           aggregation_view created_view); vm_compute; reflexivity.
Defined.


Lemma delete_note_keeps_helpful_counts_witness :
  get_notes_by_classification after_deletion 7
  = get_notes_by_classification deletion_example 7.
Proof.
  apply (delete_note_keeps_helpful_counts deletion_example 2 2 after_deletion 7).
  - exact deletion_example_keys_ok.
  - vm_compute. reflexivity.
Defined.

Lemma scored_view_intercept_order_witness :
  is_nan (Fin (3 # 10)) = false /\
  (forall x,
     scored_intercept (nth 0 (ScoredNotesResponse.notes scored_view) no_response) x ->
     is_nan x = false /\ float_lt x (Fin (3 # 10)) = false) /\
  ((forall x,
      ~ scored_intercept (nth 0 (ScoredNotesResponse.notes scored_view) no_response) x) ->
   float_lt (Fin (-999)) (Fin (3 # 10)) = false).
Proof.
  apply (scored_view_intercept_order scored_example 7 scored_view
           [] (nth 0 (ScoredNotesResponse.notes scored_view) no_response)
           [] (nth 1 (ScoredNotesResponse.notes scored_view) no_response)
           (skipn 2 (ScoredNotesResponse.notes scored_view)) (Fin (3 # 10))).
  - vm_compute. repeat constructor.
  - vm_compute. reflexivity.
  - vm_compute. reflexivity.
  - split; intros H; vm_compute in H; discriminate H.
  - split; vm_compute; reflexivity.
Defined.

Lemma negative_limit_reaches_the_query_witness :
  get_notes_by_author crowded_store 1 None (Some (-5)%Z) 100
  = comprehension _note_to_response
      (skipn (Z.to_nat 100) (author_query crowded_store 1 None)) /\
  get_notes_for_promise crowded_store 7 None (Some (-5)%Z) 100
  = comprehension _note_to_response
      (skipn (Z.to_nat 100) (promise_query crowded_store 7 None)).
Proof.
  split.
  - apply (proj1 (negative_limit_reaches_the_query crowded_store 1 None (-5) 100
                    ltac:(lia))).
  - apply (proj2 (negative_limit_reaches_the_query crowded_store 7 None (-5) 100
                    ltac:(lia))).
Defined.

(** A string without adjacent surrogate pairs is read back as it is. *)
Lemma join_pairs_without_pairs s : has_surrogate_pair s = false -> join_pairs s = s.
Proof.
  induction s as [| c r IH]; intros H; [reflexivity |].
  cbn [has_surrogate_pair] in H. apply orb_false_iff in H as [Hhead Htail].
  cbn [join_pairs]. destruct r as [| c' r']; [reflexivity |].
  rewrite Hhead. f_equal. now apply IH.
Qed.
